(** * Interval abstract domain of crab: bounds, intervals, separate domain.

    Shallow embedding of
      - include/crab/domains/intervals.hpp   (bound, interval, interval_domain)
      - include/ikos/domains/separate_domains.hpp (separate_domain)
    The C++ templates are parametric in the number type; the embedding is
    parametric in a class [Number] with instances for [z_number] (Z) and
    [q_number] (Q). *)

From Stdlib Require Import ZArith QArith Bool Lia.
From stdpp Require Import base option list gmap fin_maps.

Local Open Scope Z_scope.

(** ** Numbers (z_number, q_number) *)

(** The operations the templates use on [Number], with the order laws of an
    exact ordered number type.  [of_int] is the conversion from an integer
    literal ([Number(int)]). *)
Class Number (N : Type) := {
  of_int : Z -> N;
  n_add : N -> N -> N;
  n_neg : N -> N;
  n_mul : N -> N -> N;
  n_div : N -> N -> N;
  n_eqb : N -> N -> bool;
  n_leb : N -> N -> bool;
  n_ltb : N -> N -> bool;
  n_ltb_spec : forall x y, n_ltb x y = negb (n_leb y x);
  n_eqb_spec : forall x y, n_eqb x y = n_leb x y && n_leb y x;
  n_leb_total : forall x y, n_leb x y || n_leb y x = true;
  n_leb_trans : forall x y z,
    n_leb x y = true -> n_leb y z = true -> n_leb x z = true;
  of_int_leb : forall a b, n_leb (of_int a) (of_int b) = (a <=? b);
  n_neg_of_int : forall a, n_neg (of_int a) = of_int (- a);
  n_mul_of_int : forall a b, n_mul (of_int a) (of_int b) = of_int (a * b);
}.

Definition n_gtb {N} `{Number N} (x y : N) : bool := n_ltb y x.
Definition n_geb {N} `{Number N} (x y : N) : bool := n_leb y x.

(** z_number: division truncates toward zero. *)
#[export, refine] Instance z_number : Number Z := {|
  of_int := fun z => z;
  n_add := Z.add; n_neg := Z.opp; n_mul := Z.mul; n_div := Z.quot;
  n_eqb := Z.eqb; n_leb := Z.leb; n_ltb := Z.ltb |}.
Proof.
  - intros x y. destruct (Z.ltb_spec x y), (Z.leb_spec y x); simpl; auto; lia.
  - intros x y.
    destruct (Z.eqb_spec x y), (Z.leb_spec x y), (Z.leb_spec y x);
      simpl; auto; lia.
  - intros x y. destruct (Z.leb_spec x y), (Z.leb_spec y x); simpl; auto; lia.
  - intros x y z Hxy Hyz. apply Z.leb_le in Hxy, Hyz. apply Z.leb_le. lia.
  - reflexivity.
  - reflexivity.
  - reflexivity.
Defined.

Lemma Qle_bool_total (x y : Q) : Qle_bool x y || Qle_bool y x = true.
Proof.
  destruct (Qlt_le_dec x y) as [Hlt | Hle].
  - apply Qlt_le_weak, Qle_bool_iff in Hlt. rewrite Hlt. reflexivity.
  - apply Qle_bool_iff in Hle. rewrite Hle. apply orb_true_r.
Qed.

Lemma Qeq_bool_le (x y : Q) : Qeq_bool x y = Qle_bool x y && Qle_bool y x.
Proof.
  destruct (Qeq_bool x y) eqn:He.
  - apply Qeq_bool_iff in He. symmetry. apply andb_true_iff.
    split; apply Qle_bool_iff; rewrite He; apply Qle_refl.
  - symmetry. apply not_true_is_false. intros Hb.
    apply andb_true_iff in Hb as [H1 H2].
    apply Qle_bool_iff in H1, H2.
    assert (Qeq_bool x y = true)
      by (apply Qeq_bool_iff, Qle_antisym; assumption).
    congruence.
Qed.

(** q_number: exact rationals, compared up to value. *)
#[export, refine] Instance q_number : Number Q := {|
  of_int := inject_Z;
  n_add := Qplus; n_neg := Qopp; n_mul := Qmult; n_div := Qdiv;
  n_eqb := Qeq_bool; n_leb := Qle_bool;
  n_ltb := fun x y => negb (Qle_bool y x) |}.
Proof.
  - reflexivity.
  - apply Qeq_bool_le.
  - apply Qle_bool_total.
  - intros x y z Hxy Hyz. apply Qle_bool_iff in Hxy, Hyz.
    apply Qle_bool_iff. eapply Qle_trans; eassumption.
  - intros a b. unfold Qle_bool, inject_Z. simpl.
    rewrite !Z.mul_1_r. reflexivity.
  - reflexivity.
  - reflexivity.
Defined.

(** ** Outcome of a partial operation *)

(** [CRAB_ERROR] stops the analysis; the two messages of intervals.hpp are
    the two constructors of [crab_error].  [Out_of_fuel] is only produced
    by the fuel-indexed recursion of the integer division below. *)
Inductive crab_error :=
  | Undefined_oo_sum      (* "Bound: undefined operation -oo + +oo" *)
  | Division_by_zero      (* "Bound: division by zero" *)
  | Out_of_fuel.

Inductive result (A : Type) :=
  | Ok (a : A)
  | Crab_error (e : crab_error).
Arguments Ok {A} a.
Arguments Crab_error {A} e.

#[export] Instance result_ret : MRet result := fun A a => Ok a.
#[export] Instance result_bind : MBind result := fun A B k r =>
  match r with
  | Ok a => k a
  | Crab_error e => Crab_error e
  end.

(** ** class bound *)

Section Bound.
Context {N : Type} `{Number N}.

Record bound := Bound { _is_infinite : bool; _n : N }.

(* private: bound(bool is_infinite, Number n) *)
Definition bound_ctor (is_infinite : bool) (n : N) : bound :=
  if is_infinite then
    if n_gtb n (of_int 0) then Bound true (of_int 1)
    else Bound true (of_int (-1))
  else Bound false n.

Definition plus_infinity : bound := bound_ctor true (of_int 1).
Definition minus_infinity : bound := bound_ctor true (of_int (-1)).

(* bound(Number n) *)
Definition bound_of (n : N) : bound := Bound false n.
(* bound(int n) *)
Definition bound_of_int (n : Z) : bound := Bound false (of_int n).

Definition is_infinite (b : bound) : bool := _is_infinite b.
Definition is_finite (b : bound) : bool := negb (_is_infinite b).
Definition is_plus_infinity (b : bound) : bool :=
  is_infinite b && n_gtb (_n b) (of_int 0).
Definition is_minus_infinity (b : bound) : bool :=
  is_infinite b && n_ltb (_n b) (of_int 0).

(* operator-() *)
Definition bound_neg (b : bound) : bound :=
  bound_ctor (_is_infinite b) (n_neg (_n b)).

(* operator+ *)
Definition bound_add (b x : bound) : result bound :=
  if is_finite b && is_finite x then Ok (bound_of (n_add (_n b) (_n x)))
  else if is_finite b && is_infinite x then Ok x
  else if is_infinite b && is_finite x then Ok b
  else if n_eqb (_n b) (_n x) then Ok b
  else Crab_error Undefined_oo_sum.

(* operator-(bound_t) *)
Definition bound_sub (b x : bound) : result bound :=
  bound_add b (bound_neg x).

(* operator* *)
Definition bound_mul (b x : bound) : bound :=
  if n_eqb (_n x) (of_int 0) then x
  else if n_eqb (_n b) (of_int 0) then b
  else bound_ctor (_is_infinite b || _is_infinite x) (n_mul (_n b) (_n x)).

(* operator/ *)
Definition bound_div (b x : bound) : result bound :=
  if n_eqb (_n x) (of_int 0) then Crab_error Division_by_zero
  else if is_finite b && is_finite x then
    Ok (bound_ctor false (n_div (_n b) (_n x)))
  else if is_finite b && is_infinite x then
    if n_gtb (_n b) (of_int 0) then Ok x
    else if n_eqb (_n b) (of_int 0) then Ok b
    else Ok (bound_neg x)
  else if is_infinite b && is_finite x then
    if n_gtb (_n x) (of_int 0) then Ok b
    else Ok (bound_neg b)
  else Ok (bound_ctor true (n_mul (_n b) (_n x))).

(* operator<= *)
Definition bound_le (b x : bound) : bool :=
  if xorb (_is_infinite b) (_is_infinite x) then
    if _is_infinite b then n_ltb (_n b) (of_int 0)
    else n_gtb (_n x) (of_int 0)
  else n_leb (_n b) (_n x).

(* operator>= *)
Definition bound_ge (b x : bound) : bool :=
  if xorb (_is_infinite b) (_is_infinite x) then
    if _is_infinite b then n_gtb (_n b) (of_int 0)
    else n_ltb (_n x) (of_int 0)
  else n_geb (_n b) (_n x).

(* operator< and operator> *)
Definition bound_lt (b x : bound) : bool := negb (bound_ge b x).
Definition bound_gt (b x : bound) : bool := negb (bound_le b x).

(* operator== and operator!= *)
Definition bound_eq (b x : bound) : bool :=
  Bool.eqb (_is_infinite b) (_is_infinite x) && n_eqb (_n b) (_n x).
Definition bound_ne (b x : bound) : bool := negb (bound_eq b x).

(* static min / max, two, three and four arguments *)
Definition bound_min (x y : bound) : bound := if bound_le x y then x else y.
Definition bound_min3 (x y z : bound) : bound := bound_min x (bound_min y z).
Definition bound_min4 (x y z t : bound) : bound :=
  bound_min x (bound_min3 y z t).
Definition bound_max (x y : bound) : bound := if bound_le x y then y else x.
Definition bound_max3 (x y z : bound) : bound := bound_max x (bound_max y z).
Definition bound_max4 (x y z t : bound) : bound :=
  bound_max x (bound_max3 y z t).

(* number() *)
Definition number (b : bound) : option N :=
  if is_infinite b then None else Some (_n b).

(** The constructors keep the magnitude of an infinite bound at 1 or -1:
    every bound the class can build satisfies [wf_bound]. *)
Definition wf_bound (b : bound) : Prop :=
  _is_infinite b = true -> _n b = of_int 1 \/ _n b = of_int (-1).

End Bound.
Arguments bound N : clear implicits.

(** ** The order and the arithmetic of bounds as the specification words them *)

(** An extended number: the three shapes a bound can take. *)
Inductive ext_number (N : Type) :=
  | Minus_oo
  | Fin (n : N)
  | Plus_oo.
Arguments Minus_oo {N}.
Arguments Fin {N} n.
Arguments Plus_oo {N}.

Section BoundSpec.
Context {N : Type} `{Number N}.

(** What a bound denotes, read through its public observers. *)
Definition view (b : bound N) : ext_number N :=
  match number b with
  | Some n => Fin n
  | None => if is_plus_infinity b then Plus_oo else Minus_oo
  end.

(** "Order: total, with -oo < any finite < +oo". *)
Definition spec_le (x y : ext_number N) : bool :=
  match x, y with
  | Minus_oo, _ => true
  | _, Plus_oo => true
  | Fin a, Fin b => n_leb a b
  | _, _ => false
  end.

(** "finite+finite -> finite sum; finite+oo -> the infinity;
    (+oo)+(+oo) -> +oo; (-oo)+(-oo) -> -oo; (+oo)+(-oo) -> error". *)
Definition spec_add (x y : ext_number N) : option (ext_number N) :=
  match x, y with
  | Fin a, Fin b => Some (Fin (n_add a b))
  | Fin _, oo => Some oo
  | oo, Fin _ => Some oo
  | Plus_oo, Plus_oo => Some Plus_oo
  | Minus_oo, Minus_oo => Some Minus_oo
  | _, _ => None
  end.

Definition is_positive (x : ext_number N) : bool :=
  match x with
  | Plus_oo => true
  | Minus_oo => false
  | Fin n => n_gtb n (of_int 0)
  end.

(** The infinity whose sign is the product of the signs of [x] and [y]. *)
Definition oo_sign_product (x y : ext_number N) : ext_number N :=
  if Bool.eqb (is_positive x) (is_positive y) then Plus_oo else Minus_oo.

(** "divisor 0 -> error; finite/finite -> finite quotient; finite/oo -> 0
    if finite is 0, else the infinity with sign = product of signs;
    oo/finite and oo/oo -> infinity with sign = product of signs". *)
Definition spec_div (x y : ext_number N) : option (ext_number N) :=
  match x, y with
  | _, Fin b =>
      if n_eqb b (of_int 0) then None
      else match x with
           | Fin a => Some (Fin (n_div a b))
           | _ => Some (oo_sign_product x y)
           end
  | Fin a, _ =>
      if n_eqb a (of_int 0) then Some (Fin a)
      else Some (oo_sign_product x y)
  | _, _ => Some (oo_sign_product x y)
  end.

End BoundSpec.

(** ** Facts about numbers and bounds *)

Section BoundFacts.
Context {N : Type} `{Number N}.

Lemma n_leb_refl (x : N) : n_leb x x = true.
Proof. pose proof (n_leb_total x x) as Ht. destruct (n_leb x x); auto. Qed.

Lemma n_leb_false_flip (x y : N) : n_leb x y = false -> n_leb y x = true.
Proof. intros Hf. pose proof (n_leb_total x y) as Ht. rewrite Hf in Ht. exact Ht. Qed.

Lemma of_int_ltb (a b : Z) : n_ltb (of_int a) (of_int b) = (a <? b).
Proof.
  rewrite n_ltb_spec, of_int_leb.
  destruct (Z.leb_spec b a), (Z.ltb_spec a b); simpl; auto; lia.
Qed.

Lemma of_int_gtb (a b : Z) : n_gtb (of_int a) (of_int b) = (b <? a).
Proof. unfold n_gtb. apply of_int_ltb. Qed.

Lemma of_int_eqb (a b : Z) : n_eqb (of_int a) (of_int b) = (a =? b).
Proof.
  rewrite n_eqb_spec, !of_int_leb.
  destruct (Z.leb_spec a b), (Z.leb_spec b a), (Z.eqb_spec a b);
    simpl; auto; lia.
Qed.

Lemma n_eqb_refl (x : N) : n_eqb x x = true.
Proof. rewrite n_eqb_spec, n_leb_refl. reflexivity. Qed.

Lemma plus_infinity_eq : plus_infinity = Bound true (of_int 1).
Proof. unfold plus_infinity, bound_ctor. rewrite of_int_gtb. reflexivity. Qed.

Lemma minus_infinity_eq : minus_infinity = Bound true (of_int (-1)).
Proof. unfold minus_infinity, bound_ctor. rewrite of_int_gtb. reflexivity. Qed.

(** A well-formed bound is a finite number, +oo or -oo. *)
Lemma wf_bound_cases (b : bound N) :
  wf_bound b ->
  (exists n, b = bound_of n) \/ b = plus_infinity \/ b = minus_infinity.
Proof.
  destruct b as [[|] n]; unfold wf_bound; simpl; intros Hwf.
  - rewrite plus_infinity_eq, minus_infinity_eq.
    destruct (Hwf eq_refl) as [-> | ->]; auto.
  - left. exists n. reflexivity.
Qed.

Lemma wf_bound_of (n : N) : wf_bound (bound_of n).
Proof. intros Hinf. discriminate Hinf. Qed.

Lemma wf_plus_infinity : wf_bound plus_infinity.
Proof. rewrite plus_infinity_eq. intros _. left. reflexivity. Qed.

Lemma wf_minus_infinity : wf_bound minus_infinity.
Proof. rewrite minus_infinity_eq. intros _. right. reflexivity. Qed.

Lemma wf_bound_ctor (i : bool) (n : N) : wf_bound (bound_ctor i n).
Proof.
  unfold bound_ctor. destruct i; [destruct (n_gtb n (of_int 0))|];
    intros Hinf; simpl in *; auto; discriminate.
Qed.

Lemma wf_raw_fin (n : N) : wf_bound (Bound false n).
Proof. intros Hinf. discriminate Hinf. Qed.

Lemma wf_raw_plus : wf_bound (Bound true (of_int 1)).
Proof. intros _. left. reflexivity. Qed.

Lemma wf_raw_minus : wf_bound (Bound true (of_int (-1))).
Proof. intros _. right. reflexivity. Qed.

Lemma wf_bound_neg (b : bound N) : wf_bound (bound_neg b).
Proof. apply wf_bound_ctor. Qed.

End BoundFacts.

Create HintDb wf.
#[export] Hint Resolve wf_bound_of wf_plus_infinity wf_minus_infinity
  wf_bound_ctor wf_bound_neg wf_raw_fin wf_raw_plus wf_raw_minus : wf.

(** Case analysis on well-formed bounds, and evaluation of the comparisons
    of literals that it leaves. *)
Ltac bound_cases b H :=
  let n := fresh "n" in
  destruct (wf_bound_cases b H) as [[n ->] | [-> | ->]];
  rewrite ?plus_infinity_eq, ?minus_infinity_eq in *.

Ltac lit_simpl :=
  repeat (rewrite ?n_neg_of_int, ?n_mul_of_int, ?of_int_leb,
            ?of_int_ltb, ?of_int_gtb, ?of_int_eqb, ?n_leb_refl, ?n_eqb_refl;
          cbn [_is_infinite _n xorb negb andb orb Bool.eqb Z.leb Z.ltb Z.eqb
               Z.compare Z.opp Z.mul Pos.compare Pos.compare_cont Pos.mul
               is_infinite is_finite bound_of bound_of_int]).

(** Case analysis on the sign of a number. *)
Ltac sign_cases n :=
  unfold n_gtb, n_geb in *; rewrite ?n_ltb_spec, ?n_eqb_spec in *;
  let H1 := fresh "Hle0" in
  let H2 := fresh "Hge0" in
  destruct (n_leb n (of_int 0)) eqn:H1; destruct (n_leb (of_int 0) n) eqn:H2;
  [ | | | exfalso; pose proof (n_leb_total n (of_int 0)) as Ht;
          rewrite H1, H2 in Ht; discriminate Ht ].

Section BoundOrder.
Context {N : Type} `{Number N}.

Lemma bound_ge_le (a b : bound N) : bound_ge a b = bound_le b a.
Proof.
  unfold bound_ge, bound_le, n_geb, n_gtb.
  destruct (_is_infinite a), (_is_infinite b); reflexivity.
Qed.

Lemma bound_lt_le (a b : bound N) : bound_lt a b = negb (bound_le b a).
Proof. unfold bound_lt. rewrite bound_ge_le. reflexivity. Qed.

Lemma bound_le_refl (a : bound N) : bound_le a a = true.
Proof.
  unfold bound_le. rewrite xorb_nilpotent. apply n_leb_refl.
Qed.

Lemma bound_le_total (a b : bound N) :
  wf_bound a -> wf_bound b -> bound_le a b || bound_le b a = true.
Proof.
  intros Ha Hb. bound_cases a Ha; bound_cases b Hb;
    unfold bound_le; lit_simpl; auto using n_leb_total.
Qed.

Lemma bound_le_trans (a b c : bound N) :
  wf_bound a -> wf_bound b -> wf_bound c ->
  bound_le a b = true -> bound_le b c = true -> bound_le a c = true.
Proof.
  intros Ha Hb Hc. bound_cases a Ha; bound_cases b Hb; bound_cases c Hc;
    unfold bound_le; lit_simpl; auto; try discriminate.
  apply n_leb_trans.
Qed.

Lemma bound_le_antisym (a b : bound N) :
  wf_bound a -> wf_bound b ->
  bound_le a b = true -> bound_le b a = true -> bound_eq a b = true.
Proof.
  intros Ha Hb. bound_cases a Ha; bound_cases b Hb;
    unfold bound_le, bound_eq; lit_simpl; auto; try discriminate.
  intros H1 H2. rewrite n_eqb_spec, H1, H2. reflexivity.
Qed.

Lemma bound_gt_flip (a b : bound N) :
  wf_bound a -> wf_bound b -> bound_gt a b = true -> bound_le b a = true.
Proof.
  intros Ha Hb Hgt. unfold bound_gt in Hgt.
  pose proof (bound_le_total a b Ha Hb) as Ht.
  destruct (bound_le a b); [discriminate | exact Ht].
Qed.

Lemma bound_le_spec (a b : bound N) :
  wf_bound a -> wf_bound b -> bound_le a b = spec_le (view a) (view b).
Proof.
  intros Ha Hb. bound_cases a Ha; bound_cases b Hb;
    unfold bound_le, view, number, is_plus_infinity; lit_simpl; reflexivity.
Qed.

End BoundOrder.

(** ** class interval *)

Section Interval.
Context {N : Type} `{Number N}.

Record interval := Interval { _lb : bound N; _ub : bound N }.

(* private: interval(): _lb(0), _ub(-1) *)
Definition bottom : interval := Interval (bound_of_int 0) (bound_of_int (-1)).

(* interval(bound_t lb, bound_t ub) *)
Definition interval_ctor (lb ub : bound N) : interval :=
  if bound_gt lb ub then Interval (bound_of_int 0) (bound_of_int (-1))
  else Interval lb ub.

(* interval(bound_t b) *)
Definition interval_of_bound (b : bound N) : interval :=
  if is_infinite b then Interval (bound_of_int 0) (bound_of_int (-1))
  else Interval b b.

(* interval(Number n) *)
Definition interval_of (n : N) : interval :=
  Interval (bound_of n) (bound_of n).

Definition top : interval := interval_ctor minus_infinity plus_infinity.

Definition is_bottom (i : interval) : bool := bound_gt (_lb i) (_ub i).

Definition is_top (i : interval) : bool :=
  is_infinite (_lb i) && is_infinite (_ub i).

Definition lower_half_line (i : interval) : interval :=
  interval_ctor minus_infinity (_ub i).

Definition upper_half_line (i : interval) : interval :=
  interval_ctor (_lb i) plus_infinity.

(* operator== *)
Definition interval_eq (i x : interval) : bool :=
  if is_bottom i then is_bottom x
  else bound_eq (_lb i) (_lb x) && bound_eq (_ub i) (_ub x).

(* operator<= : inclusion *)
Definition interval_le (i x : interval) : bool :=
  if is_bottom i then true
  else if is_bottom x then false
  else bound_le (_lb x) (_lb i) && bound_le (_ub i) (_ub x).

(* operator| : join *)
Definition join (i x : interval) : interval :=
  if is_bottom i then x
  else if is_bottom x then i
  else interval_ctor (bound_min (_lb i) (_lb x)) (bound_max (_ub i) (_ub x)).

(* operator& : meet *)
Definition meet (i x : interval) : interval :=
  if is_bottom i || is_bottom x then bottom
  else interval_ctor (bound_max (_lb i) (_lb x)) (bound_min (_ub i) (_ub x)).

(* operator|| : widening *)
Definition widening (i x : interval) : interval :=
  if is_bottom i then x
  else if is_bottom x then i
  else interval_ctor
         (if bound_lt (_lb x) (_lb i) then minus_infinity else _lb i)
         (if bound_lt (_ub i) (_ub x) then plus_infinity else _ub i).

(* operator&& : narrowing *)
Definition narrowing (i x : interval) : interval :=
  if is_bottom i || is_bottom x then bottom
  else interval_ctor
         (if is_infinite (_lb i) && is_finite (_lb x) then _lb x else _lb i)
         (if is_infinite (_ub i) && is_finite (_ub x) then _ub x else _ub i).

(* operator+ *)
Definition interval_add (i x : interval) : result interval :=
  if is_bottom i || is_bottom x then Ok bottom
  else
    l ← bound_add (_lb i) (_lb x);
    u ← bound_add (_ub i) (_ub x);
    Ok (interval_ctor l u).

(* operator-() *)
Definition interval_neg (i : interval) : interval :=
  if is_bottom i then bottom
  else interval_ctor (bound_neg (_ub i)) (bound_neg (_lb i)).

(* operator-(interval_t) *)
Definition interval_sub (i x : interval) : result interval :=
  if is_bottom i || is_bottom x then Ok bottom
  else
    l ← bound_sub (_lb i) (_ub x);
    u ← bound_sub (_ub i) (_lb x);
    Ok (interval_ctor l u).

(* operator* *)
Definition interval_mul (i x : interval) : interval :=
  if is_bottom i || is_bottom x then bottom
  else
    let ll := bound_mul (_lb i) (_lb x) in
    let lu := bound_mul (_lb i) (_ub x) in
    let ul := bound_mul (_ub i) (_lb x) in
    let uu := bound_mul (_ub i) (_ub x) in
    interval_ctor (bound_min4 ll lu ul uu) (bound_max4 ll lu ul uu).

Definition singleton (i : interval) : option N :=
  if negb (is_bottom i) && bound_eq (_lb i) (_ub i) then number (_lb i)
  else None.

(* operator[] : membership of a number *)
Definition contains (i : interval) (n : N) : bool :=
  if is_bottom i then false
  else
    let b := bound_of n in
    bound_le (_lb i) b && bound_le b (_ub i).

(** Division, remainder, bitwise and shift operations of the class
    template: the definitions every number type gets unless it has a
    specialization. *)
Definition UDiv (i x : interval) : interval :=
  if is_bottom i || is_bottom x then bottom else top.

Definition SRem (i x : interval) : interval :=
  if is_bottom i || is_bottom x then bottom else top.

Definition URem (i x : interval) : interval :=
  if is_bottom i || is_bottom x then bottom else top.

Definition And (i x : interval) : interval :=
  if is_bottom i || is_bottom x then bottom else top.

Definition Or (i x : interval) : interval :=
  if is_bottom i || is_bottom x then bottom else top.

Definition Xor (i x : interval) : interval := Or i x.

Definition Shl (i x : interval) : interval :=
  if is_bottom i || is_bottom x then bottom else top.

Definition LShr (i x : interval) : interval :=
  if is_bottom i || is_bottom x then bottom else top.

Definition AShr (i x : interval) : interval :=
  if is_bottom i || is_bottom x then bottom else top.

(** Both bounds of an interval are well-formed bounds. *)
Definition wf_interval (i : interval) : Prop :=
  wf_bound (_lb i) /\ wf_bound (_ub i).

End Interval.
Arguments interval N : clear implicits.

(** ** interval<z_number>::operator/ *)

Abbreviation z_bound := (bound Z).
Abbreviation z_interval := (interval Z).

(** The branch taken when the divisor is the singleton [c]; [None] when
    [c = 0], where the code falls through to the general case. *)
Definition z_div_singleton (i : z_interval) (c : Z) : option (result z_interval) :=
  if c =? 1 then Some (Ok i)
  else if c >? 0 then
    Some (l ← bound_div (_lb i) (bound_of c);
          u ← bound_div (_ub i) (bound_of c);
          Ok (interval_ctor l u))
  else if c <? 0 then
    Some (l ← bound_div (_ub i) (bound_of c);
          u ← bound_div (_lb i) (bound_of c);
          Ok (interval_ctor l u))
  else None.

(** Neither the dividend nor the divisor contains 0. *)
Definition z_div_nonzero (i x : z_interval) : result z_interval :=
  a ← (if bound_lt (_ub i) (bound_of_int 0) then
         t ← (if bound_lt (_ub x) (bound_of_int 0)
              then interval_add x (interval_of 1)
              else interval_sub (interval_of 1) x);
         interval_add i t
       else Ok i);
  ll ← bound_div (_lb a) (_lb x);
  lu ← bound_div (_lb a) (_ub x);
  ul ← bound_div (_ub a) (_lb x);
  uu ← bound_div (_ub a) (_ub x);
  Ok (interval_ctor (bound_min4 ll lu ul uu) (bound_max4 ll lu ul uu)).

(** The function calls itself on the halves of a split operand; [fuel]
    bounds the depth of these calls. *)
Fixpoint z_div_fuel (fuel : nat) (i x : z_interval) : result z_interval :=
  match fuel with
  | O => Crab_error Out_of_fuel
  | S fuel =>
      if is_bottom i || is_bottom x then Ok bottom
      else
        match from_option (z_div_singleton i) None (singleton x) with
        | Some r => r
        | None =>
            if contains x 0 then
              let l := interval_ctor (_lb x) (bound_of (-1)) in
              let u := interval_ctor (bound_of 1) (_ub x) in
              r1 ← z_div_fuel fuel i l;
              r2 ← z_div_fuel fuel i u;
              Ok (join r1 r2)
            else if contains i 0 then
              let l := interval_ctor (_lb i) (bound_of (-1)) in
              let u := interval_ctor (bound_of 1) (_ub i) in
              r1 ← z_div_fuel fuel l x;
              r2 ← z_div_fuel fuel u x;
              Ok (join (join r1 r2) (interval_of 0))
            else z_div_nonzero i x
        end
  end.

(** A split operand no longer contains 0, so the calls nest at most three
    deep (divisor split, dividend split, base case). *)
Definition z_div (i x : z_interval) : result z_interval := z_div_fuel 3 i x.

(** ** Facts about intervals *)

Section IntervalFacts.
Context {N : Type} `{Number N}.

Lemma minus_infinity_le (x : bound N) :
  wf_bound x -> bound_le minus_infinity x = true.
Proof.
  intros Hx. bound_cases x Hx; unfold bound_le; lit_simpl; reflexivity.
Qed.

Lemma plus_infinity_ge (x : bound N) :
  wf_bound x -> bound_le x plus_infinity = true.
Proof.
  intros Hx. bound_cases x Hx; unfold bound_le; lit_simpl; reflexivity.
Qed.

Lemma bound_lt_false_le (x y : bound N) :
  bound_lt x y = false -> bound_le y x = true.
Proof. rewrite bound_lt_le. apply negb_false_iff. Qed.

Lemma bound_gt_false_le (x y : bound N) :
  bound_gt x y = false -> bound_le x y = true.
Proof. unfold bound_gt. apply negb_false_iff. Qed.

Lemma bound_le_gt_false (x y : bound N) :
  bound_le x y = true -> bound_gt x y = false.
Proof. unfold bound_gt. intros ->. reflexivity. Qed.

Lemma bound_min_cases (x y : bound N) :
  bound_min x y = x \/ bound_min x y = y.
Proof. unfold bound_min. destruct (bound_le x y); auto. Qed.

Lemma bound_max_cases (x y : bound N) :
  bound_max x y = x \/ bound_max x y = y.
Proof. unfold bound_max. destruct (bound_le x y); auto. Qed.

Lemma wf_bound_min (x y : bound N) :
  wf_bound x -> wf_bound y -> wf_bound (bound_min x y).
Proof. destruct (bound_min_cases x y) as [-> | ->]; auto. Qed.

Lemma wf_bound_max (x y : bound N) :
  wf_bound x -> wf_bound y -> wf_bound (bound_max x y).
Proof. destruct (bound_max_cases x y) as [-> | ->]; auto. Qed.

Lemma bound_min_le_l (x y : bound N) :
  wf_bound x -> wf_bound y -> bound_le (bound_min x y) x = true.
Proof.
  intros Hx Hy. unfold bound_min. destruct (bound_le x y) eqn:Hle.
  - apply bound_le_refl.
  - pose proof (bound_le_total x y Hx Hy) as Ht. rewrite Hle in Ht. exact Ht.
Qed.

Lemma bound_min_le_r (x y : bound N) :
  bound_le (bound_min x y) y = true.
Proof.
  unfold bound_min. destruct (bound_le x y) eqn:Hle; auto using bound_le_refl.
Qed.

Lemma bound_max_ge_l (x y : bound N) :
  bound_le x (bound_max x y) = true.
Proof.
  unfold bound_max. destruct (bound_le x y) eqn:Hle; auto using bound_le_refl.
Qed.

Lemma bound_max_ge_r (x y : bound N) :
  wf_bound x -> wf_bound y -> bound_le y (bound_max x y) = true.
Proof.
  intros Hx Hy. unfold bound_max. destruct (bound_le x y) eqn:Hle.
  - apply bound_le_refl.
  - pose proof (bound_le_total x y Hx Hy) as Ht. rewrite Hle in Ht. exact Ht.
Qed.

(** The arithmetic of bounds returns well-formed bounds. *)
Lemma wf_bound_add (a b r : bound N) :
  wf_bound a -> wf_bound b -> bound_add a b = Ok r -> wf_bound r.
Proof.
  intros Ha Hb. unfold bound_add.
  repeat match goal with |- context [if ?c then _ else _] => destruct c end;
    intros [= <-]; auto with wf.
Qed.

Lemma wf_bound_mul (a b : bound N) :
  wf_bound a -> wf_bound b -> wf_bound (bound_mul a b).
Proof.
  intros Ha Hb. unfold bound_mul.
  repeat match goal with |- context [if ?c then _ else _] => destruct c end;
    auto with wf.
Qed.

Lemma wf_bound_div (a b r : bound N) :
  wf_bound a -> wf_bound b -> bound_div a b = Ok r -> wf_bound r.
Proof.
  intros Ha Hb. unfold bound_div.
  repeat match goal with |- context [if ?c then _ else _] => destruct c end;
    intros [= <-]; auto with wf.
  destruct (n_gtb _ _); auto with wf.
Qed.

Lemma is_bottom_bottom : is_bottom (@bottom N _) = true.
Proof.
  unfold is_bottom, bottom, bound_gt, bound_le. cbn [_lb _ub]. lit_simpl.
  reflexivity.
Qed.

Lemma is_bottom_ctor (l u : bound N) :
  is_bottom (interval_ctor l u) = bound_gt l u.
Proof.
  unfold interval_ctor. destruct (bound_gt l u) eqn:Hgt.
  - apply is_bottom_bottom.
  - exact Hgt.
Qed.

Lemma interval_ctor_le (l u : bound N) :
  bound_le l u = true -> interval_ctor l u = Interval l u.
Proof.
  intros Hle. unfold interval_ctor. rewrite (bound_le_gt_false _ _ Hle).
  reflexivity.
Qed.

Lemma interval_ctor_gt (l u : bound N) :
  bound_gt l u = true -> interval_ctor l u = bottom.
Proof. intros Hgt. unfold interval_ctor. rewrite Hgt. reflexivity. Qed.

Lemma top_eq : @top N _ = Interval minus_infinity plus_infinity.
Proof.
  unfold top. apply interval_ctor_le, minus_infinity_le, wf_plus_infinity.
Qed.

Lemma is_bottom_top : is_bottom (@top N _) = false.
Proof.
  rewrite top_eq. unfold is_bottom. cbn [_lb _ub].
  apply bound_le_gt_false, minus_infinity_le, wf_plus_infinity.
Qed.

Lemma is_top_top : is_top (@top N _) = true.
Proof.
  rewrite top_eq, plus_infinity_eq, minus_infinity_eq. reflexivity.
Qed.

Lemma wf_bottom : wf_interval (@bottom N _).
Proof. split; apply wf_bound_of. Qed.

Lemma wf_interval_ctor (l u : bound N) :
  wf_bound l -> wf_bound u -> wf_interval (interval_ctor l u).
Proof.
  intros Hl Hu. unfold interval_ctor.
  destruct (bound_gt l u); [apply wf_bottom | split; assumption].
Qed.

Lemma wf_top : wf_interval (@top N _).
Proof. apply wf_interval_ctor; auto with wf. Qed.

Lemma interval_le_bottom (x : interval N) :
  is_bottom x = true -> forall y, interval_le x y = true.
Proof. intros Hb y. unfold interval_le. rewrite Hb. reflexivity. Qed.

(** Inclusion of a non-bottom pair in a pair of bounds that bracket it. *)
Lemma interval_le_ctor (a : interval N) (l u : bound N) :
  wf_interval a -> wf_bound l -> wf_bound u ->
  is_bottom a = false ->
  bound_le l (_lb a) = true -> bound_le (_ub a) u = true ->
  interval_ctor l u = Interval l u /\
  interval_le a (interval_ctor l u) = true.
Proof.
  intros [Hla Hua] Hl Hu Hna Hlo Hup.
  assert (Hlu : bound_le l u = true).
  { apply (bound_le_trans l (_lb a) u); auto.
    apply (bound_le_trans (_lb a) (_ub a) u); auto.
    apply bound_gt_false_le. exact Hna. }
  rewrite (interval_ctor_le _ _ Hlu). split; [reflexivity|].
  unfold interval_le. rewrite Hna. unfold is_bottom. cbn [_lb _ub].
  rewrite (bound_le_gt_false _ _ Hlu), Hlo, Hup. reflexivity.
Qed.

End IntervalFacts.

#[export] Hint Resolve wf_bound_min wf_bound_max wf_bottom wf_top
  wf_interval_ctor : wf.

(** The interval of two integer bounds. *)
Definition iv (l u : Z) : z_interval := interval_ctor (bound_of l) (bound_of u).

(** ** Facts about the integer division *)

Lemma z_div_fuel_S (n : nat) (i x : z_interval) :
  z_div_fuel (S n) i x =
  if is_bottom i || is_bottom x then Ok bottom
  else
    match from_option (z_div_singleton i) None (singleton x) with
    | Some r => r
    | None =>
        if contains x 0 then
          r1 ← z_div_fuel n i (interval_ctor (_lb x) (bound_of (-1)));
          r2 ← z_div_fuel n i (interval_ctor (bound_of 1) (_ub x));
          Ok (join r1 r2)
        else if contains i 0 then
          r1 ← z_div_fuel n (interval_ctor (_lb i) (bound_of (-1))) x;
          r2 ← z_div_fuel n (interval_ctor (bound_of 1) (_ub i)) x;
          Ok (join (join r1 r2) (interval_of 0))
        else z_div_nonzero i x
    end.
Proof. reflexivity. Qed.

(** The two halves of an operand split at 0 do not contain 0. *)
Lemma contains_negative_part (l : z_bound) :
  contains (interval_ctor l (bound_of (-1))) 0 = false.
Proof.
  unfold contains. rewrite is_bottom_ctor. unfold interval_ctor.
  destruct (bound_gt l (bound_of (-1))); [reflexivity|].
  cbn [_lb _ub]. rewrite andb_comm. reflexivity.
Qed.

Lemma contains_positive_part (u : z_bound) :
  contains (interval_ctor (bound_of 1) u) 0 = false.
Proof.
  unfold contains. rewrite is_bottom_ctor. unfold interval_ctor.
  destruct (bound_gt (bound_of 1) u); reflexivity.
Qed.

Lemma z_div_fuel_base (n : nat) (i x : z_interval) :
  contains x 0 = false -> contains i 0 = false ->
  z_div_fuel (S n) i x = z_div_fuel 1 i x.
Proof. intros Hx Hi. rewrite !z_div_fuel_S, Hx, Hi. reflexivity. Qed.

Lemma z_div_fuel_divisor_nonzero (n : nat) (i x : z_interval) :
  contains x 0 = false ->
  z_div_fuel (S (S n)) i x = z_div_fuel 2 i x.
Proof.
  intros Hx. rewrite (z_div_fuel_S (S n)), (z_div_fuel_S 1), Hx.
  rewrite !(z_div_fuel_base n)
    by auto using contains_negative_part, contains_positive_part.
  reflexivity.
Qed.

(** Three levels of calls are enough, whatever the operands. *)
Lemma z_div_fuel_enough (n : nat) (i x : z_interval) :
  z_div_fuel (S (S (S n))) i x = z_div i x.
Proof.
  unfold z_div. rewrite (z_div_fuel_S (S (S n))), (z_div_fuel_S 2).
  destruct (contains x 0) eqn:Hx.
  - rewrite !(z_div_fuel_divisor_nonzero n)
      by auto using contains_negative_part, contains_positive_part.
    reflexivity.
  - rewrite !(z_div_fuel_divisor_nonzero n) by exact Hx. reflexivity.
Qed.

(** Errors of the operations are those of the bounds. *)
Definition finishes {A} (r : result A) : Prop := r <> Crab_error Out_of_fuel.

Lemma finishes_bind {A B} (r : result A) (k : A -> result B) :
  finishes r -> (forall a, finishes (k a)) -> finishes (r ≫= k).
Proof.
  destruct r as [a | e]; intros Hr Hk; [apply Hk |].
  simpl. intros [= ->]. apply Hr. reflexivity.
Qed.

Lemma finishes_ok {A} (a : A) : finishes (Ok a).
Proof. discriminate. Qed.

Lemma finishes_bound_add {N} `{Number N} (a b : bound N) :
  finishes (bound_add a b).
Proof.
  unfold bound_add.
  repeat match goal with |- context [if ?c then _ else _] => destruct c end;
    discriminate.
Qed.

Lemma finishes_bound_div {N} `{Number N} (a b : bound N) :
  finishes (bound_div a b).
Proof.
  unfold bound_div.
  repeat match goal with |- context [if ?c then _ else _] => destruct c end;
    discriminate.
Qed.

Lemma finishes_interval_add {N} `{Number N} (a b : interval N) :
  finishes (interval_add a b).
Proof.
  unfold interval_add. destruct (is_bottom a || is_bottom b).
  - apply finishes_ok.
  - repeat (apply finishes_bind; [apply finishes_bound_add | intros ?]).
    apply finishes_ok.
Qed.

Lemma finishes_interval_sub {N} `{Number N} (a b : interval N) :
  finishes (interval_sub a b).
Proof.
  unfold interval_sub, bound_sub. destruct (is_bottom a || is_bottom b).
  - apply finishes_ok.
  - repeat (apply finishes_bind; [apply finishes_bound_add | intros ?]).
    apply finishes_ok.
Qed.

Lemma finishes_z_div_nonzero (i x : z_interval) :
  finishes (z_div_nonzero i x).
Proof.
  unfold z_div_nonzero. apply finishes_bind.
  - destruct (bound_lt (_ub i) (bound_of_int 0)); [|apply finishes_ok].
    apply finishes_bind; [|intros ?; apply finishes_interval_add].
    destruct (bound_lt (_ub x) (bound_of_int 0));
      [apply finishes_interval_add | apply finishes_interval_sub].
  - intros a.
    repeat (apply finishes_bind; [apply finishes_bound_div | intros ?]).
    apply finishes_ok.
Qed.

Lemma finishes_z_div_singleton (i : z_interval) (c : Z) (r : result z_interval) :
  z_div_singleton i c = Some r -> finishes r.
Proof.
  unfold z_div_singleton.
  destruct (c =? 1); [intros [= <-]; apply finishes_ok|].
  destruct (c >? 0);
    [intros [= <-];
     repeat (apply finishes_bind; [apply finishes_bound_div | intros ?]);
     apply finishes_ok|].
  destruct (c <? 0); [|discriminate].
  intros [= <-].
  repeat (apply finishes_bind; [apply finishes_bound_div | intros ?]).
  apply finishes_ok.
Qed.

Lemma finishes_z_div_fuel (n : nat) (i x : z_interval) :
  (contains x 0 = false -> contains i 0 = false ->
   finishes (z_div_fuel (1 + n) i x)) /\
  (contains x 0 = false -> finishes (z_div_fuel (2 + n) i x)) /\
  finishes (z_div_fuel (3 + n) i x).
Proof.
  assert (Hstep : forall m i x,
    (contains x 0 = true ->
     forall l u, finishes (z_div_fuel m i (interval_ctor l (bound_of (-1)))) /\
                 finishes (z_div_fuel m i (interval_ctor (bound_of 1) u))) ->
    (contains x 0 = false -> contains i 0 = true ->
     forall l u, finishes (z_div_fuel m (interval_ctor l (bound_of (-1))) x) /\
                 finishes (z_div_fuel m (interval_ctor (bound_of 1) u) x)) ->
    finishes (z_div_fuel (S m) i x)).
  { intros m i' x' Hd Hn. rewrite z_div_fuel_S.
    destruct (is_bottom i' || is_bottom x'); [apply finishes_ok|].
    destruct (singleton x') as [c|]; cbn [from_option].
    - destruct (z_div_singleton i' c) as [r|] eqn:Hs.
      + eapply finishes_z_div_singleton; eassumption.
      + destruct (contains x' 0) eqn:Hx.
        * destruct (Hd eq_refl (_lb x') (_ub x')).
          repeat (apply finishes_bind; [assumption | intros ?]).
          apply finishes_ok.
        * destruct (contains i' 0) eqn:Hi.
          -- destruct (Hn eq_refl eq_refl (_lb i') (_ub i')).
             repeat (apply finishes_bind; [assumption | intros ?]).
             apply finishes_ok.
          -- apply finishes_z_div_nonzero.
    - destruct (contains x' 0) eqn:Hx.
      + destruct (Hd eq_refl (_lb x') (_ub x')).
        repeat (apply finishes_bind; [assumption | intros ?]).
        apply finishes_ok.
      + destruct (contains i' 0) eqn:Hi.
        * destruct (Hn eq_refl eq_refl (_lb i') (_ub i')).
          repeat (apply finishes_bind; [assumption | intros ?]).
          apply finishes_ok.
        * apply finishes_z_div_nonzero. }
  assert (H1 : forall i x, contains x 0 = false -> contains i 0 = false ->
                           finishes (z_div_fuel (1 + n) i x)).
  { intros i' x' Hx Hi. apply Hstep; intros; congruence. }
  assert (H2 : forall i x, contains x 0 = false ->
                           finishes (z_div_fuel (2 + n) i x)).
  { intros i' x' Hx. apply Hstep; [intros; congruence|].
    intros _ _ l u.
    split; apply H1;
      auto using contains_negative_part, contains_positive_part. }
  split; [apply H1|]. split; [apply H2|].
  apply Hstep.
  - intros _ l u.
    split; apply H2;
      auto using contains_negative_part, contains_positive_part.
  - intros Hx _ l u. split; apply H2; exact Hx.
Qed.

(** The division always runs to completion. *)
Lemma z_div_finishes (i x : z_interval) : finishes (z_div i x).
Proof. apply (finishes_z_div_fuel 0 i x). Qed.

Lemma z_bound_div_nonzero (b : z_bound) (c : Z) :
  c <> 0 -> exists r, bound_div b (bound_of c) = Ok r.
Proof.
  intros Hc. unfold bound_div. cbn [_n bound_of n_eqb z_number of_int].
  destruct (Z.eqb_spec c 0) as [|_]; [contradiction|].
  repeat match goal with |- context [if ?c then _ else _] => destruct c end;
    eexists; reflexivity.
Qed.

Lemma z_bound_div_finite (m c : Z) :
  c <> 0 -> bound_div (bound_of m) (bound_of c) = Ok (bound_of (Z.quot m c)).
Proof.
  intros Hc. unfold bound_div. cbn [_n bound_of n_eqb z_number of_int].
  destruct (Z.eqb_spec c 0) as [|_]; [contradiction|]. reflexivity.
Qed.

Lemma z_bound_div_one (b : z_bound) : bound_div b (bound_of 1) = Ok b.
Proof.
  destruct b as [[|] n]; unfold bound_div; cbn; [reflexivity|].
  rewrite Z.quot_1_r. reflexivity.
Qed.

(** ** class separate_domain<Key, Value> *)

(** What the template asks of its [Value] parameter. *)
Class AbstractValue (V : Type) := {
  v_top : V;
  v_bottom : V;
  v_is_top : V -> bool;
  v_is_bottom : V -> bool;
  v_join : V -> V -> V;        (* operator|  *)
  v_widening : V -> V -> V;    (* operator|| *)
  v_meet : V -> V -> V;        (* operator&  *)
  v_narrowing : V -> V -> V;   (* operator&& *)
  v_leq : V -> V -> bool;      (* operator<= *)
}.

#[export] Instance interval_value {N} `{Number N} : AbstractValue (interval N) := {|
  v_top := top; v_bottom := bottom;
  v_is_top := is_top; v_is_bottom := is_bottom;
  v_join := join; v_widening := widening;
  v_meet := meet; v_narrowing := narrowing;
  v_leq := interval_le |}.

(** What [binary_op_t::apply] does: it returns an optional value, or leaves
    by throwing [bottom_found]. *)
Inductive applied (V : Type) :=
  | Returns (z : option V)
  | Throws_bottom_found.
Arguments Returns {V} z.
Arguments Throws_bottom_found {V}.

Record binary_op_t (V : Type) := {
  apply : V -> V -> applied V;
  default_is_absorbing : bool;
}.
Arguments apply {V} _ _ _.
Arguments default_is_absorbing {V} _.

Module patricia_tree.
Section PatriciaTree.
Context {K : Type} `{Countable K} {V : Type}.

(** The value a key gets in the merged tree, from its values in the two
    trees. *)
Definition merge_entry (o : binary_op_t V) (x y : option V) : option V :=
  match x, y with
  | Some x, Some y =>
      match apply o x y with
      | Returns z => z
      | Throws_bottom_found => None
      end
  | Some x, None => if default_is_absorbing o then None else Some x
  | None, Some y => if default_is_absorbing o then None else Some y
  | None, None => None
  end.

(** Whether [apply] throws on some key that both trees bind. *)
Definition merge_throws (o : binary_op_t V) (t1 t2 : gmap K V) : bool :=
  existsb (fun kv : K * (V * V) =>
             match apply o kv.2.1 kv.2.2 with
             | Throws_bottom_found => true
             | Returns _ => false
             end)
          (map_to_list (map_zip t1 t2)).

(** Modelled from the spec: [merge_with] of ikos/algorithms/patricia_trees.hpp,
    which is not part of the sources.  The merge is "driven by the
    operator's apply and default_is_absorbing": a key bound in both trees
    gets the result of [apply], and is dropped when [apply] returns no
    value; a key bound in one tree only is dropped when the default is
    absorbing and keeps its value otherwise.  [None] stands for an exception
    of [apply] leaving the merge. *)
Definition merge_with (o : binary_op_t V) (t1 t2 : gmap K V) : option (gmap K V) :=
  if merge_throws o t1 t2 then None
  else Some (merge (merge_entry o) t1 t2).

Lemma lookup_merge_with (o : binary_op_t V) (t1 t2 r : gmap K V) (k : K) :
  merge_with o t1 t2 = Some r ->
  r !! k = merge_entry o (t1 !! k) (t2 !! k).
Proof.
  unfold merge_with. destruct (merge_throws o t1 t2); [discriminate|].
  intros [= <-]. rewrite lookup_merge.
  destruct (t1 !! k), (t2 !! k); reflexivity.
Qed.

Lemma merge_throws_true (o : binary_op_t V) (t1 t2 : gmap K V) :
  merge_throws o t1 t2 = true <->
  exists k x y, t1 !! k = Some x /\ t2 !! k = Some y /\
                apply o x y = Throws_bottom_found.
Proof.
  unfold merge_throws. rewrite existsb_exists. split.
  - intros [[k [x y]] [Hin Hthrow]]. exists k, x, y.
    apply list_elem_of_In, elem_of_map_to_list, map_lookup_zip_Some in Hin.
    destruct Hin as [Hx Hy]. cbn in *.
    destruct (apply o x y); [discriminate | auto].
  - intros (k & x & y & Hx & Hy & Hthrow). exists (k, (x, y)). split.
    + apply list_elem_of_In, elem_of_map_to_list, map_lookup_zip_Some. auto.
    + cbn. rewrite Hthrow. reflexivity.
Qed.

Lemma merge_with_None (o : binary_op_t V) (t1 t2 : gmap K V) k x y :
  t1 !! k = Some x -> t2 !! k = Some y ->
  apply o x y = Throws_bottom_found ->
  merge_with o t1 t2 = None.
Proof.
  intros Hx Hy Hthrow. unfold merge_with.
  replace (merge_throws o t1 t2) with true; [reflexivity|].
  symmetry. apply merge_throws_true. eauto 6.
Qed.

Lemma merge_with_Some (o : binary_op_t V) (t1 t2 : gmap K V) :
  (forall x y, apply o x y <> Throws_bottom_found) ->
  is_Some (merge_with o t1 t2).
Proof.
  intros Hno. unfold merge_with.
  destruct (merge_throws o t1 t2) eqn:Hthrow; [|eauto].
  apply merge_throws_true in Hthrow as (k & x & y & _ & _ & Hthrow).
  destruct (Hno x y Hthrow).
Qed.

(** A property of the values that [apply] preserves holds of every value
    of the merged tree. *)
Lemma merge_with_Forall (P : V -> Prop) (o : binary_op_t V) (t1 t2 r : gmap K V) :
  (forall x y z, P x -> P y -> apply o x y = Returns (Some z) -> P z) ->
  map_Forall (fun _ => P) t1 -> map_Forall (fun _ => P) t2 ->
  merge_with o t1 t2 = Some r ->
  map_Forall (fun _ => P) r.
Proof.
  intros Hop H1 H2 Hr k z Hz.
  rewrite (lookup_merge_with o t1 t2 r k Hr) in Hz.
  destruct (t1 !! k) as [x|] eqn:Hx, (t2 !! k) as [y|] eqn:Hy; cbn in Hz.
  - destruct (apply o x y) as [z'|] eqn:Ha; [|discriminate].
    subst z'. exact (Hop x y z (H1 k x Hx) (H2 k y Hy) Ha).
  - destruct (default_is_absorbing o); [discriminate|].
    injection Hz as <-. exact (H1 k x Hx).
  - destruct (default_is_absorbing o); [discriminate|].
    injection Hz as <-. exact (H2 k y Hy).
  - discriminate.
Qed.

End PatriciaTree.
End patricia_tree.

Module separate_domain.
Section SeparateDomain.
Context {K : Type} `{Countable K} {V : Type} `{AbstractValue V}.

Record t := Make { _is_bottom : bool; _tree : gmap K V }.

Definition join_op : binary_op_t V := {|
  apply x y :=
    let z := v_join x y in
    if v_is_top z then Returns None else Returns (Some z);
  default_is_absorbing := true |}.

Definition widening_op : binary_op_t V := {|
  apply x y :=
    let z := v_widening x y in
    if v_is_top z then Returns None else Returns (Some z);
  default_is_absorbing := true |}.

Definition meet_op : binary_op_t V := {|
  apply x y :=
    let z := v_meet x y in
    if v_is_bottom z then Throws_bottom_found else Returns (Some z);
  default_is_absorbing := false |}.

Definition narrowing_op : binary_op_t V := {|
  apply x y :=
    let z := v_narrowing x y in
    if v_is_bottom z then Throws_bottom_found else Returns (Some z);
  default_is_absorbing := false |}.

(* separate_domain() *)
Definition top : t := Make false ∅.

(* separate_domain(bool b): _is_bottom(!b), called with false *)
Definition bottom : t := Make true ∅.

Definition apply_operation (o : binary_op_t V) (t1 t2 : gmap K V) : option (gmap K V) :=
  patricia_tree.merge_with o t1 t2.

Definition is_bottom (s : t) : bool := _is_bottom s.

Definition is_top (s : t) : bool :=
  negb (is_bottom s) && (size (_tree s) =? 0)%nat.

(** Join and widening do not catch [bottom_found]: [None] is the
    exception leaving the operator. *)
(* operator| *)
Definition join (s e : t) : option t :=
  if is_bottom s then Some e
  else if is_bottom e then Some s
  else Make false <$> apply_operation join_op (_tree s) (_tree e).

(* operator|| *)
Definition widening (s e : t) : option t :=
  if is_bottom s then Some e
  else if is_bottom e then Some s
  else Make false <$> apply_operation widening_op (_tree s) (_tree e).

(* operator& *)
Definition meet (s e : t) : t :=
  if is_bottom s || is_bottom e then bottom
  else
    match apply_operation meet_op (_tree s) (_tree e) with
    | Some r => Make false r
    | None => bottom     (* catch (bottom_found&) *)
    end.

(* operator&& *)
Definition narrowing (s e : t) : t :=
  if is_bottom s || is_bottom e then Make true ∅
  else
    match apply_operation narrowing_op (_tree s) (_tree e) with
    | Some r => Make false r
    | None => bottom     (* catch (bottom_found&) *)
    end.

Definition set (k : K) (v : V) (s : t) : t :=
  if negb (is_bottom s) then
    if v_is_bottom v then Make true ∅
    else if v_is_top v then Make (_is_bottom s) (delete k (_tree s))
    else Make (_is_bottom s) (<[k := v]> (_tree s))
  else s.

Definition set_to_bottom (s : t) : t := Make true ∅.

(* operator-= *)
Definition forget (k : K) (s : t) : t :=
  if negb (is_bottom s) then Make (_is_bottom s) (delete k (_tree s))
  else s.

(* operator[] *)
Definition lookup (k : K) (s : t) : V :=
  if is_bottom s then v_bottom
  else
    match _tree s !! k with
    | Some v => v
    | None => v_top
    end.

(** The invariant of the tree form: no key is bound to top or to bottom. *)
Definition tree_invariant (s : t) : Prop :=
  is_bottom s = false ->
  forall k v, _tree s !! k = Some v ->
    v_is_top v = false /\ v_is_bottom v = false.

End SeparateDomain.
Arguments t K {_ _} V.
End separate_domain.

(** ** Intervals as values of the separate domain *)

Section GoodValues.
Context {N : Type} `{Number N}.

(** A value the tree may hold: well-formed bounds, neither top nor
    bottom. *)
Definition stored_value (v : interval N) : Prop :=
  wf_interval v /\ is_top v = false /\ is_bottom v = false.

Lemma interval_le_not_bottom (x y : interval N) :
  is_bottom x = false -> interval_le x y = true -> is_bottom y = false.
Proof.
  unfold interval_le. intros ->. destruct (is_bottom y); [discriminate|auto].
Qed.

Lemma wf_join (x y : interval N) :
  wf_interval x -> wf_interval y -> wf_interval (join x y).
Proof.
  intros Hx Hy. unfold join.
  destruct (is_bottom x); [assumption|].
  destruct (is_bottom y); [assumption|].
  destruct Hx, Hy. auto with wf.
Qed.

Lemma wf_meet (x y : interval N) :
  wf_interval x -> wf_interval y -> wf_interval (meet x y).
Proof.
  intros [] []. unfold meet.
  destruct (is_bottom x || is_bottom y); auto with wf.
Qed.

Lemma wf_widening (x y : interval N) :
  wf_interval x -> wf_interval y -> wf_interval (widening x y).
Proof.
  intros Hx Hy. unfold widening.
  destruct (is_bottom x); [assumption|].
  destruct (is_bottom y); [assumption|].
  destruct Hx, Hy. apply wf_interval_ctor.
  - destruct (bound_lt (_lb y) (_lb x)); auto with wf.
  - destruct (bound_lt (_ub x) (_ub y)); auto with wf.
Qed.

Lemma wf_narrowing (x y : interval N) :
  wf_interval x -> wf_interval y -> wf_interval (narrowing x y).
Proof.
  intros [] []. unfold narrowing.
  destruct (is_bottom x || is_bottom y); [auto with wf|].
  apply wf_interval_ctor.
  - destruct (is_infinite (_lb x) && is_finite (_lb y)); assumption.
  - destruct (is_infinite (_ub x) && is_finite (_ub y)); assumption.
Qed.

Lemma join_not_bottom (x y : interval N) :
  wf_interval x -> wf_interval y ->
  is_bottom x = false -> is_bottom y = false ->
  is_bottom (join x y) = false.
Proof.
  intros Hx Hy Hbx Hby. unfold join. rewrite Hbx, Hby.
  destruct Hx as [Hlx Hux], Hy as [Hly Huy].
  apply (interval_le_not_bottom x); [exact Hbx|].
  apply interval_le_ctor; auto using bound_min_le_l, bound_max_ge_l with wf.
  split; assumption.
Qed.

Lemma infinite_not_plus (x : bound N) :
  wf_bound x -> is_infinite x = true -> is_plus_infinity x = false ->
  x = minus_infinity.
Proof.
  intros Hx. bound_cases x Hx; unfold is_plus_infinity; lit_simpl;
    intros; try discriminate; reflexivity.
Qed.

Lemma infinite_not_minus (x : bound N) :
  wf_bound x -> is_infinite x = true -> is_minus_infinity x = false ->
  x = plus_infinity.
Proof.
  intros Hx. bound_cases x Hx; unfold is_minus_infinity; lit_simpl;
    intros; try discriminate; reflexivity.
Qed.

(** The widening of two non-bottom intervals is a pair of bounds that
    brackets both. *)
Lemma widening_bounds (a b : interval N) :
  wf_interval a -> wf_interval b ->
  is_bottom a = false -> is_bottom b = false ->
  exists l u,
    widening a b = Interval l u /\
    wf_bound l /\ wf_bound u /\ bound_le l u = true /\
    (bound_le l (_lb a) = true /\ bound_le (_ub a) u = true) /\
    (bound_le l (_lb b) = true /\ bound_le (_ub b) u = true).
Proof.
  intros [Hla Hua] [Hlb Hub] Hba Hbb. unfold widening. rewrite Hba, Hbb.
  assert (Hl : exists l,
    (if bound_lt (_lb b) (_lb a) then minus_infinity else _lb a) = l /\
    wf_bound l /\ bound_le l (_lb a) = true /\ bound_le l (_lb b) = true).
  { eexists. split; [reflexivity|].
    destruct (bound_lt (_lb b) (_lb a)) eqn:Hlt.
    - auto using minus_infinity_le with wf.
    - auto using bound_le_refl, bound_lt_false_le. }
  assert (Hu : exists u,
    (if bound_lt (_ub a) (_ub b) then plus_infinity else _ub a) = u /\
    wf_bound u /\ bound_le (_ub a) u = true /\ bound_le (_ub b) u = true).
  { eexists. split; [reflexivity|].
    destruct (bound_lt (_ub a) (_ub b)) eqn:Hlt.
    - auto using plus_infinity_ge with wf.
    - auto using bound_le_refl, bound_lt_false_le. }
  destruct Hl as (l & -> & Hl & Hl_a & Hl_b).
  destruct Hu as (u & -> & Hu & Hu_a & Hu_b).
  assert (Hlu : bound_le l u = true).
  { apply (bound_le_trans l (_lb a) u); auto.
    apply (bound_le_trans (_lb a) (_ub a) u); auto.
    apply bound_gt_false_le. exact Hba. }
  exists l, u. rewrite (interval_ctor_le _ _ Hlu). auto 10.
Qed.

Lemma widening_not_bottom (x y : interval N) :
  wf_interval x -> wf_interval y ->
  is_bottom x = false -> is_bottom (widening x y) = false.
Proof.
  intros Hx Hy Hbx. destruct (is_bottom y) eqn:Hby.
  - unfold widening. rewrite Hbx, Hby. exact Hbx.
  - destruct (widening_bounds x y Hx Hy Hbx Hby)
      as (l & u & -> & _ & _ & Hlu & _).
    apply bound_le_gt_false. exact Hlu.
Qed.

Ltac interval_cases x Hx :=
  let l := fresh "l" in
  let u := fresh "u" in
  let Hl := fresh "Hl" in
  let Hu := fresh "Hu" in
  destruct x as [l u]; destruct Hx as [Hl Hu]; cbn [_lb _ub] in Hl, Hu;
  bound_cases l Hl; bound_cases u Hu.

Ltac split_ifs :=
  repeat match goal with
         | |- context [if ?c then _ else _] => destruct c eqn:?
         | H : context [if ?c then _ else _] |- _ => destruct c eqn:?
         end.

(** The meet of two stored values is not top, and neither is the narrowing
    of a value that is not top. *)
Lemma meet_not_top (x y : interval N) :
  wf_interval x -> wf_interval y ->
  is_bottom x = false -> is_bottom y = false ->
  is_top x = false -> is_top y = false ->
  is_top (meet x y) = false.
Proof.
  intros Hx Hy. interval_cases x Hx; interval_cases y Hy;
    unfold meet, is_top, is_bottom, interval_ctor, bottom, bound_max,
      bound_min, bound_gt, bound_le;
    cbn [_lb _ub]; lit_simpl; intros; try discriminate;
    split_ifs; cbn [_lb _ub]; lit_simpl; try reflexivity; try discriminate.
Qed.

Lemma narrowing_not_top (x y : interval N) :
  wf_interval x -> wf_interval y ->
  is_top x = false ->
  is_top (narrowing x y) = false.
Proof.
  intros Hx Hy. interval_cases x Hx; interval_cases y Hy;
    unfold narrowing, is_top, is_bottom, interval_ctor, bottom,
      bound_gt, bound_le;
    cbn [_lb _ub]; lit_simpl; intros; try discriminate;
    split_ifs; cbn [_lb _ub]; lit_simpl; try reflexivity; try discriminate.
Qed.

End GoodValues.

(** ** class interval_domain<Number, VariableName> *)

Module interval_domain.
Section IntervalDomain.
Context {N : Type} `{Number N} {K : Type} `{Countable K}.

(** The type of the conversion operations ([int_conv_operation_t] of
    operators_api.hpp, which is not part of the sources). *)
Variable int_conv_operation_t : Type.

(** Modelled from the spec: a linear expression is "iterable as
    (coefficient, variable) pairs plus a constant term", and
    "get_variable() returns the sole variable when the expression is
    exactly 1*v"; a variable converts to the expression 1*v
    (linear_constraints.hpp is not part of the sources). *)
Record linear_expression_t := {
  constant : N;
  terms : list (N * K);
}.

Definition expr_of_variable (v : K) : linear_expression_t :=
  {| constant := of_int 0; terms := [(of_int 1, v)] |}.

Definition get_variable (e : linear_expression_t) : option K :=
  match terms e with
  | [(c, v)] =>
      if n_eqb (constant e) (of_int 0) && n_eqb c (of_int 1) then Some v
      else None
  | _ => None
  end.

(** Modelled from the spec: the linear constraints the export emits, the
    false constraint, [v >= n] and [v <= n]; a constraint system is the
    list of the constraints added to it, in order. *)
Inductive linear_constraint_t :=
  | get_false
  | geq (v : K) (n : N)
  | leq (v : K) (n : N).

Definition linear_constraint_system_t := list linear_constraint_t.

Record t := Make { _env : separate_domain.t K (interval N) }.

Definition top : t := Make separate_domain.top.
Definition bottom : t := Make separate_domain.bottom.

Definition is_bottom (s : t) : bool := separate_domain.is_bottom (_env s).
Definition is_top (s : t) : bool := separate_domain.is_top (_env s).

(* set(variable_t v, interval_t i) *)
Definition set (v : K) (i : interval N) (s : t) : t :=
  Make (separate_domain.set v i (_env s)).

(* operator-=(variable_t v) *)
Definition forget (v : K) (s : t) : t :=
  Make (separate_domain.forget v (_env s)).

(* operator[](variable_t v) *)
Definition lookup (v : K) (s : t) : interval N :=
  separate_domain.lookup v (_env s).

(** The loop of [assign] and of [operator[](linear_expression_t)]:
    [r += c * env[v]] for every term. *)
Definition eval_terms (s : t) (r : interval N) (ts : list (N * K)) : result (interval N) :=
  foldl (fun acc cv =>
           r ← acc;
           interval_add r (interval_mul (interval_of cv.1) (lookup cv.2 s)))
        (Ok r) ts.

Definition assign (x : K) (e : linear_expression_t) (s : t) : result t :=
  match get_variable e with
  | Some v => Ok (set x (lookup v s) s)
  | None =>
      r ← eval_terms s (interval_of (constant e)) (terms e);
      Ok (set x r s)
  end.

(* apply(int_conv_operation_t, variable_t dst, variable_t src) *)
Definition apply_int_conv (op : int_conv_operation_t) (dst src : K) (s : t) : result t :=
  assign dst (expr_of_variable src) s.

(** The constraints one binding of the map contributes. *)
Definition constraints_of (vi : K * interval N) : linear_constraint_system_t :=
  match number (_lb vi.2) with Some l => [geq vi.1 l] | None => [] end ++
  match number (_ub vi.2) with Some u => [leq vi.1 u] | None => [] end.

Definition to_linear_constraint_system (s : t) : linear_constraint_system_t :=
  if is_bottom s then [get_false]
  else flat_map constraints_of (map_to_list (separate_domain._tree (_env s))).

End IntervalDomain.
Arguments t N K {_ _}.
Arguments linear_constraint_t N K : clear implicits.
Arguments linear_expression_t N K : clear implicits.
End interval_domain.

(** ** The invariant of the separate domain over intervals *)

Section WellFormed.
Context {N : Type} `{Number N} {K : Type} `{Countable K}.

Abbreviation env_t := (separate_domain.t K (interval N)).

(** The intervals a state holds have well-formed bounds. *)
Definition values_wf (s : env_t) : Prop :=
  map_Forall (fun _ v => wf_interval v) (separate_domain._tree s).

(** The invariant of the tree form, for intervals of well-formed bounds. *)
Definition well_formed (s : env_t) : Prop :=
  separate_domain.tree_invariant s /\ values_wf s.

Lemma well_formed_stored (s : env_t) :
  well_formed s -> separate_domain.is_bottom s = false ->
  map_Forall (fun _ v => stored_value v) (separate_domain._tree s).
Proof.
  intros [Hinv Hwf] Hb k v Hk. destruct (Hinv Hb k v Hk).
  split; [exact (Hwf k v Hk) | auto].
Qed.

Lemma stored_well_formed (r : gmap K (interval N)) :
  map_Forall (fun _ v => stored_value v) r ->
  well_formed (separate_domain.Make false r).
Proof.
  intros Hr. split.
  - intros _ k v Hk. destruct (Hr k v Hk) as (_ & Ht & Hb). auto.
  - intros k v Hk. destruct (Hr k v Hk) as (Hw & _). exact Hw.
Qed.

Lemma well_formed_bottom : well_formed separate_domain.bottom.
Proof.
  split; [intros Hb; discriminate Hb | apply map_Forall_empty].
Qed.

End WellFormed.

(** * Further properties of the interval lattice *)

Section IntervalOrder.
Context {N : Type} `{Number N}.

Lemma interval_le_refl (a : interval N) : interval_le a a = true.
Proof.
  unfold interval_le. destruct (is_bottom a); [reflexivity|].
  rewrite !bound_le_refl. reflexivity.
Qed.

(** What inclusion of a non-bottom interval says about the bounds. *)
Lemma interval_le_inv (a b : interval N) :
  is_bottom a = false -> interval_le a b = true ->
  is_bottom b = false /\
  bound_le (_lb b) (_lb a) = true /\ bound_le (_ub a) (_ub b) = true.
Proof.
  unfold interval_le. intros ->. destruct (is_bottom b); [discriminate|].
  intros Hle. apply andb_true_iff in Hle. auto.
Qed.

Lemma interval_le_intro (a b : interval N) :
  is_bottom b = false ->
  bound_le (_lb b) (_lb a) = true -> bound_le (_ub a) (_ub b) = true ->
  interval_le a b = true.
Proof.
  intros Hb Hl Hu. unfold interval_le. rewrite Hb, Hl, Hu.
  destruct (is_bottom a); reflexivity.
Qed.

Lemma interval_le_trans (a b c : interval N) :
  wf_interval a -> wf_interval b -> wf_interval c ->
  interval_le a b = true -> interval_le b c = true -> interval_le a c = true.
Proof.
  intros [Hla Hua] [Hlb Hub] [Hlc Huc] Hab Hbc.
  destruct (is_bottom a) eqn:Hba; [apply interval_le_bottom; exact Hba|].
  destruct (interval_le_inv a b Hba Hab) as (Hbb & Hl1 & Hu1).
  destruct (interval_le_inv b c Hbb Hbc) as (Hbc' & Hl2 & Hu2).
  apply interval_le_intro; [exact Hbc'| |].
  - apply (bound_le_trans _ (_lb b)); assumption.
  - apply (bound_le_trans _ (_ub b)); assumption.
Qed.

Lemma interval_le_antisym (a b : interval N) :
  wf_interval a -> wf_interval b ->
  interval_le a b = true -> interval_le b a = true -> interval_eq a b = true.
Proof.
  intros [Hla Hua] [Hlb Hub] Hab Hba. unfold interval_eq.
  destruct (is_bottom a) eqn:Ha.
  - destruct (is_bottom b) eqn:Hb; [reflexivity|].
    destruct (interval_le_inv b a Hb Hba) as (Ha' & _). congruence.
  - destruct (interval_le_inv a b Ha Hab) as (Hb & Hl1 & Hu1).
    destruct (interval_le_inv b a Hb Hba) as (_ & Hl2 & Hu2).
    rewrite (bound_le_antisym (_lb a) (_lb b)),
            (bound_le_antisym (_ub a) (_ub b)); auto.
Qed.

Lemma bound_min_glb (x y z : bound N) :
  bound_le z x = true -> bound_le z y = true ->
  bound_le z (bound_min x y) = true.
Proof. intros Hx Hy. destruct (bound_min_cases x y) as [-> | ->]; auto. Qed.

Lemma bound_max_lub (x y z : bound N) :
  bound_le x z = true -> bound_le y z = true ->
  bound_le (bound_max x y) z = true.
Proof. intros Hx Hy. destruct (bound_max_cases x y) as [-> | ->]; auto. Qed.

Lemma join_upper_l (a b : interval N) :
  wf_interval a -> wf_interval b -> interval_le a (join a b) = true.
Proof.
  intros Ha Hb. unfold join.
  destruct (is_bottom a) eqn:Hba; [apply interval_le_bottom; exact Hba|].
  destruct (is_bottom b) eqn:Hbb; [apply interval_le_refl|].
  destruct Ha as [Hla Hua], Hb as [Hlb Hub].
  apply interval_le_ctor;
    auto using bound_min_le_l, bound_max_ge_l with wf.
  split; assumption.
Qed.

Lemma join_upper_r (a b : interval N) :
  wf_interval a -> wf_interval b -> interval_le b (join a b) = true.
Proof.
  intros Ha Hb. unfold join.
  destruct (is_bottom a) eqn:Hba; [apply interval_le_refl|].
  destruct (is_bottom b) eqn:Hbb; [apply interval_le_bottom; exact Hbb|].
  destruct Ha as [Hla Hua], Hb as [Hlb Hub].
  apply interval_le_ctor;
    auto using bound_min_le_r, bound_max_ge_r with wf.
  split; assumption.
Qed.

Lemma join_least (a b c : interval N) :
  wf_interval a -> wf_interval b -> wf_interval c ->
  interval_le a c = true -> interval_le b c = true ->
  interval_le (join a b) c = true.
Proof.
  intros Ha Hb Hc Hac Hbc. unfold join.
  destruct (is_bottom a) eqn:Hba; [exact Hbc|].
  destruct (is_bottom b) eqn:Hbb; [exact Hac|].
  destruct (interval_le_inv a c Hba Hac) as (Hcb & Hl1 & Hu1).
  destruct (interval_le_inv b c Hbb Hbc) as (_ & Hl2 & Hu2).
  destruct Ha as [Hla Hua], Hb as [Hlb Hub].
  destruct (interval_le_ctor a (bound_min (_lb a) (_lb b))
              (bound_max (_ub a) (_ub b))) as [-> _];
    auto using bound_min_le_l, bound_max_ge_l with wf.
  { split; assumption. }
  apply interval_le_intro; cbn [_lb _ub];
    auto using bound_min_glb, bound_max_lub.
Qed.

Lemma meet_lower_l (a b : interval N) :
  wf_interval a -> wf_interval b -> interval_le (meet a b) a = true.
Proof.
  intros [Hla Hua] [Hlb Hub]. unfold meet.
  destruct (is_bottom a || is_bottom b) eqn:Hbot;
    [apply interval_le_bottom, is_bottom_bottom|].
  apply orb_false_iff in Hbot as [Hba Hbb].
  destruct (bound_gt (bound_max (_lb a) (_lb b))
                     (bound_min (_ub a) (_ub b))) eqn:Hgt.
  - apply interval_le_bottom. rewrite is_bottom_ctor. exact Hgt.
  - rewrite interval_ctor_le by (apply bound_gt_false_le; exact Hgt).
    apply interval_le_intro; cbn [_lb _ub];
      auto using bound_max_ge_l, bound_min_le_l.
Qed.

Lemma meet_lower_r (a b : interval N) :
  wf_interval a -> wf_interval b -> interval_le (meet a b) b = true.
Proof.
  intros [Hla Hua] [Hlb Hub]. unfold meet.
  destruct (is_bottom a || is_bottom b) eqn:Hbot;
    [apply interval_le_bottom, is_bottom_bottom|].
  apply orb_false_iff in Hbot as [Hba Hbb].
  destruct (bound_gt (bound_max (_lb a) (_lb b))
                     (bound_min (_ub a) (_ub b))) eqn:Hgt.
  - apply interval_le_bottom. rewrite is_bottom_ctor. exact Hgt.
  - rewrite interval_ctor_le by (apply bound_gt_false_le; exact Hgt).
    apply interval_le_intro; cbn [_lb _ub];
      auto using bound_max_ge_r, bound_min_le_r.
Qed.

Lemma meet_greatest (a b c : interval N) :
  wf_interval a -> wf_interval b -> wf_interval c ->
  interval_le c a = true -> interval_le c b = true ->
  interval_le c (meet a b) = true.
Proof.
  intros [Hla Hua] [Hlb Hub] [Hlc Huc] Hca Hcb.
  destruct (is_bottom c) eqn:Hbc; [apply interval_le_bottom; exact Hbc|].
  destruct (interval_le_inv c a Hbc Hca) as (Hba & Hl1 & Hu1).
  destruct (interval_le_inv c b Hbc Hcb) as (Hbb & Hl2 & Hu2).
  unfold meet. rewrite Hba, Hbb. cbn [orb].
  apply interval_le_ctor; auto using bound_max_lub, bound_min_glb with wf.
  split; assumption.
Qed.

End IntervalOrder.

(** ** Membership *)

Section Membership.
Context {N : Type} `{Number N}.

Lemma wf_interval_of (n : N) : wf_interval (interval_of n).
Proof. split; apply wf_bound_of. Qed.

Lemma is_bottom_interval_of (n : N) : is_bottom (interval_of n) = false.
Proof.
  unfold is_bottom, interval_of, bound_gt. cbn [_lb _ub].
  rewrite bound_le_refl. reflexivity.
Qed.

(** A number belongs to an interval when its singleton is included. *)
Lemma contains_interval_le (a : interval N) (n : N) :
  contains a n = interval_le (interval_of n) a.
Proof.
  unfold contains, interval_le. rewrite is_bottom_interval_of.
  destruct (is_bottom a); reflexivity.
Qed.

Lemma contains_inv (a : interval N) (n : N) :
  contains a n = true ->
  is_bottom a = false /\
  bound_le (_lb a) (bound_of n) = true /\
  bound_le (bound_of n) (_ub a) = true.
Proof.
  unfold contains. destruct (is_bottom a); [discriminate|].
  intros Hc. apply andb_true_iff in Hc. auto.
Qed.

Lemma contains_intro (a : interval N) (n : N) :
  wf_interval a ->
  bound_le (_lb a) (bound_of n) = true ->
  bound_le (bound_of n) (_ub a) = true ->
  contains a n = true.
Proof.
  intros [Hl Hu] Hln Hnu. unfold contains.
  assert (Hb : is_bottom a = false).
  { apply bound_le_gt_false.
    apply (bound_le_trans _ (bound_of n)); auto with wf. }
  rewrite Hb, Hln, Hnu. reflexivity.
Qed.

Lemma contains_ctor (l u : bound N) (n : N) :
  wf_bound l -> wf_bound u ->
  bound_le l (bound_of n) = true -> bound_le (bound_of n) u = true ->
  interval_ctor l u = Interval l u /\ contains (interval_ctor l u) n = true.
Proof.
  intros Hl Hu Hln Hnu.
  assert (Hlu : bound_le l u = true)
    by (apply (bound_le_trans _ (bound_of n)); auto with wf).
  rewrite (interval_ctor_le _ _ Hlu). split; [reflexivity|].
  apply contains_intro; [split; assumption | exact Hln | exact Hnu].
Qed.

Lemma contains_top (n : N) : contains top n = true.
Proof.
  rewrite top_eq.
  apply contains_intro; cbn [_lb _ub];
    [split; auto with wf | |];
    auto using minus_infinity_le, plus_infinity_ge with wf.
Qed.

Lemma contains_bottom (n : N) : contains bottom n = false.
Proof. unfold contains. rewrite is_bottom_bottom. reflexivity. Qed.

(** A bound that is below a number is not +oo, one above is not -oo. *)
Lemma below_number_not_plus (b : bound N) (n : N) :
  wf_bound b -> bound_le b (bound_of n) = true ->
  is_plus_infinity b = false.
Proof.
  intros Hb. bound_cases b Hb; unfold bound_le, is_plus_infinity;
    lit_simpl; intros; try discriminate; reflexivity.
Qed.

Lemma above_number_not_minus (b : bound N) (n : N) :
  wf_bound b -> bound_le (bound_of n) b = true ->
  is_minus_infinity b = false.
Proof.
  intros Hb. bound_cases b Hb; unfold bound_le, is_minus_infinity;
    lit_simpl; intros; try discriminate; reflexivity.
Qed.

End Membership.

(** ** Stationarity of widening and narrowing *)

Section Stationary.
Context {N : Type} `{Number N}.

Lemma bound_lt_minus_infinity (x : bound N) :
  wf_bound x -> bound_lt x minus_infinity = false.
Proof.
  intros Hx. rewrite bound_lt_le, minus_infinity_le by assumption.
  reflexivity.
Qed.

Lemma bound_lt_plus_infinity (x : bound N) :
  wf_bound x -> bound_lt plus_infinity x = false.
Proof.
  intros Hx. rewrite bound_lt_le, plus_infinity_ge by assumption.
  reflexivity.
Qed.

Lemma bound_lt_of_le (x y : bound N) :
  bound_le y x = true -> bound_lt x y = false.
Proof. intros Hle. rewrite bound_lt_le, Hle. reflexivity. Qed.

(** An operand that brings nothing new leaves a widened interval as it
    is. *)
Lemma widening_included (a b : interval N) :
  is_bottom a = false -> interval_le b a = true -> widening a b = a.
Proof.
  intros Hba Hle. unfold widening. rewrite Hba.
  destruct (is_bottom b) eqn:Hbb; [reflexivity|].
  destruct (interval_le_inv b a Hbb Hle) as (_ & Hl & Hu).
  rewrite (bound_lt_of_le _ _ Hl), (bound_lt_of_le _ _ Hu).
  destruct a as [l u]. cbn [_lb _ub].
  apply interval_ctor_le, bound_gt_false_le. exact Hba.
Qed.

Lemma narrowing_again (a b : interval N) :
  narrowing (narrowing a b) b = narrowing a b.
Proof.
  assert (Hbot : forall x : interval N,
            is_bottom x || is_bottom b = true -> narrowing x b = bottom).
  { intros x Hx. unfold narrowing. rewrite Hx. reflexivity. }
  destruct (is_bottom a || is_bottom b) eqn:Hab.
  { rewrite (Hbot a Hab). apply Hbot. rewrite is_bottom_bottom. reflexivity. }
  apply orb_false_iff in Hab as [Hba Hbb].
  assert (Hn : exists l u,
            narrowing a b = interval_ctor l u /\
            (if is_infinite l && is_finite (_lb b) then _lb b else l) = l /\
            (if is_infinite u && is_finite (_ub b) then _ub b else u) = u).
  { unfold narrowing. rewrite Hba, Hbb. cbn [orb].
    eexists _, _. split; [reflexivity|]. unfold is_finite, is_infinite.
    split.
    - destruct (_is_infinite (_lb a)) eqn:Ha, (_is_infinite (_lb b)) eqn:Hb;
        cbn [negb andb]; rewrite ?Ha, ?Hb; reflexivity.
    - destruct (_is_infinite (_ub a)) eqn:Ha, (_is_infinite (_ub b)) eqn:Hb;
        cbn [negb andb]; rewrite ?Ha, ?Hb; reflexivity. }
  destruct Hn as (l & u & -> & Hl & Hu).
  unfold interval_ctor at 1 2. destruct (bound_gt l u) eqn:Hgt.
  { apply Hbot. fold (@bottom N _). rewrite is_bottom_bottom. reflexivity. }
  unfold narrowing, is_bottom at 1. cbn [_lb _ub].
  rewrite Hgt, Hbb, Hl, Hu. cbn [orb]. unfold interval_ctor.
  rewrite Hgt. reflexivity.
Qed.

End Stationary.

(** * Integer intervals and the integers they contain *)

(** Case analysis on the integer comparisons of a goal. *)
(** Case analysis on the comparisons of integers in the hypotheses, then
    in the goal. *)
Ltac z_case_on t :=
  lazymatch t with
  | (?m <=? ?n)%Z => destruct (Z.leb_spec m n)
  | (?m <? ?n)%Z => destruct (Z.ltb_spec m n)
  | (?m =? ?n)%Z => destruct (Z.eqb_spec m n)
  end.

Ltac z_cases :=
  repeat match goal with
         | H : context [(?m <=? ?n)%Z] |- _ => z_case_on (m <=? n)%Z
         | H : context [(?m <? ?n)%Z] |- _ => z_case_on (m <? n)%Z
         | H : context [(?m =? ?n)%Z] |- _ => z_case_on (m =? n)%Z
         | |- context [(?m <=? ?n)%Z] => z_case_on (m <=? n)%Z
         | |- context [(?m <? ?n)%Z] => z_case_on (m <? n)%Z
         | |- context [(?m =? ?n)%Z] => z_case_on (m =? n)%Z
         end.

Ltac z_interval_cases a Ha :=
  let l := fresh "l" in
  let u := fresh "u" in
  let Hl := fresh "Hl" in
  let Hu := fresh "Hu" in
  destruct a as [l u]; destruct Ha as [Hl Hu]; cbn [_lb _ub] in Hl, Hu;
  bound_cases l Hl; bound_cases u Hu.

(** The two comparisons behind membership, on the shapes of a bound. *)
Lemma z_below_iff (b : z_bound) (n : Z) :
  wf_bound b ->
  (bound_le b (bound_of n) = true <->
   b = minus_infinity \/ exists m, b = bound_of m /\ m <= n).
Proof.
  intros Hb. bound_cases b Hb; rewrite <- ?plus_infinity_eq, <- ?minus_infinity_eq.
  - change (bound_le (@bound_of Z n0) (bound_of n)) with (n0 <=? n).
    rewrite Z.leb_le. split.
    + intros Hle. right. eauto.
    + intros [Hm | (m & [= ->] & Hle)]; [discriminate Hm | exact Hle].
  - split; [discriminate|]. intros [Hm | (m & Hm & _)]; discriminate Hm.
  - split; auto.
Qed.

Lemma z_above_iff (b : z_bound) (n : Z) :
  wf_bound b ->
  (bound_le (bound_of n) b = true <->
   b = plus_infinity \/ exists m, b = bound_of m /\ n <= m).
Proof.
  intros Hb. bound_cases b Hb; rewrite <- ?plus_infinity_eq, <- ?minus_infinity_eq.
  - change (bound_le (@bound_of Z n) (bound_of n0)) with (n <=? n0).
    rewrite Z.leb_le. split.
    + intros Hle. right. eauto.
    + intros [Hm | (m & [= ->] & Hle)]; [discriminate Hm | exact Hle].
  - split; auto.
  - split; [discriminate|]. intros [Hm | (m & Hm & _)]; discriminate Hm.
Qed.

Lemma z_bound_add_below (l1 l2 : z_bound) (x y : Z) :
  wf_bound l1 -> wf_bound l2 ->
  bound_le l1 (bound_of x) = true -> bound_le l2 (bound_of y) = true ->
  exists r, bound_add l1 l2 = Ok r /\ wf_bound r /\
            bound_le r (bound_of (x + y)) = true.
Proof.
  intros H1 H2 Hx Hy.
  apply (z_below_iff l1 x H1) in Hx. apply (z_below_iff l2 y H2) in Hy.
  destruct Hx as [-> | (m1 & -> & Hx)], Hy as [-> | (m2 & -> & Hy)].
  - exists minus_infinity. repeat split; auto with wf.
  - exists minus_infinity. repeat split; auto with wf.
  - exists minus_infinity. repeat split; auto with wf.
  - exists (bound_of (m1 + m2)). repeat split; auto with wf.
    apply Z.leb_le. cbn. lia.
Qed.

Lemma z_bound_add_above (u1 u2 : z_bound) (x y : Z) :
  wf_bound u1 -> wf_bound u2 ->
  bound_le (bound_of x) u1 = true -> bound_le (bound_of y) u2 = true ->
  exists r, bound_add u1 u2 = Ok r /\ wf_bound r /\
            bound_le (bound_of (x + y)) r = true.
Proof.
  intros H1 H2 Hx Hy.
  apply (z_above_iff u1 x H1) in Hx. apply (z_above_iff u2 y H2) in Hy.
  destruct Hx as [-> | (m1 & -> & Hx)], Hy as [-> | (m2 & -> & Hy)].
  - exists plus_infinity. repeat split; auto with wf.
  - exists plus_infinity. repeat split; auto with wf.
  - exists plus_infinity. repeat split; auto with wf.
  - exists (bound_of (m1 + m2)). repeat split; auto with wf.
    apply Z.leb_le. cbn. lia.
Qed.

Lemma z_bound_neg_below (l : z_bound) (x : Z) :
  wf_bound l -> bound_le l (bound_of x) = true ->
  bound_le (bound_of (- x)) (bound_neg l) = true.
Proof.
  intros Hl Hx. apply (z_below_iff l x Hl) in Hx.
  destruct Hx as [-> | (m & -> & Hx)]; [reflexivity|].
  apply Z.leb_le. cbn. lia.
Qed.

Lemma z_bound_neg_above (u : z_bound) (x : Z) :
  wf_bound u -> bound_le (bound_of x) u = true ->
  bound_le (bound_neg u) (bound_of (- x)) = true.
Proof.
  intros Hu Hx. apply (z_above_iff u x Hu) in Hx.
  destruct Hx as [-> | (m & -> & Hx)]; [reflexivity|].
  apply Z.leb_le. cbn. lia.
Qed.

Lemma z_interval_add_sound (a b : z_interval) (x y : Z) :
  wf_interval a -> wf_interval b ->
  contains a x = true -> contains b y = true ->
  exists r, interval_add a b = Ok r /\ wf_interval r /\
            contains r (x + y) = true.
Proof.
  intros [Hla Hua] [Hlb Hub] Hx Hy.
  apply contains_inv in Hx as (Hba & Hlx & Hxu).
  apply contains_inv in Hy as (Hbb & Hly & Hyu).
  destruct (z_bound_add_below _ _ x y Hla Hlb Hlx Hly) as (l & El & Hl & Hlo).
  destruct (z_bound_add_above _ _ x y Hua Hub Hxu Hyu) as (u & Eu & Hu & Hup).
  exists (interval_ctor l u). unfold interval_add.
  rewrite Hba, Hbb, El, Eu. cbn.
  split; [reflexivity|]. split; [auto with wf|].
  apply contains_ctor; assumption.
Qed.

Lemma z_interval_neg_sound (a : z_interval) (x : Z) :
  wf_interval a -> contains a x = true ->
  contains (interval_neg a) (- x) = true.
Proof.
  intros [Hla Hua] Hx. apply contains_inv in Hx as (Hba & Hlx & Hxu).
  unfold interval_neg. rewrite Hba.
  apply contains_ctor; auto using z_bound_neg_below, z_bound_neg_above with wf.
Qed.

Lemma z_interval_sub_sound (a b : z_interval) (x y : Z) :
  wf_interval a -> wf_interval b ->
  contains a x = true -> contains b y = true ->
  exists r, interval_sub a b = Ok r /\ wf_interval r /\
            contains r (x - y) = true.
Proof.
  intros [Hla Hua] [Hlb Hub] Hx Hy.
  apply contains_inv in Hx as (Hba & Hlx & Hxu).
  apply contains_inv in Hy as (Hbb & Hly & Hyu).
  destruct (z_bound_add_below (_lb a) (bound_neg (_ub b)) x (- y))
    as (l & El & Hl & Hlo); auto using z_bound_neg_above with wf.
  destruct (z_bound_add_above (_ub a) (bound_neg (_lb b)) x (- y))
    as (u & Eu & Hu & Hup); auto using z_bound_neg_below with wf.
  exists (interval_ctor l u). unfold interval_sub, bound_sub.
  rewrite Hba, Hbb, El, Eu. cbn.
  split; [reflexivity|]. split; [auto with wf|].
  apply contains_ctor; assumption.
Qed.

(** ** Multiplication *)

Lemma z_bound_mul_fin (x y : Z) :
  bound_mul (bound_of x) (bound_of y) = bound_of (x * y).
Proof.
  unfold bound_mul, bound_of, bound_ctor. cbn.
  z_cases; subst; f_equal; lia.
Qed.

Lemma z_bound_mul_comm (a b : z_bound) :
  wf_bound a -> wf_bound b -> bound_mul a b = bound_mul b a.
Proof.
  intros Ha Hb. bound_cases a Ha; bound_cases b Hb;
    unfold bound_mul, bound_of, bound_ctor, n_gtb; cbn;
    z_cases; subst; try reflexivity; try lia; f_equal; lia.
Qed.

(** Multiplying by a bound keeps the order when the bound is not negative
    and reverses it when the bound is not positive. *)
Lemma z_bound_mul_mono (c p q : z_bound) :
  wf_bound c -> wf_bound p -> wf_bound q -> bound_le p q = true ->
  (bound_le (bound_of 0) c = true ->
   bound_le (bound_mul c p) (bound_mul c q) = true) /\
  (bound_le c (bound_of 0) = true ->
   bound_le (bound_mul c q) (bound_mul c p) = true).
Proof.
  intros Hc Hp Hq. bound_cases c Hc; bound_cases p Hp; bound_cases q Hq;
    unfold bound_mul, bound_le, bound_of, bound_ctor, n_gtb; cbn;
    intros Hpq; split; intros Hsign; z_cases; subst; cbn;
    try reflexivity; try discriminate; try lia;
    try (apply Z.leb_le; nia); try (apply Z.ltb_lt; nia);
    cbn in *; exfalso; nia.
Qed.

Lemma z_bound_mul_between (c p q x : z_bound) :
  wf_bound c -> wf_bound p -> wf_bound q -> wf_bound x ->
  bound_le p x = true -> bound_le x q = true ->
  (bound_le (bound_mul c p) (bound_mul c x) = true \/
   bound_le (bound_mul c q) (bound_mul c x) = true) /\
  (bound_le (bound_mul c x) (bound_mul c p) = true \/
   bound_le (bound_mul c x) (bound_mul c q) = true).
Proof.
  intros Hc Hp Hq Hx Hpx Hxq.
  destruct (z_bound_mul_mono c p x Hc Hp Hx Hpx) as [Hpos1 Hneg1].
  destruct (z_bound_mul_mono c x q Hc Hx Hq Hxq) as [Hpos2 Hneg2].
  pose proof (bound_le_total (bound_of 0) c (wf_bound_of 0) Hc) as Ht.
  apply orb_true_iff in Ht as [Hs | Hs]; auto.
Qed.

Section MinMax4.
Context {N : Type} `{Number N}.

Lemma wf_bound_min4 (a b c d : bound N) :
  wf_bound a -> wf_bound b -> wf_bound c -> wf_bound d ->
  wf_bound (bound_min4 a b c d).
Proof. unfold bound_min4, bound_min3. auto with wf. Qed.

Lemma wf_bound_max4 (a b c d : bound N) :
  wf_bound a -> wf_bound b -> wf_bound c -> wf_bound d ->
  wf_bound (bound_max4 a b c d).
Proof. unfold bound_max4, bound_max3. auto with wf. Qed.

Lemma bound_min4_below (a b c d z : bound N) :
  wf_bound a -> wf_bound b -> wf_bound c -> wf_bound d -> wf_bound z ->
  bound_le a z = true \/ bound_le b z = true \/
  bound_le c z = true \/ bound_le d z = true ->
  bound_le (bound_min4 a b c d) z = true.
Proof.
  intros Ha Hb Hc Hd Hz Hle. unfold bound_min4, bound_min3.
  assert (Hcd : wf_bound (bound_min c d)) by auto with wf.
  assert (Hbcd : wf_bound (bound_min b (bound_min c d))) by auto with wf.
  destruct Hle as [Hle | [Hle | [Hle | Hle]]].
  - eapply bound_le_trans; [| | | apply bound_min_le_l | exact Hle];
      auto with wf.
  - eapply (bound_le_trans _ (bound_min b (bound_min c d)));
      [| | | apply bound_min_le_r |]; auto with wf.
    eapply bound_le_trans; [| | | apply bound_min_le_l | exact Hle];
      auto with wf.
  - eapply (bound_le_trans _ (bound_min b (bound_min c d)));
      [| | | apply bound_min_le_r |]; auto with wf.
    eapply (bound_le_trans _ (bound_min c d));
      [| | | apply bound_min_le_r |]; auto with wf.
    eapply bound_le_trans; [| | | apply bound_min_le_l | exact Hle];
      auto with wf.
  - eapply (bound_le_trans _ (bound_min b (bound_min c d)));
      [| | | apply bound_min_le_r |]; auto with wf.
    eapply (bound_le_trans _ (bound_min c d));
      [| | | apply bound_min_le_r |]; auto with wf.
    eapply bound_le_trans; [| | | apply bound_min_le_r | exact Hle];
      auto with wf.
Qed.

Lemma bound_max4_above (a b c d z : bound N) :
  wf_bound a -> wf_bound b -> wf_bound c -> wf_bound d -> wf_bound z ->
  bound_le z a = true \/ bound_le z b = true \/
  bound_le z c = true \/ bound_le z d = true ->
  bound_le z (bound_max4 a b c d) = true.
Proof.
  intros Ha Hb Hc Hd Hz Hle. unfold bound_max4, bound_max3.
  assert (Hcd : wf_bound (bound_max c d)) by auto with wf.
  assert (Hbcd : wf_bound (bound_max b (bound_max c d))) by auto with wf.
  destruct Hle as [Hle | [Hle | [Hle | Hle]]].
  - eapply bound_le_trans; [| | | exact Hle | apply bound_max_ge_l];
      auto with wf.
  - eapply (bound_le_trans _ (bound_max b (bound_max c d)));
      [| | | | apply bound_max_ge_r]; auto with wf.
    eapply bound_le_trans; [| | | exact Hle | apply bound_max_ge_l];
      auto with wf.
  - eapply (bound_le_trans _ (bound_max b (bound_max c d)));
      [| | | | apply bound_max_ge_r]; auto with wf.
    eapply (bound_le_trans _ (bound_max c d));
      [| | | | apply bound_max_ge_r]; auto with wf.
    eapply bound_le_trans; [| | | exact Hle | apply bound_max_ge_l];
      auto with wf.
  - eapply (bound_le_trans _ (bound_max b (bound_max c d)));
      [| | | | apply bound_max_ge_r]; auto with wf.
    eapply (bound_le_trans _ (bound_max c d));
      [| | | | apply bound_max_ge_r]; auto with wf.
    eapply bound_le_trans; [| | | exact Hle | apply bound_max_ge_r];
      auto with wf.
Qed.

End MinMax4.

Lemma z_interval_mul_sound (a b : z_interval) (x y : Z) :
  wf_interval a -> wf_interval b ->
  contains a x = true -> contains b y = true ->
  wf_interval (interval_mul a b) /\
  contains (interval_mul a b) (x * y) = true.
Proof.
  intros [Hla Hua] [Hlb Hub] Hx Hy.
  apply contains_inv in Hx as (Hba & Hlx & Hxu).
  apply contains_inv in Hy as (Hbb & Hly & Hyu).
  unfold interval_mul. rewrite Hba, Hbb. cbn [orb]. cbv zeta.
  assert (Hll : wf_bound (bound_mul (_lb a) (_lb b))) by auto using wf_bound_mul.
  assert (Hlu : wf_bound (bound_mul (_lb a) (_ub b))) by auto using wf_bound_mul.
  assert (Hul : wf_bound (bound_mul (_ub a) (_lb b))) by auto using wf_bound_mul.
  assert (Huu : wf_bound (bound_mul (_ub a) (_ub b))) by auto using wf_bound_mul.
  split; [apply wf_interval_ctor; auto using wf_bound_min4, wf_bound_max4|].
  set (X := @bound_of Z x) in *. set (Y := @bound_of Z y) in *.
  assert (HX : wf_bound X) by apply wf_bound_of.
  assert (HY : wf_bound Y) by apply wf_bound_of.
  assert (HXY : @bound_of Z (x * y) = bound_mul X Y)
    by (symmetry; apply z_bound_mul_fin).
  (* x*y lies between x*lb and x*ub, in one order or the other *)
  destruct (z_bound_mul_between X (_lb b) (_ub b) Y) as [Hlo Hhi]; auto.
  (* and x*c between lb*c and ub*c, for each bound c of the other operand *)
  assert (Hstep : forall c, wf_bound c ->
    (bound_le (bound_mul (_lb a) c) (bound_mul X c) = true \/
     bound_le (bound_mul (_ub a) c) (bound_mul X c) = true) /\
    (bound_le (bound_mul X c) (bound_mul (_lb a) c) = true \/
     bound_le (bound_mul X c) (bound_mul (_ub a) c) = true)).
  { intros c Hc.
    rewrite (z_bound_mul_comm (_lb a) c), (z_bound_mul_comm (_ub a) c),
      (z_bound_mul_comm X c) by assumption.
    apply z_bound_mul_between; assumption. }
  destruct (Hstep (_lb b) Hlb) as [Hlo_l Hhi_l].
  destruct (Hstep (_ub b) Hub) as [Hlo_u Hhi_u].
  assert (Htr : forall p q r : z_bound, wf_bound p -> wf_bound q ->
            wf_bound r -> bound_le p q = true -> bound_le q r = true ->
            bound_le p r = true) by (intros p q r; apply bound_le_trans).
  apply contains_ctor; auto using wf_bound_min4, wf_bound_max4;
    rewrite HXY.
  - apply bound_min4_below; auto using wf_bound_mul.
    destruct Hlo as [H1 | H1].
    + destruct Hlo_l as [H2 | H2];
        [left | right; right; left];
        apply (Htr _ (bound_mul X (_lb b))); auto using wf_bound_mul.
    + destruct Hlo_u as [H2 | H2];
        [right; left | right; right; right];
        apply (Htr _ (bound_mul X (_ub b))); auto using wf_bound_mul.
  - apply bound_max4_above; auto using wf_bound_mul.
    destruct Hhi as [H1 | H1].
    + destruct Hhi_l as [H2 | H2];
        [left | right; right; left];
        apply (Htr _ (bound_mul X (_lb b))); auto using wf_bound_mul.
    + destruct Hhi_u as [H2 | H2];
        [right; left | right; right; right];
        apply (Htr _ (bound_mul X (_ub b))); auto using wf_bound_mul.
Qed.

(** ** Division by a constant *)

Lemma Z_quot_le_mono_neg (a b c : Z) : c < 0 -> a <= b -> b ÷ c <= a ÷ c.
Proof.
  intros Hc Hab. replace c with (- - c) by lia.
  rewrite !(Z.quot_opp_r _ (- c)) by lia.
  pose proof (Z.quot_le_mono a b (- c) ltac:(lia) Hab). lia.
Qed.

Lemma z_bound_div_pos_below (l : z_bound) (x c : Z) :
  wf_bound l -> 0 < c -> bound_le l (bound_of x) = true ->
  exists r, bound_div l (bound_of c) = Ok r /\ wf_bound r /\
            bound_le r (bound_of (x ÷ c)) = true.
Proof.
  intros Hl Hc Hx. apply (z_below_iff l x Hl) in Hx.
  destruct Hx as [-> | (m & -> & Hx)].
  - exists minus_infinity. unfold bound_div, n_gtb. cbn.
    destruct (Z.eqb_spec c 0); [lia|]. destruct (Z.ltb_spec 0 c); [|lia].
    repeat split; auto with wf.
  - exists (bound_of (m ÷ c)). rewrite z_bound_div_finite by lia.
    repeat split; auto with wf.
    apply Z.leb_le. cbn. apply Z.quot_le_mono; lia.
Qed.

Lemma z_bound_div_pos_above (u : z_bound) (x c : Z) :
  wf_bound u -> 0 < c -> bound_le (bound_of x) u = true ->
  exists r, bound_div u (bound_of c) = Ok r /\ wf_bound r /\
            bound_le (bound_of (x ÷ c)) r = true.
Proof.
  intros Hu Hc Hx. apply (z_above_iff u x Hu) in Hx.
  destruct Hx as [-> | (m & -> & Hx)].
  - exists plus_infinity. unfold bound_div, n_gtb. cbn.
    destruct (Z.eqb_spec c 0); [lia|]. destruct (Z.ltb_spec 0 c); [|lia].
    repeat split; auto with wf.
  - exists (bound_of (m ÷ c)). rewrite z_bound_div_finite by lia.
    repeat split; auto with wf.
    apply Z.leb_le. cbn. apply Z.quot_le_mono; lia.
Qed.

Lemma z_bound_div_neg_below (l : z_bound) (x c : Z) :
  wf_bound l -> c < 0 -> bound_le l (bound_of x) = true ->
  exists r, bound_div l (bound_of c) = Ok r /\ wf_bound r /\
            bound_le (bound_of (x ÷ c)) r = true.
Proof.
  intros Hl Hc Hx. apply (z_below_iff l x Hl) in Hx.
  destruct Hx as [-> | (m & -> & Hx)].
  - exists plus_infinity. unfold bound_div, n_gtb. cbn.
    destruct (Z.eqb_spec c 0); [lia|]. destruct (Z.ltb_spec 0 c); [lia|].
    repeat split; auto with wf.
  - exists (bound_of (m ÷ c)). rewrite z_bound_div_finite by lia.
    repeat split; auto with wf.
    apply Z.leb_le. cbn. apply Z_quot_le_mono_neg; lia.
Qed.

Lemma z_bound_div_neg_above (u : z_bound) (x c : Z) :
  wf_bound u -> c < 0 -> bound_le (bound_of x) u = true ->
  exists r, bound_div u (bound_of c) = Ok r /\ wf_bound r /\
            bound_le r (bound_of (x ÷ c)) = true.
Proof.
  intros Hu Hc Hx. apply (z_above_iff u x Hu) in Hx.
  destruct Hx as [-> | (m & -> & Hx)].
  - exists minus_infinity. unfold bound_div, n_gtb. cbn.
    destruct (Z.eqb_spec c 0); [lia|]. destruct (Z.ltb_spec 0 c); [lia|].
    repeat split; auto with wf.
  - exists (bound_of (m ÷ c)). rewrite z_bound_div_finite by lia.
    repeat split; auto with wf.
    apply Z.leb_le. cbn. apply Z_quot_le_mono_neg; lia.
Qed.

Lemma singleton_interval_of (c : Z) : singleton (interval_of c) = Some c.
Proof.
  unfold singleton. rewrite is_bottom_interval_of.
  unfold interval_of, bound_eq, number. cbn. rewrite Z.eqb_refl. reflexivity.
Qed.

Lemma z_div_constant_sound (a : z_interval) (x c : Z) :
  wf_interval a -> contains a x = true -> c <> 0 ->
  exists r, z_div a (interval_of c) = Ok r /\ wf_interval r /\
            contains r (x ÷ c) = true.
Proof.
  intros Ha Hx Hc. pose proof Ha as [Hla Hua].
  pose proof (contains_inv a x Hx) as (Hba & Hlx & Hxu).
  unfold z_div. rewrite z_div_fuel_S, Hba, is_bottom_interval_of,
    singleton_interval_of.
  cbn [orb from_option]. unfold z_div_singleton.
  destruct (Z.eqb_spec c 1) as [-> | Hc1].
  { exists a. rewrite Z.quot_1_r. auto. }
  destruct (Z.gtb_spec c 0) as [Hpos | Hneg].
  - destruct (z_bound_div_pos_below _ x c Hla ltac:(lia) Hlx)
      as (l & -> & Hl & Hlo).
    destruct (z_bound_div_pos_above _ x c Hua ltac:(lia) Hxu)
      as (u & -> & Hu & Hup).
    exists (interval_ctor l u). cbn.
    split; [reflexivity|]. split; [auto with wf|].
    apply contains_ctor; assumption.
  - destruct (Z.ltb_spec c 0) as [Hlt | ]; [|lia].
    destruct (z_bound_div_neg_above _ x c Hua Hlt Hxu)
      as (l & -> & Hl & Hlo).
    destruct (z_bound_div_neg_below _ x c Hla Hlt Hlx)
      as (u & -> & Hu & Hup).
    exists (interval_ctor l u). cbn.
    split; [reflexivity|]. split; [auto with wf|].
    apply contains_ctor; assumption.
Qed.

Lemma wf_bound_of_int {N} `{Number N} (n : Z) : wf_bound (@bound_of_int N _ n).
Proof. intros Hinf. discriminate Hinf. Qed.

#[export] Hint Resolve wf_bound_of_int wf_interval_of : wf.

(** ** The integer division raises no error *)

(** A computation that returns a well-formed interval. *)
Definition returns_wf (r : result z_interval) : Prop :=
  exists v, r = Ok v /\ wf_interval v.

Lemma returns_wf_ok (v : z_interval) : wf_interval v -> returns_wf (Ok v).
Proof. intros Hv. exists v. auto. Qed.

Lemma returns_wf_bind (r : result z_interval) (k : z_interval -> result z_interval) :
  returns_wf r -> (forall v, wf_interval v -> returns_wf (k v)) ->
  returns_wf (r ≫= k).
Proof. intros (v & -> & Hv) Hk. apply Hk. exact Hv. Qed.

Lemma z_bound_div_ok (b x : z_bound) :
  wf_bound b -> wf_bound x -> (_n x =? 0) = false ->
  exists r, bound_div b x = Ok r /\ wf_bound r.
Proof.
  intros Hb Hx Hz.
  destruct (bound_div b x) as [r | e] eqn:Hd.
  - exists r. split; [reflexivity|]. exact (wf_bound_div b x r Hb Hx Hd).
  - exfalso. revert Hd. unfold bound_div. cbn [n_eqb z_number of_int].
    rewrite Hz.
    repeat match goal with |- context [if ?c then _ else _] => destruct c end;
      discriminate.
Qed.

Lemma z_nonzero_bounds (x : z_interval) :
  wf_interval x -> is_bottom x = false -> contains x 0 = false ->
  (_n (_lb x) =? 0) = false /\ (_n (_ub x) =? 0) = false.
Proof.
  intros Hx. z_interval_cases x Hx;
    unfold contains, is_bottom, bound_gt, bound_le, n_gtb; cbn;
    intros Hb Hc; z_cases; cbn in *; try discriminate; auto; lia.
Qed.

Lemma z_div_singleton_ok (i : z_interval) (c : Z) (r : result z_interval) :
  wf_interval i -> z_div_singleton i c = Some r -> returns_wf r.
Proof.
  intros [Hl Hu]. unfold z_div_singleton.
  destruct (c =? 1); [intros [= <-]; apply returns_wf_ok; split; assumption|].
  assert (Hdiv : c <> 0 -> forall b1 b2 : z_bound,
            wf_bound b1 -> wf_bound b2 ->
            returns_wf (l ← bound_div b1 (bound_of c);
                        u ← bound_div b2 (bound_of c);
                        Ok (interval_ctor l u))).
  { intros Hc b1 b2 H1 H2.
    destruct (z_bound_div_ok b1 (bound_of c)) as (l & -> & Hl');
      auto with wf; [apply Z.eqb_neq; exact Hc|].
    destruct (z_bound_div_ok b2 (bound_of c)) as (u & -> & Hu');
      auto with wf; [apply Z.eqb_neq; exact Hc|].
    apply returns_wf_ok. auto with wf. }
  destruct (Z.gtb_spec c 0); [intros [= <-]; apply Hdiv; auto; lia|].
  destruct (Z.ltb_spec c 0); [intros [= <-]; apply Hdiv; auto; lia|].
  discriminate.
Qed.

(** The dividend, moved when it is negative, is computed without error. *)
Lemma z_div_dividend_ok (i x : z_interval) :
  wf_interval i -> wf_interval x ->
  is_bottom i = false -> is_bottom x = false -> contains x 0 = false ->
  returns_wf
    (if bound_lt (_ub i) (bound_of_int 0) then
       t ← (if bound_lt (_ub x) (bound_of_int 0)
            then interval_add x (interval_of 1)
            else interval_sub (interval_of 1) x);
       interval_add i t
     else Ok i).
Proof.
  intros Hi Hx. pose proof Hi as Hi'.
  z_interval_cases i Hi; z_interval_cases x Hx;
    unfold contains, is_bottom, bound_gt, bound_lt, bound_ge, bound_le,
      n_gtb, n_geb; cbn;
    intros Hbi Hbx Hc; z_cases; cbn in *; try discriminate; try lia;
    try (apply returns_wf_ok; assumption);
    unfold interval_add, interval_sub, bound_sub, bound_add, bound_neg,
      bound_ctor, interval_ctor, is_bottom, bound_gt, bound_le, n_gtb; cbn;
    z_cases; cbn; z_cases; cbn;
    try (apply returns_wf_ok; split; cbn; auto with wf); lia.
Qed.

Lemma z_div_nonzero_ok (i x : z_interval) :
  wf_interval i -> wf_interval x ->
  is_bottom i = false -> is_bottom x = false -> contains x 0 = false ->
  returns_wf (z_div_nonzero i x).
Proof.
  intros Hi Hx Hbi Hbx Hc. unfold z_div_nonzero.
  apply returns_wf_bind; [apply z_div_dividend_ok; assumption|].
  intros a [Hla Hua]. destruct Hx as [Hlx Hux].
  destruct (z_nonzero_bounds x) as [Hzl Hzu]; [split|..]; auto.
  destruct (z_bound_div_ok (_lb a) (_lb x)) as (ll & -> & Hll); auto.
  destruct (z_bound_div_ok (_lb a) (_ub x)) as (lu & -> & Hlu); auto.
  destruct (z_bound_div_ok (_ub a) (_lb x)) as (ul & -> & Hul); auto.
  destruct (z_bound_div_ok (_ub a) (_ub x)) as (uu & -> & Huu); auto.
  apply returns_wf_ok.
  apply wf_interval_ctor; auto using wf_bound_min4, wf_bound_max4.
Qed.

Lemma z_div_fuel_ok (n : nat) (i x : z_interval) :
  wf_interval i -> wf_interval x -> returns_wf (z_div_fuel (3 + n) i x).
Proof.
  assert (Hstep : forall m i x,
    wf_interval i -> wf_interval x ->
    (contains x 0 = true ->
     forall l u, wf_bound l -> wf_bound u ->
       returns_wf (z_div_fuel m i (interval_ctor l (bound_of (-1)))) /\
       returns_wf (z_div_fuel m i (interval_ctor (bound_of 1) u))) ->
    (contains x 0 = false -> contains i 0 = true ->
     forall l u, wf_bound l -> wf_bound u ->
       returns_wf (z_div_fuel m (interval_ctor l (bound_of (-1))) x) /\
       returns_wf (z_div_fuel m (interval_ctor (bound_of 1) u) x)) ->
    returns_wf (z_div_fuel (S m) i x)).
  { intros m i' x' Hi Hx Hd Hn. rewrite z_div_fuel_S.
    destruct (is_bottom i' || is_bottom x') eqn:Hbot;
      [apply returns_wf_ok, wf_bottom|].
    apply orb_false_iff in Hbot as [Hbi Hbx].
    assert (Hrest :
      returns_wf
        (if contains x' 0 then
           r1 ← z_div_fuel m i' (interval_ctor (_lb x') (bound_of (-1)));
           r2 ← z_div_fuel m i' (interval_ctor (bound_of 1) (_ub x'));
           Ok (join r1 r2)
         else if contains i' 0 then
           r1 ← z_div_fuel m (interval_ctor (_lb i') (bound_of (-1))) x';
           r2 ← z_div_fuel m (interval_ctor (bound_of 1) (_ub i')) x';
           Ok (join (join r1 r2) (interval_of 0))
         else z_div_nonzero i' x')).
    { destruct (contains x' 0) eqn:Hcx.
      - destruct (Hd eq_refl (_lb x') (_ub x')) as [H1 H2];
          try apply Hx.
        apply returns_wf_bind; [exact H1 | intros r1 Hr1].
        apply returns_wf_bind; [exact H2 | intros r2 Hr2].
        apply returns_wf_ok, wf_join; assumption.
      - destruct (contains i' 0) eqn:Hci.
        + destruct (Hn eq_refl eq_refl (_lb i') (_ub i')) as [H1 H2];
            try apply Hi.
          apply returns_wf_bind; [exact H1 | intros r1 Hr1].
          apply returns_wf_bind; [exact H2 | intros r2 Hr2].
          apply returns_wf_ok, wf_join; [apply wf_join|]; auto with wf.
        + apply z_div_nonzero_ok; assumption. }
    destruct (singleton x') as [c|]; cbn [from_option]; [|exact Hrest].
    destruct (z_div_singleton i' c) as [r|] eqn:Hs; [|exact Hrest].
    exact (z_div_singleton_ok i' c r Hi Hs). }
  intros Hi Hx.
  assert (H1 : forall i x, wf_interval i -> wf_interval x ->
            contains x 0 = false -> contains i 0 = false ->
            returns_wf (z_div_fuel (1 + n) i x)).
  { intros i' x' Hi' Hx' Hcx Hci. apply Hstep; auto; intros; congruence. }
  assert (H2 : forall i x, wf_interval i -> wf_interval x ->
            contains x 0 = false ->
            returns_wf (z_div_fuel (2 + n) i x)).
  { intros i' x' Hi' Hx' Hcx. apply Hstep; auto; [intros; congruence|].
    intros _ _ l u Hl Hu.
    split; apply H1;
      auto using contains_negative_part, contains_positive_part with wf. }
  apply Hstep; auto.
  - intros _ l u Hl Hu.
    split; apply H2;
      auto using contains_negative_part, contains_positive_part with wf.
  - intros Hcx _ l u Hl Hu. split; apply H2; auto with wf.
Qed.

(** * The integer specializations of the remainder, bitwise and shift
      operations *)

(* private static: abs, max of interval<Number> *)
Definition z_abs (x : Z) : Z := if x <? 0 then - x else x.
Definition z_max (x y : Z) : Z := if x <=? y then y else x.

(* interval<z_number>::SRem *)
Definition z_SRem (i x : z_interval) : z_interval :=
  if is_bottom i || is_bottom x then bottom
  else
    match singleton i, singleton x with
    | Some dividend, Some divisor =>
        if divisor =? 0 then bottom
        else interval_of (Z.rem dividend divisor)
    | _, _ =>
        if is_finite (_ub x) && is_finite (_lb x) then
          let max_divisor := z_max (z_abs (_n (_lb x))) (z_abs (_n (_ub x))) in
          if max_divisor =? 0 then bottom
          else if bound_lt (_lb i) (bound_of_int 0) then
            if bound_gt (_ub i) (bound_of_int 0) then
              interval_ctor (bound_of (- (max_divisor - 1)))
                            (bound_of (max_divisor - 1))
            else
              interval_ctor (bound_of (- (max_divisor - 1))) (bound_of_int 0)
          else
            interval_ctor (bound_of_int 0) (bound_of (max_divisor - 1))
        else top
    end.

(* interval<z_number>::URem *)
Definition z_URem (i x : z_interval) : z_interval :=
  if is_bottom i || is_bottom x then bottom
  else
    match singleton i, singleton x with
    | Some dividend, Some divisor =>
        if divisor <? 0 then top
        else if divisor =? 0 then bottom
        else if dividend <? 0 then
          interval_ctor (bound_of_int 0) (bound_of (divisor - 1))
        else interval_of (Z.rem dividend divisor)
    | _, _ =>
        if is_finite (_ub x) && is_finite (_lb x) then
          let max_divisor := _n (_ub x) in
          if bound_lt (_lb x) (bound_of_int 0)
             || bound_lt (_ub x) (bound_of_int 0) then top
          else if max_divisor =? 0 then bottom
          else interval_ctor (bound_of_int 0) (bound_of (max_divisor - 1))
        else top
    end.

(* interval<z_number>::And *)
Definition z_And (i x : z_interval) : z_interval :=
  if is_bottom i || is_bottom x then bottom
  else
    match singleton i, singleton x with
    | Some left_op, Some right_op => interval_of (Z.land left_op right_op)
    | _, _ =>
        if bound_ge (_lb i) (bound_of_int 0)
           && bound_ge (_lb x) (bound_of_int 0) then
          interval_ctor (bound_of_int 0) (bound_min (_ub i) (_ub x))
        else top
    end.

(** The loop [for (int i = 0; k > i; i++) factor *= 2], run from the
    state [(i, factor)]; it is entered with [k <= 128] only, and [fuel]
    bounds the number of its rounds. *)
Fixpoint shift_factor_loop (fuel : nat) (k i factor : Z) : Z :=
  match fuel with
  | O => factor
  | S fuel =>
      if k >? i then shift_factor_loop fuel k (i + 1) (factor * 2)
      else factor
  end.

Definition shift_factor (k : Z) : Z := shift_factor_loop 128 k 0 1.

(* interval<z_number>::Shl *)
Definition z_Shl (i x : z_interval) : z_interval :=
  if is_bottom i || is_bottom x then bottom
  else
    match singleton x with
    | Some k =>
        if k <? 0 then top
        else if k <=? 128 then interval_mul i (interval_of (shift_factor k))
        else top
    | None => top
    end.

(* interval<z_number>::AShr *)
Definition z_AShr (i x : z_interval) : result z_interval :=
  if is_bottom i || is_bottom x then Ok bottom
  else
    match singleton x with
    | Some k =>
        if k <? 0 then Ok top
        else if k <=? 128 then z_div i (interval_of (shift_factor k))
        else Ok top
    | None => Ok top
    end.

(* interval<z_number>::LShr; the bounds that are shifted are not
   negative *)
Definition z_LShr (i x : z_interval) : z_interval :=
  if is_bottom i || is_bottom x then bottom
  else
    match singleton x with
    | Some k =>
        if k <? 0 then top
        else if (k <=? 128)
                && (bound_ge (_lb i) (bound_of_int 0) && is_finite (_ub i))
        then interval_ctor (bound_of (Z.shiftr (_n (_lb i)) k))
                           (bound_of (Z.shiftr (_n (_ub i)) k))
        else top
    | None => top
    end.

(* linear_interval_solver_impl::trim_interval, for z_interval *)
Definition z_trim_interval (i j : z_interval) : z_interval :=
  match singleton j with
  | Some c =>
      if bound_eq (_lb i) (bound_of c) then
        interval_ctor (bound_of (c + 1)) (_ub i)
      else if bound_eq (_ub i) (bound_of c) then
        interval_ctor (_lb i) (bound_of (c - 1))
      else i
  | None => i
  end.

Lemma shift_factor_loop_pow (fuel : nat) (k i f : Z) :
  0 <= i <= k -> k - i <= Z.of_nat fuel ->
  shift_factor_loop fuel k i f = f * 2 ^ (k - i).
Proof.
  revert i f. induction fuel as [|fuel IH]; intros i f Hi Hfuel.
  - replace (k - i) with 0 by lia. cbn. lia.
  - cbn [shift_factor_loop]. destruct (Z.gtb_spec k i) as [Hgt | Hle].
    + rewrite IH by lia.
      replace (k - i) with (Z.succ (k - (i + 1))) by lia.
      rewrite Z.pow_succ_r by lia. lia.
    + replace (k - i) with 0 by lia. cbn. lia.
Qed.

Lemma shift_factor_pow (k : Z) :
  0 <= k <= 128 -> shift_factor k = 2 ^ k.
Proof.
  intros Hk. unfold shift_factor.
  rewrite shift_factor_loop_pow by lia.
  rewrite Z.sub_0_r. lia.
Qed.

(** An integer interval with a singleton value is the interval of that
    value. *)
Lemma z_singleton_inv (a : z_interval) (d : Z) :
  singleton a = Some d -> a = interval_of d.
Proof.
  unfold singleton. destruct (is_bottom a); [discriminate|].
  destruct a as [[[|] l] [[|] u]]; unfold bound_eq, number; cbn;
    try discriminate.
  all: intros Hs; destruct (Z.eqb_spec l u) as [Hlu |]; try discriminate.
  injection Hs as Hd. subst. reflexivity.
Qed.

Lemma z_contains_interval_of (d x : Z) :
  contains (interval_of d) x = true <-> x = d.
Proof.
  unfold contains. rewrite is_bottom_interval_of.
  unfold interval_of, bound_le. cbn.
  rewrite andb_true_iff, !Z.leb_le. lia.
Qed.

Lemma z_bound_le_fin (m n : Z) :
  bound_le (@bound_of Z m) (bound_of n) = true <-> m <= n.
Proof. unfold bound_le. cbn. apply Z.leb_le. Qed.

Lemma z_contains_fin (l u x : Z) :
  l <= x <= u ->
  contains (interval_ctor (bound_of l) (bound_of u)) x = true.
Proof.
  intros Hx. apply contains_ctor; auto with wf; apply z_bound_le_fin; lia.
Qed.

Lemma z_max_abs_bound (l u y : Z) :
  l <= y <= u -> Z.abs y <= z_max (z_abs l) (z_abs u).
Proof. unfold z_max, z_abs. intros Hy. z_cases; lia. Qed.

Lemma z_SRem_sound (a b : z_interval) (x y : Z) :
  wf_interval a -> wf_interval b ->
  contains a x = true -> contains b y = true -> y <> 0 ->
  contains (z_SRem a b) (Z.rem x y) = true.
Proof.
  intros Ha Hb Hx Hy Hy0.
  pose proof (contains_inv a x Hx) as (Hba & Hlx & Hxu).
  pose proof (contains_inv b y Hy) as (Hbb & Hly & Hyu).
  unfold z_SRem. rewrite Hba, Hbb. cbn [orb].
  assert (Hgen :
    contains
      (if is_finite (_ub b) && is_finite (_lb b) then
         let max_divisor := z_max (z_abs (_n (_lb b))) (z_abs (_n (_ub b))) in
         if max_divisor =? 0 then bottom
         else if bound_lt (_lb a) (bound_of_int 0) then
           if bound_gt (_ub a) (bound_of_int 0) then
             interval_ctor (bound_of (- (max_divisor - 1)))
                           (bound_of (max_divisor - 1))
           else
             interval_ctor (bound_of (- (max_divisor - 1))) (bound_of_int 0)
         else
           interval_ctor (bound_of_int 0) (bound_of (max_divisor - 1))
       else top) (Z.rem x y) = true).
  { destruct (is_finite (_ub b) && is_finite (_lb b)) eqn:Hfin;
      [|apply contains_top].
    apply andb_true_iff in Hfin as [Hfu Hfl].
    destruct b as [[[|] lb] [[|] ub]]; try discriminate.
    cbn [_lb _ub _n] in *. cbv zeta.
    apply z_bound_le_fin in Hly, Hyu.
    pose proof (z_max_abs_bound lb ub y ltac:(lia)) as Hm.
    pose proof (Z.rem_bound_abs x y Hy0) as Hr.
    destruct (Z.eqb_spec (z_max (z_abs lb) (z_abs ub)) 0); [lia|].
    destruct (bound_lt (_lb a) (bound_of_int 0)) eqn:Hneg.
    - destruct (bound_gt (_ub a) (bound_of_int 0)) eqn:Hpos.
      + apply z_contains_fin; cbn [of_int z_number]. lia.
      + apply z_contains_fin; cbn [of_int z_number].
        assert (x <= 0).
        { apply bound_gt_false_le in Hpos.
          destruct Ha as [_ Hua].
          apply z_bound_le_fin.
          apply (bound_le_trans _ (_ub a)); auto with wf. }
        pose proof (Z.rem_nonpos x y Hy0 ltac:(lia)). lia.
    - apply z_contains_fin; cbn [of_int z_number].
      assert (0 <= x).
      { apply bound_lt_false_le in Hneg.
        destruct Ha as [Hla _].
        apply z_bound_le_fin.
        apply (bound_le_trans _ (_lb a)); auto with wf. }
      pose proof (Z.rem_nonneg x y Hy0 ltac:(lia)). lia. }
  destruct (singleton a) as [d|] eqn:Hsa; [|exact Hgen].
  destruct (singleton b) as [c|] eqn:Hsb; [|exact Hgen].
  apply z_singleton_inv in Hsa, Hsb. subst a b.
  apply z_contains_interval_of in Hx, Hy. subst x y.
  destruct (Z.eqb_spec c 0); [contradiction|].
  apply z_contains_interval_of. reflexivity.
Qed.

Lemma Z_land_le_l (x y : Z) : 0 <= x -> 0 <= y -> Z.land x y <= x.
Proof.
  intros Hx Hy. destruct x as [|p|p]; [rewrite Z.land_0_l; lia | | lia].
  destruct y as [|q|q]; [rewrite Z.land_0_r; lia | | lia].
  pose proof (N.land_le_l (N.pos p) (N.pos q)) as Hle.
  change (Z.land (Z.pos p) (Z.pos q)) with (Z.of_N (N.land (N.pos p) (N.pos q))).
  lia.
Qed.

Lemma z_below_zero_nonneg (a : z_interval) (x : Z) :
  wf_interval a -> contains a x = true ->
  bound_ge (_lb a) (bound_of_int 0) = true -> 0 <= x.
Proof.
  intros [Hla _] Hx Hge. apply contains_inv in Hx as (_ & Hlx & _).
  rewrite bound_ge_le in Hge. apply z_bound_le_fin.
  apply (bound_le_trans _ (_lb a)); auto with wf.
Qed.


Lemma z_URem_sound (a b : z_interval) (x y r : Z) :
  wf_interval a -> wf_interval b ->
  contains a x = true -> contains b y = true ->
  0 < y -> 0 <= r < y -> (0 <= x -> r = x mod y) ->
  contains (z_URem a b) r = true.
Proof.
  intros Ha Hb Hx Hy Hy0 Hr Hrx.
  pose proof (contains_inv a x Hx) as (Hba & Hlx & Hxu).
  pose proof (contains_inv b y Hy) as (Hbb & Hly & Hyu).
  unfold z_URem. rewrite Hba, Hbb. cbn [orb].
  assert (Hgen :
    contains
      (if is_finite (_ub b) && is_finite (_lb b) then
         let max_divisor := _n (_ub b) in
         if bound_lt (_lb b) (bound_of_int 0)
            || bound_lt (_ub b) (bound_of_int 0) then top
         else if max_divisor =? 0 then bottom
         else interval_ctor (bound_of_int 0) (bound_of (max_divisor - 1))
       else top) r = true).
  { destruct (is_finite (_ub b) && is_finite (_lb b)) eqn:Hfin;
      [|apply contains_top].
    apply andb_true_iff in Hfin as [Hfu Hfl].
    destruct b as [[[|] lb] [[|] ub]]; try discriminate.
    cbn [_lb _ub _n] in *. cbv zeta.
    apply z_bound_le_fin in Hly, Hyu.
    destruct (bound_lt _ _ || bound_lt _ _); [apply contains_top|].
    destruct (Z.eqb_spec ub 0); [lia|].
    apply z_contains_fin; cbn [of_int z_number]. lia. }
  destruct (singleton a) as [d|] eqn:Hsa; [|exact Hgen].
  destruct (singleton b) as [c|] eqn:Hsb; [|exact Hgen].
  apply z_singleton_inv in Hsa, Hsb. subst a b.
  apply z_contains_interval_of in Hx, Hy. subst x y.
  destruct (Z.ltb_spec c 0); [lia|].
  destruct (Z.eqb_spec c 0); [lia|].
  destruct (Z.ltb_spec d 0).
  - apply z_contains_fin; cbn [of_int z_number]. lia.
  - apply z_contains_interval_of. rewrite Hrx by lia.
    symmetry. apply Z.rem_mod_nonneg; lia.
Qed.


Lemma z_shiftr_mono (x y k : Z) : x <= y -> Z.shiftr x k <= Z.shiftr y k.
Proof.
  intros Hxy. destruct (Z.le_gt_cases 0 k) as [Hk | Hk].
  - rewrite !Z.shiftr_div_pow2 by lia.
    apply Z.div_le_mono; [apply Z.pow_pos_nonneg; lia | exact Hxy].
  - rewrite <- (Z.opp_involutive k), !Z.shiftr_opp_r.
    rewrite !Z.shiftl_mul_pow2 by lia.
    apply Z.mul_le_mono_nonneg_r; [apply Z.pow_nonneg; lia | exact Hxy].
Qed.




(** * Widening with thresholds *)

Section Thresholds.
Context {N : Type} `{Number N}.

(** The two queries of the thresholds object ([get_prev] and [get_next] of
    crab/iterators/thresholds.hpp, which is not part of the sources). *)
Variables get_prev get_next : bound N -> bound N.

(* interval::widening_thresholds *)
Definition widening_thresholds (i x : interval N) : interval N :=
  if is_bottom i then x
  else if is_bottom x then i
  else
    let lb := if bound_lt (_lb x) (_lb i) then get_prev (_lb x) else _lb i in
    let ub := if bound_lt (_ub i) (_ub x) then get_next (_ub x) else _ub i in
    interval_ctor lb ub.

Lemma widening_thresholds_bounds (a b : interval N) :
  (forall x, wf_bound x ->
     wf_bound (get_prev x) /\ bound_le (get_prev x) x = true) ->
  (forall x, wf_bound x ->
     wf_bound (get_next x) /\ bound_le x (get_next x) = true) ->
  wf_interval a -> wf_interval b ->
  is_bottom a = false -> is_bottom b = false ->
  exists l u,
    widening_thresholds a b = Interval l u /\
    wf_bound l /\ wf_bound u /\ bound_le l u = true /\
    (bound_le l (_lb a) = true /\ bound_le (_ub a) u = true) /\
    (bound_le l (_lb b) = true /\ bound_le (_ub b) u = true).
Proof.
  intros Hprev Hnext [Hla Hua] [Hlb Hub] Hba Hbb.
  unfold widening_thresholds. rewrite Hba, Hbb. cbv zeta.
  assert (Hab : bound_le (_lb a) (_ub a) = true)
    by (apply bound_gt_false_le; exact Hba).
  assert (Hl : exists l,
    (if bound_lt (_lb b) (_lb a) then get_prev (_lb b) else _lb a) = l /\
    wf_bound l /\ bound_le l (_lb a) = true /\ bound_le l (_lb b) = true).
  { eexists. split; [reflexivity|].
    destruct (bound_lt (_lb b) (_lb a)) eqn:Hlt.
    - destruct (Hprev (_lb b) Hlb) as [Hw Hle].
      repeat split; auto.
      apply (bound_le_trans _ (_lb b)); auto.
      rewrite bound_lt_le in Hlt. apply negb_true_iff in Hlt.
      pose proof (bound_le_total (_lb a) (_lb b) Hla Hlb) as Ht.
      rewrite Hlt in Ht. exact Ht.
    - auto using bound_le_refl, bound_lt_false_le. }
  assert (Hu : exists u,
    (if bound_lt (_ub a) (_ub b) then get_next (_ub b) else _ub a) = u /\
    wf_bound u /\ bound_le (_ub a) u = true /\ bound_le (_ub b) u = true).
  { eexists. split; [reflexivity|].
    destruct (bound_lt (_ub a) (_ub b)) eqn:Hlt.
    - destruct (Hnext (_ub b) Hub) as [Hw Hle].
      repeat split; auto.
      apply (bound_le_trans _ (_ub b)); auto.
      rewrite bound_lt_le in Hlt. apply negb_true_iff in Hlt.
      pose proof (bound_le_total (_ub b) (_ub a) Hub Hua) as Ht.
      rewrite Hlt in Ht. exact Ht.
    - auto using bound_le_refl, bound_lt_false_le. }
  destruct Hl as (l & -> & Hl & Hl_a & Hl_b).
  destruct Hu as (u & -> & Hu & Hu_a & Hu_b).
  assert (Hlu : bound_le l u = true).
  { apply (bound_le_trans l (_lb a) u); auto.
    apply (bound_le_trans (_lb a) (_ub a) u); auto. }
  exists l, u. rewrite (interval_ctor_le _ _ Hlu). auto 10.
Qed.

End Thresholds.

Section HalfLines.
Context {N : Type} `{Number N}.

Lemma lower_half_line_contains (a : interval N) (x y : N) :
  wf_interval a -> contains a x = true -> n_leb y x = true ->
  contains (lower_half_line a) y = true.
Proof.
  intros [Hl Hu] Hx Hyx. apply contains_inv in Hx as (_ & _ & Hxu).
  unfold lower_half_line.
  apply contains_ctor; auto using minus_infinity_le with wf.
  apply (bound_le_trans _ (bound_of x)); auto with wf.
Qed.

Lemma upper_half_line_contains (a : interval N) (x y : N) :
  wf_interval a -> contains a x = true -> n_leb x y = true ->
  contains (upper_half_line a) y = true.
Proof.
  intros [Hl Hu] Hx Hxy. apply contains_inv in Hx as (_ & Hlx & _).
  unfold upper_half_line.
  apply contains_ctor; auto using plus_infinity_ge with wf.
  apply (bound_le_trans _ (bound_of x)); auto with wf.
Qed.

End HalfLines.

(** * Reading and writing the separate domain *)

Section SeparateDomainFacts.
Context {K : Type} `{Countable K} {V : Type} `{AbstractValue V}.

Lemma sd_set_not_bottom (s : separate_domain.t K V) (k : K) (v : V) :
  separate_domain.is_bottom s = false -> v_is_bottom v = false ->
  separate_domain.is_bottom (separate_domain.set k v s) = false.
Proof.
  intros Hs Hv. unfold separate_domain.set. rewrite Hs, Hv. cbn [negb].
  destruct (v_is_top v); exact Hs.
Qed.

Lemma sd_lookup_set_eq (s : separate_domain.t K V) (k : K) (v : V) :
  separate_domain.is_bottom s = false -> v_is_bottom v = false ->
  separate_domain.lookup k (separate_domain.set k v s) =
    if v_is_top v then v_top else v.
Proof.
  intros Hs Hv. unfold separate_domain.lookup.
  rewrite (sd_set_not_bottom s k v Hs Hv).
  unfold separate_domain.set. rewrite Hs, Hv. cbn [negb].
  destruct (v_is_top v); cbn [separate_domain._tree].
  - rewrite lookup_delete_eq. reflexivity.
  - rewrite lookup_insert_eq. reflexivity.
Qed.

Lemma sd_lookup_set_ne (s : separate_domain.t K V) (k k' : K) (v : V) :
  k <> k' ->
  separate_domain.is_bottom s = false -> v_is_bottom v = false ->
  separate_domain.lookup k' (separate_domain.set k v s) =
    separate_domain.lookup k' s.
Proof.
  intros Hne Hs Hv. unfold separate_domain.lookup.
  rewrite (sd_set_not_bottom s k v Hs Hv), Hs.
  unfold separate_domain.set. rewrite Hs, Hv. cbn [negb].
  destruct (v_is_top v); cbn [separate_domain._tree].
  - rewrite lookup_delete_ne by exact Hne. reflexivity.
  - rewrite lookup_insert_ne by exact Hne. reflexivity.
Qed.

Lemma sd_lookup_forget (s : separate_domain.t K V) (k k' : K) :
  separate_domain.is_bottom s = false ->
  separate_domain.is_bottom (separate_domain.forget k s) = false /\
  separate_domain.lookup k' (separate_domain.forget k s) =
    if decide (k = k') then v_top else separate_domain.lookup k' s.
Proof.
  intros Hs. unfold separate_domain.forget, separate_domain.lookup.
  rewrite Hs. cbn [negb]. unfold separate_domain.is_bottom in *.
  cbn [separate_domain._is_bottom separate_domain._tree]. rewrite Hs.
  split; [reflexivity|]. destruct (decide (k = k')) as [<- | Hne].
  - rewrite lookup_delete_eq. reflexivity.
  - rewrite lookup_delete_ne by exact Hne. reflexivity.
Qed.

End SeparateDomainFacts.

(** * The operators of the separate domain are pointwise *)

Ltac if_cases :=
  repeat match goal with
         | |- context [if ?c then _ else _] => destruct c eqn:?
         | H : context [if ?c then _ else _] |- _ => destruct c eqn:?
         end.

(** Evaluation of the interval operators on the shapes of the bounds. *)
Ltac shape_eval :=
  unfold stored_value, join, meet, widening, narrowing, is_top, is_bottom,
    interval_ctor, bottom, bound_max, bound_min, bound_gt, bound_lt,
    bound_ge, bound_le, is_plus_infinity, is_minus_infinity, n_geb in *;
  rewrite ?top_eq, ?plus_infinity_eq, ?minus_infinity_eq in *;
  cbn [_lb _ub] in *; lit_simpl.

Ltac shape_close :=
  rewrite ?orb_false_r, ?orb_true_r, ?andb_false_r, ?andb_true_r in *;
  try reflexivity; try discriminate; try congruence.

Section PointwiseValues.
Context {N : Type} `{Number N}.

Lemma stored_value_proper (x : interval N) :
  stored_value x ->
  is_plus_infinity (_lb x) = false /\ is_minus_infinity (_ub x) = false.
Proof.
  intros (Hx & Ht & Hb). z_interval_cases x Hx; shape_eval;
    revert Ht Hb; lit_simpl; intros Ht Hb;
    try discriminate; split; reflexivity.
Qed.

Lemma meet_top_r (x : interval N) :
  wf_interval x -> is_bottom x = false -> meet x top = x.
Proof.
  intros Hx. z_interval_cases x Hx; shape_eval; intros Hb;
    revert Hb; lit_simpl; intros Hb; if_cases; shape_close.
Qed.

Lemma meet_top_l (x : interval N) :
  wf_interval x -> is_bottom x = false -> meet top x = x.
Proof.
  intros Hx. z_interval_cases x Hx; shape_eval; intros Hb;
    revert Hb; lit_simpl; intros Hb; if_cases; shape_close.
Qed.

Lemma join_top_r (x : interval N) :
  wf_interval x -> is_bottom x = false -> join x top = top.
Proof.
  intros Hx. z_interval_cases x Hx; shape_eval; intros Hb;
    revert Hb; lit_simpl; intros Hb; if_cases; shape_close.
Qed.

Lemma join_top_l (x : interval N) :
  wf_interval x -> is_bottom x = false -> join top x = top.
Proof.
  intros Hx. z_interval_cases x Hx; shape_eval; intros Hb;
    revert Hb; lit_simpl; intros Hb; if_cases; shape_close.
Qed.

Lemma widening_top_r (x : interval N) :
  wf_interval x -> is_bottom x = false -> widening x top = top.
Proof.
  intros Hx. z_interval_cases x Hx; shape_eval; intros Hb;
    revert Hb; lit_simpl; intros Hb; if_cases; shape_close.
Qed.

Lemma widening_top_l (x : interval N) :
  wf_interval x -> is_bottom x = false -> widening top x = top.
Proof.
  intros Hx. z_interval_cases x Hx; shape_eval; intros Hb;
    revert Hb; lit_simpl; intros Hb; if_cases; shape_close.
Qed.

Lemma narrowing_top_r (x : interval N) :
  wf_interval x -> is_bottom x = false -> narrowing x top = x.
Proof.
  intros Hx. z_interval_cases x Hx; shape_eval; intros Hb;
    revert Hb; lit_simpl; intros Hb; if_cases; shape_close.
Qed.

Lemma narrowing_top_l (x : interval N) :
  stored_value x -> narrowing top x = x.
Proof.
  intros (Hx & Ht & Hb). z_interval_cases x Hx; shape_eval;
    revert Ht Hb; lit_simpl; intros Ht Hb; if_cases; shape_close.
Qed.

Lemma join_stored_top (x y : interval N) :
  stored_value x -> stored_value y ->
  is_top (join x y) = true -> join x y = top.
Proof.
  intros (Hx & Htx & Hbx) (Hy & Hty & Hby).
  z_interval_cases x Hx; z_interval_cases y Hy; shape_eval;
    revert Htx Hbx Hty Hby; lit_simpl; intros Htx Hbx Hty Hby Ht;
    try discriminate; if_cases; cbn [_lb _ub _is_infinite andb] in *;
    shape_close.
Qed.

Lemma widening_stored_top (x y : interval N) :
  stored_value x -> stored_value y ->
  is_top (widening x y) = true -> widening x y = top.
Proof.
  intros (Hx & Htx & Hbx) (Hy & Hty & Hby).
  z_interval_cases x Hx; z_interval_cases y Hy; shape_eval;
    revert Htx Hbx Hty Hby; lit_simpl; intros Htx Hbx Hty Hby Ht;
    try discriminate; if_cases; cbn [_lb _ub _is_infinite andb] in *;
    shape_close.
Qed.

End PointwiseValues.

Section Pointwise.
Context {N : Type} `{Number N} {K : Type} `{Countable K}.

Lemma stored_lookup (s : separate_domain.t K (interval N)) (k : K) :
  well_formed s -> separate_domain.is_bottom s = false ->
  wf_interval (separate_domain.lookup k s) /\
  is_bottom (separate_domain.lookup k s) = false.
Proof.
  intros Hs Hb. unfold separate_domain.lookup. rewrite Hb.
  destruct (separate_domain._tree s !! k) as [x|] eqn:Hk.
  - destruct (well_formed_stored s Hs Hb k x Hk) as (Hw & _ & Hbx). auto.
  - split; [apply wf_top | apply is_bottom_top].
Qed.

(** The value of a key after a merge by [join_op] or [widening_op]. *)
Lemma merged_absorbing_lookup
  (op : interval N -> interval N -> interval N)
  (o : binary_op_t (interval N))
  (a b : separate_domain.t K (interval N)) (t : gmap K (interval N)) (k : K) :
  (forall x y, apply o x y =
     if is_top (op x y) then Returns None else Returns (Some (op x y))) ->
  default_is_absorbing o = true ->
  (forall x, wf_interval x -> is_bottom x = false ->
     op x top = top /\ op top x = top) ->
  (forall x y, stored_value x -> stored_value y ->
     is_top (op x y) = true -> op x y = top) ->
  well_formed a -> well_formed b ->
  separate_domain.is_bottom a = false ->
  separate_domain.is_bottom b = false ->
  patricia_tree.merge_with o (separate_domain._tree a)
    (separate_domain._tree b) = Some t ->
  separate_domain.lookup k (separate_domain.Make false t) =
    op (separate_domain.lookup k a) (separate_domain.lookup k b).
Proof.
  intros Happ Habs Htop Hdrop Ha Hb Hba Hbb Hm.
  pose proof (well_formed_stored a Ha Hba) as Hsa.
  pose proof (well_formed_stored b Hb Hbb) as Hsb.
  unfold separate_domain.lookup. rewrite Hba, Hbb.
  cbn [separate_domain.is_bottom separate_domain._is_bottom
       separate_domain._tree].
  rewrite (patricia_tree.lookup_merge_with o _ _ t k Hm).
  unfold patricia_tree.merge_entry. rewrite Habs.
  destruct (separate_domain._tree a !! k) as [x|] eqn:Hx,
           (separate_domain._tree b !! k) as [y|] eqn:Hy.
  - rewrite Happ. destruct (is_top (op x y)) eqn:Ht; [|reflexivity].
    symmetry. apply Hdrop; eauto.
  - destruct (Hsa k x Hx) as (Hw & _ & Hbx).
    symmetry. apply Htop; assumption.
  - destruct (Hsb k y Hy) as (Hw & _ & Hby).
    symmetry. apply Htop; assumption.
  - symmetry. apply Htop; [apply wf_top | apply is_bottom_top].
Qed.

(** The value of a key after a merge by [meet_op] or [narrowing_op]. *)
Lemma merged_kept_lookup
  (op : interval N -> interval N -> interval N)
  (o : binary_op_t (interval N))
  (a b : separate_domain.t K (interval N)) (t : gmap K (interval N)) (k : K) :
  (forall x y, apply o x y =
     if is_bottom (op x y) then Throws_bottom_found
     else Returns (Some (op x y))) ->
  default_is_absorbing o = false ->
  (forall x, stored_value x -> op x top = x /\ op top x = x) ->
  op top top = top ->
  well_formed a -> well_formed b ->
  separate_domain.is_bottom a = false ->
  separate_domain.is_bottom b = false ->
  patricia_tree.merge_with o (separate_domain._tree a)
    (separate_domain._tree b) = Some t ->
  separate_domain.lookup k (separate_domain.Make false t) =
    op (separate_domain.lookup k a) (separate_domain.lookup k b).
Proof.
  intros Happ Habs Htop Htt Ha Hb Hba Hbb Hm.
  pose proof (well_formed_stored a Ha Hba) as Hsa.
  pose proof (well_formed_stored b Hb Hbb) as Hsb.
  unfold separate_domain.lookup. rewrite Hba, Hbb.
  cbn [separate_domain.is_bottom separate_domain._is_bottom
       separate_domain._tree].
  rewrite (patricia_tree.lookup_merge_with o _ _ t k Hm).
  unfold patricia_tree.merge_entry. rewrite Habs.
  destruct (separate_domain._tree a !! k) as [x|] eqn:Hx,
           (separate_domain._tree b !! k) as [y|] eqn:Hy.
  - destruct (apply o x y) as [z|] eqn:Hz.
    + rewrite Happ in Hz. destruct (is_bottom (op x y)); [discriminate|].
      injection Hz as <-. reflexivity.
    + rewrite (patricia_tree.merge_with_None o _ _ k x y Hx Hy Hz) in Hm.
      discriminate.
  - destruct (Htop x (Hsa k x Hx)) as [E _]. symmetry. exact E.
  - destruct (Htop y (Hsb k y Hy)) as [_ E]. symmetry. exact E.
  - symmetry. exact Htt.
Qed.

End Pointwise.

Section MembershipLattice.
Context {N : Type} `{Number N}.

Lemma contains_mono (a b : interval N) (n : N) :
  wf_interval a -> wf_interval b ->
  interval_le a b = true -> contains a n = true -> contains b n = true.
Proof.
  intros Ha Hb Hab. rewrite !contains_interval_le. intros Hn.
  apply (interval_le_trans _ a); auto with wf.
Qed.

Lemma contains_meet (a b : interval N) (n : N) :
  wf_interval a -> wf_interval b ->
  contains (meet a b) n = contains a n && contains b n.
Proof.
  intros Ha Hb. rewrite !contains_interval_le.
  assert (Hm : wf_interval (meet a b)) by (apply wf_meet; assumption).
  destruct (interval_le (interval_of n) (meet a b)) eqn:Hle.
  - symmetry. apply andb_true_iff. split.
    + apply (interval_le_trans _ (meet a b));
        auto using meet_lower_l with wf.
    + apply (interval_le_trans _ (meet a b));
        auto using meet_lower_r with wf.
  - symmetry. apply not_true_is_false. intros Hb2.
    apply andb_true_iff in Hb2 as [H1 H2].
    rewrite (meet_greatest a b (interval_of n)) in Hle;
      auto with wf. discriminate.
Qed.

Lemma contains_join (a b : interval N) (n : N) :
  wf_interval a -> wf_interval b ->
  contains a n || contains b n = true -> contains (join a b) n = true.
Proof.
  intros Ha Hb Hn. apply orb_true_iff in Hn as [Hn | Hn].
  - apply (contains_mono a); auto using wf_join, join_upper_l.
  - apply (contains_mono b); auto using wf_join, join_upper_r.
Qed.

Lemma widening_upper (a b : interval N) :
  wf_interval a -> wf_interval b ->
  interval_le a (widening a b) = true /\
  interval_le b (widening a b) = true.
Proof.
  intros Ha Hb.
  destruct (is_bottom a) eqn:Hba.
  { unfold widening. rewrite Hba.
    split; [apply interval_le_bottom; exact Hba | apply interval_le_refl]. }
  destruct (is_bottom b) eqn:Hbb.
  { unfold widening. rewrite Hba, Hbb.
    split; [apply interval_le_refl | apply interval_le_bottom; exact Hbb]. }
  destruct (widening_bounds a b Ha Hb Hba Hbb)
    as (l & u & -> & _ & _ & Hlu & [Hl_a Hu_a] & [Hl_b Hu_b]).
  split; apply interval_le_intro; cbn [_lb _ub]; auto;
    apply bound_le_gt_false; exact Hlu.
Qed.

Lemma contains_widening (a b : interval N) (n : N) :
  wf_interval a -> wf_interval b ->
  contains a n || contains b n = true -> contains (widening a b) n = true.
Proof.
  intros Ha Hb Hn. destruct (widening_upper a b Ha Hb) as [Hl Hr].
  apply orb_true_iff in Hn as [Hn | Hn].
  - apply (contains_mono a); auto using wf_widening.
  - apply (contains_mono b); auto using wf_widening.
Qed.

Lemma contains_narrowing (a b : interval N) (n : N) :
  wf_interval a -> wf_interval b ->
  contains a n = true -> contains b n = true ->
  contains (narrowing a b) n = true.
Proof.
  intros [Hla Hua] [Hlb Hub] Ha Hb.
  apply contains_inv in Ha as (Hba & Hl1 & Hu1).
  apply contains_inv in Hb as (Hbb & Hl2 & Hu2).
  unfold narrowing. rewrite Hba, Hbb. cbn [orb].
  apply contains_ctor.
  - destruct (is_infinite (_lb a) && is_finite (_lb b)); assumption.
  - destruct (is_infinite (_ub a) && is_finite (_ub b)); assumption.
  - destruct (is_infinite (_lb a) && is_finite (_lb b)); assumption.
  - destruct (is_infinite (_ub a) && is_finite (_ub b)); assumption.
Qed.

End MembershipLattice.

(** * Concretization of the separate domain *)

Section Gamma.
Context {N : Type} `{Number N} {K : Type} `{Countable K}.

(** The environments a state stands for: none for bottom, otherwise those
    that give every variable a value of its interval. *)
Definition in_gamma (env : K -> N) (s : separate_domain.t K (interval N)) : Prop :=
  separate_domain.is_bottom s = false /\
  forall k, contains (separate_domain.lookup k s) (env k) = true.

Lemma sd_join_pointwise (a b r : separate_domain.t K (interval N)) (k : K) :
  well_formed a -> well_formed b ->
  separate_domain.is_bottom a = false ->
  separate_domain.is_bottom b = false ->
  separate_domain.join a b = Some r ->
  separate_domain.is_bottom r = false /\
  separate_domain.lookup k r =
    join (separate_domain.lookup k a) (separate_domain.lookup k b).
Proof.
  intros Ha Hb Hba Hbb. unfold separate_domain.join.
  rewrite Hba, Hbb. unfold separate_domain.apply_operation.
  destruct (patricia_tree.merge_with separate_domain.join_op _ _)
    as [t|] eqn:Hm; [|discriminate].
  intros [= <-]. split; [reflexivity|].
  apply (merged_absorbing_lookup join separate_domain.join_op a b t k);
    auto using join_stored_top.
  intros x Hx Hbx. split; [apply join_top_r | apply join_top_l]; assumption.
Qed.

Lemma sd_widening_pointwise (a b r : separate_domain.t K (interval N)) (k : K) :
  well_formed a -> well_formed b ->
  separate_domain.is_bottom a = false ->
  separate_domain.is_bottom b = false ->
  separate_domain.widening a b = Some r ->
  separate_domain.is_bottom r = false /\
  separate_domain.lookup k r =
    widening (separate_domain.lookup k a) (separate_domain.lookup k b).
Proof.
  intros Ha Hb Hba Hbb. unfold separate_domain.widening.
  rewrite Hba, Hbb. unfold separate_domain.apply_operation.
  destruct (patricia_tree.merge_with separate_domain.widening_op _ _)
    as [t|] eqn:Hm; [|discriminate].
  intros [= <-]. split; [reflexivity|].
  apply (merged_absorbing_lookup widening separate_domain.widening_op
           a b t k); auto using widening_stored_top.
  intros x Hx Hbx.
  split; [apply widening_top_r | apply widening_top_l]; assumption.
Qed.

Lemma sd_meet_pointwise (a b : separate_domain.t K (interval N)) (k : K) :
  well_formed a -> well_formed b ->
  separate_domain.is_bottom (separate_domain.meet a b) = false ->
  separate_domain.lookup k (separate_domain.meet a b) =
    meet (separate_domain.lookup k a) (separate_domain.lookup k b).
Proof.
  intros Ha Hb. unfold separate_domain.meet.
  destruct (separate_domain.is_bottom a) eqn:Hba; [discriminate|].
  destruct (separate_domain.is_bottom b) eqn:Hbb; [discriminate|].
  cbn [orb]. unfold separate_domain.apply_operation.
  destruct (patricia_tree.merge_with separate_domain.meet_op _ _)
    as [t|] eqn:Hm; [|discriminate].
  intros _.
  apply (merged_kept_lookup meet separate_domain.meet_op a b t k); auto.
  - intros x (Hx & _ & Hbx).
    split; [apply meet_top_r | apply meet_top_l]; assumption.
  - apply meet_top_r; [apply wf_top | apply is_bottom_top].
Qed.

Lemma sd_narrowing_pointwise (a b : separate_domain.t K (interval N)) (k : K) :
  well_formed a -> well_formed b ->
  separate_domain.is_bottom (separate_domain.narrowing a b) = false ->
  separate_domain.lookup k (separate_domain.narrowing a b) =
    narrowing (separate_domain.lookup k a) (separate_domain.lookup k b).
Proof.
  intros Ha Hb. unfold separate_domain.narrowing.
  destruct (separate_domain.is_bottom a) eqn:Hba; [discriminate|].
  destruct (separate_domain.is_bottom b) eqn:Hbb; [discriminate|].
  cbn [orb]. unfold separate_domain.apply_operation.
  destruct (patricia_tree.merge_with separate_domain.narrowing_op _ _)
    as [t|] eqn:Hm; [|discriminate].
  intros _.
  apply (merged_kept_lookup narrowing separate_domain.narrowing_op
           a b t k); auto.
  - intros x Hx. pose proof Hx as (Hw & _ & Hbx).
    split; [apply narrowing_top_r | apply narrowing_top_l]; assumption.
  - apply narrowing_top_r; [apply wf_top | apply is_bottom_top].
Qed.

(** The meet of two states is bottom exactly when the meet of the two
    values of some key is. *)
Lemma sd_meet_bottom_iff
  (op : interval N -> interval N -> interval N)
  (o : binary_op_t (interval N))
  (a b : separate_domain.t K (interval N)) :
  (forall x y, apply o x y =
     if is_bottom (op x y) then Throws_bottom_found
     else Returns (Some (op x y))) ->
  (forall x, wf_interval x -> is_bottom x = false ->
     is_bottom (op x top) = false /\ is_bottom (op top x) = false) ->
  well_formed a -> well_formed b ->
  separate_domain.is_bottom a = false ->
  separate_domain.is_bottom b = false ->
  (patricia_tree.merge_with o (separate_domain._tree a)
     (separate_domain._tree b) = None <->
   exists k, is_bottom (op (separate_domain.lookup k a)
                           (separate_domain.lookup k b)) = true).
Proof.
  intros Happ Htop Ha Hb Hba Hbb.
  pose proof (well_formed_stored a Ha Hba) as Hsa.
  pose proof (well_formed_stored b Hb Hbb) as Hsb.
  unfold separate_domain.lookup. rewrite Hba, Hbb. split.
  - unfold patricia_tree.merge_with.
    destruct (patricia_tree.merge_throws o _ _) eqn:Ht; [|discriminate].
    intros _. apply patricia_tree.merge_throws_true in Ht
      as (k & x & y & Hx & Hy & Hthrow).
    exists k. rewrite Hx, Hy. rewrite Happ in Hthrow.
    destruct (is_bottom (op x y)); [reflexivity | discriminate].
  - intros (k & Hk).
    destruct (separate_domain._tree a !! k) as [x|] eqn:Hx,
             (separate_domain._tree b !! k) as [y|] eqn:Hy.
    + apply (patricia_tree.merge_with_None o _ _ k x y Hx Hy).
      rewrite Happ, Hk. reflexivity.
    + destruct (Hsa k x Hx) as (Hw & _ & Hbx).
      destruct (Htop x Hw Hbx) as [E _].
      cbn [v_top interval_value] in Hk. congruence.
    + destruct (Hsb k y Hy) as (Hw & _ & Hby).
      destruct (Htop y Hw Hby) as [_ E].
      cbn [v_top interval_value] in Hk. congruence.
    + destruct (Htop top wf_top is_bottom_top) as [E _].
      cbn [v_top interval_value] in Hk. congruence.
Qed.

End Gamma.

(** * Transfer functions of the interval domain over the integers *)

Module z_interval_domain.
Section ZIntervalDomain.
Context {K : Type} `{Countable K}.

Abbreviation t := (interval_domain.t Z K).

(** The operation codes that the [switch] statements of [apply]
    distinguish. *)
Inductive operation_t :=
  | OP_ADDITION | OP_SUBTRACTION | OP_MULTIPLICATION | OP_DIVISION.

Inductive div_operation_t :=
  | OP_SDIV | OP_UDIV | OP_SREM | OP_UREM.

(** The [switch] of [apply(operation_t, ...)] on the two intervals. *)
Definition arith (op : operation_t) (yi zi : z_interval) : result z_interval :=
  match op with
  | OP_ADDITION => interval_add yi zi
  | OP_SUBTRACTION => interval_sub yi zi
  | OP_MULTIPLICATION => Ok (interval_mul yi zi)
  | OP_DIVISION => z_div yi zi
  end.

(* apply(operation_t op, variable_t x, variable_t y, variable_t z) *)
Definition apply (op : operation_t) (x y z : K) (s : t) : result t :=
  let yi := interval_domain.lookup y s in
  let zi := interval_domain.lookup z s in
  xi ← arith op yi zi;
  Ok (interval_domain.set x xi s).

(* apply(operation_t op, variable_t x, variable_t y, Number k) *)
Definition apply_k (op : operation_t) (x y : K) (k : Z) (s : t) : result t :=
  let yi := interval_domain.lookup y s in
  let zi := interval_of k in
  xi ← arith op yi zi;
  Ok (interval_domain.set x xi s).

(** The [switch] of [apply(div_operation_t, ...)]. *)
Definition div_arith (op : div_operation_t) (yi zi : z_interval) : result z_interval :=
  match op with
  | OP_SDIV => z_div yi zi
  | OP_UDIV => Ok (UDiv yi zi)
  | OP_SREM => Ok (z_SRem yi zi)
  | OP_UREM => Ok (z_URem yi zi)
  end.

(* apply(div_operation_t op, variable_t x, variable_t y, variable_t z) *)
Definition apply_div (op : div_operation_t) (x y z : K) (s : t) : result t :=
  let yi := interval_domain.lookup y s in
  let zi := interval_domain.lookup z s in
  xi ← div_arith op yi zi;
  Ok (interval_domain.set x xi s).

(* apply(div_operation_t op, variable_t x, variable_t y, Number k) *)
Definition apply_div_k (op : div_operation_t) (x y : K) (k : Z) (s : t) : result t :=
  let yi := interval_domain.lookup y s in
  let zi := interval_of k in
  xi ← div_arith op yi zi;
  Ok (interval_domain.set x xi s).

(* operator[](linear_expression_t expr) *)
Definition eval (expr : interval_domain.linear_expression_t Z K) (s : t) : result z_interval :=
  interval_domain.eval_terms s
    (interval_of (interval_domain.constant expr))
    (interval_domain.terms expr).

End ZIntervalDomain.
End z_interval_domain.

(** The environment [env] with [x] set to [v]. *)
Definition env_set {K : Type} `{EqDecision K} {A : Type} (x : K) (v : A) (env : K -> A) : K -> A :=
  fun k => if decide (k = x) then v else env k.

(** The value of a linear expression in an environment. *)
Definition linear_value {K : Type} (e : interval_domain.linear_expression_t Z K) (env : K -> Z) : Z :=
  foldl (fun acc cv => acc + cv.1 * env cv.2)
        (interval_domain.constant e) (interval_domain.terms e).

Section SetSound.
Context {N : Type} `{Number N} {K : Type} `{Countable K}.

Lemma well_formed_set (s : separate_domain.t K (interval N)) (k : K) (v : interval N) :
  well_formed s -> wf_interval v ->
  well_formed (separate_domain.set k v s).
Proof.
  intros Hs Hv. unfold separate_domain.set.
  destruct (separate_domain.is_bottom s) eqn:Hb; cbn [negb]; [exact Hs|].
  pose proof (well_formed_stored s Hs Hb) as Hst.
  cbn [v_is_bottom v_is_top interval_value].
  destruct (is_bottom v) eqn:Hbv; [apply well_formed_bottom|].
  unfold separate_domain.is_bottom in Hb. rewrite Hb.
  destruct (is_top v) eqn:Htv; apply stored_well_formed.
  - apply map_Forall_delete. exact Hst.
  - apply map_Forall_insert_2; [repeat split; auto; apply Hv | exact Hst].
Qed.

(** Binding [x] to an interval that contains [v] over-approximates the
    assignment of [v] to [x]. *)
Lemma in_gamma_set (env : K -> N) (s : separate_domain.t K (interval N))
      (x : K) (i : interval N) (v : N) :
  in_gamma env s -> contains i v = true ->
  in_gamma (env_set x v env) (separate_domain.set x i s).
Proof.
  intros [Hb Henv] Hv.
  pose proof (contains_inv i v Hv) as (Hbi & _).
  split; [apply sd_set_not_bottom; assumption|].
  intros k. unfold env_set. destruct (decide (k = x)) as [-> | Hne].
  - rewrite sd_lookup_set_eq by assumption.
    cbn [v_is_top v_top interval_value].
    destruct (is_top i); [apply contains_top | exact Hv].
  - rewrite sd_lookup_set_ne by auto. apply Henv.
Qed.

End SetSound.

Section ZTransferSound.
Context {K : Type} `{Countable K}.

Lemma z_set_sound (env : K -> Z) (s : interval_domain.t Z K)
      (x : K) (r : z_interval) (v : Z) :
  in_gamma env (interval_domain._env s) ->
  well_formed (interval_domain._env s) ->
  wf_interval r -> contains r v = true ->
  in_gamma (env_set x v env)
    (interval_domain._env (interval_domain.set x r s)) /\
  well_formed (interval_domain._env (interval_domain.set x r s)).
Proof.
  intros Hg Hw Hr Hv. unfold interval_domain.set.
  cbn [interval_domain._env].
  split; [apply in_gamma_set | apply well_formed_set]; assumption.
Qed.

Lemma z_lookup_sound (env : K -> Z) (s : interval_domain.t Z K) (y : K) :
  in_gamma env (interval_domain._env s) ->
  well_formed (interval_domain._env s) ->
  wf_interval (interval_domain.lookup y s) /\
  contains (interval_domain.lookup y s) (env y) = true.
Proof.
  intros [Hb Henv] Hw. unfold interval_domain.lookup.
  split; [apply stored_lookup; assumption | apply Henv].
Qed.

(** The loop of [assign] keeps the value of the terms read so far inside
    the interval accumulated so far. *)
Lemma z_eval_terms_sound (env : K -> Z) (s : interval_domain.t Z K)
      (ts : list (Z * K)) (r : z_interval) (v : Z) :
  in_gamma env (interval_domain._env s) ->
  well_formed (interval_domain._env s) ->
  wf_interval r -> contains r v = true ->
  exists r', interval_domain.eval_terms s r ts = Ok r' /\
             wf_interval r' /\
             contains r' (foldl (fun acc cv => acc + cv.1 * env cv.2) v ts)
               = true.
Proof.
  intros Hg Hw. unfold interval_domain.eval_terms.
  revert r v. induction ts as [|[c k] ts IH]; intros r v Hr Hv.
  - exists r. auto.
  - cbn [foldl]. destruct (z_lookup_sound env s k Hg Hw) as [Hwk Hck].
    destruct (z_interval_mul_sound (interval_of c)
                (interval_domain.lookup k s) c (env k))
      as [Hwm Hcm]; auto with wf.
    { apply z_contains_interval_of. reflexivity. }
    destruct (z_interval_add_sound r
                (interval_mul (interval_of c) (interval_domain.lookup k s))
                v (c * env k) Hr Hwm Hv Hcm) as (r1 & E1 & Hw1 & Hc1).
    cbn [fst snd mbind result_bind]. rewrite E1.
    apply IH; assumption.
Qed.

End ZTransferSound.

(** * The exported constraints *)

Section ExportConstraints.
Context {N : Type} `{Number N} {K : Type} `{Countable K}.

(** An environment satisfies a constraint. *)
Definition satisfies (env : K -> N) (c : interval_domain.linear_constraint_t N K) : Prop :=
  match c with
  | interval_domain.get_false => False
  | interval_domain.geq v n => n_leb n (env v) = true
  | interval_domain.leq v n => n_leb (env v) n = true
  end.

Lemma stored_contains_iff (i : interval N) (n : N) :
  stored_value i ->
  (contains i n = true <->
   (is_finite (_lb i) = true -> n_leb (_n (_lb i)) n = true) /\
   (is_finite (_ub i) = true -> n_leb n (_n (_ub i)) = true)).
Proof.
  intros (Hi & Ht & Hb). unfold contains. rewrite Hb.
  z_interval_cases i Hi; shape_eval; revert Ht Hb; lit_simpl;
    intros Ht Hb; try discriminate;
    rewrite ?andb_true_r, ?andb_true_iff; cbn [andb];
    intuition; discriminate.
Qed.

Lemma satisfies_constraints_of (env : K -> N) (v : K) (i : interval N) :
  Forall (satisfies env) (interval_domain.constraints_of (v, i)) <->
  (is_finite (_lb i) = true -> n_leb (_n (_lb i)) (env v) = true) /\
  (is_finite (_ub i) = true -> n_leb (env v) (_n (_ub i)) = true).
Proof.
  unfold interval_domain.constraints_of, number, is_finite, is_infinite.
  cbn [fst snd]. rewrite Forall_app.
  destruct (_is_infinite (_lb i)), (_is_infinite (_ub i)); cbn [negb];
    rewrite ?Forall_cons_iff, ?Forall_nil; cbn [satisfies];
    intuition; discriminate.
Qed.

Lemma tree_export_exact (env : K -> N) (t : gmap K (interval N)) :
  map_Forall (fun _ v => stored_value v) t ->
  (Forall (satisfies env)
     (flat_map interval_domain.constraints_of (map_to_list t)) <->
   forall k, contains (separate_domain.lookup k (separate_domain.Make false t))
               (env k) = true).
Proof.
  intros Hst. unfold separate_domain.lookup.
  cbn [separate_domain.is_bottom separate_domain._is_bottom
       separate_domain._tree v_top interval_value].
  rewrite Forall_flat_map, Forall_forall. split.
  - intros Hall k. destruct (t !! k) as [i|] eqn:Hk; [|apply contains_top].
    apply stored_contains_iff; [exact (Hst k i Hk)|].
    apply satisfies_constraints_of, Hall.
    apply elem_of_map_to_list. exact Hk.
  - intros Hall [v i] Hin. apply elem_of_map_to_list in Hin.
    apply satisfies_constraints_of.
    apply stored_contains_iff; [exact (Hst v i Hin)|].
    specialize (Hall v). rewrite Hin in Hall. exact Hall.
Qed.

End ExportConstraints.

(** * Values of the operations on integers *)

Lemma wf_z_SRem (a b : z_interval) : wf_interval (z_SRem a b).
Proof.
  unfold z_SRem.
  repeat match goal with
         | |- context [if ?c then _ else _] => destruct c
         | |- context [match ?c with Some _ => _ | None => _ end] => destruct c
         end; auto with wf.
Qed.

Lemma wf_z_URem (a b : z_interval) : wf_interval (z_URem a b).
Proof.
  unfold z_URem.
  repeat match goal with
         | |- context [if ?c then _ else _] => destruct c
         | |- context [match ?c with Some _ => _ | None => _ end] => destruct c
         end; auto with wf.
Qed.

Lemma contains_not_bottom {N} `{Number N} (a : interval N) (n : N) :
  contains a n = true -> is_bottom a = false.
Proof.
  intros Hc. destruct (is_bottom a) eqn:Hb; [|reflexivity].
  unfold contains in Hc. rewrite Hb in Hc. discriminate.
Qed.

(** The number an arithmetic operation of [operation_t] computes. *)
Definition operation_value (op : z_interval_domain.operation_t) (a b : Z) : Z :=
  match op with
  | z_interval_domain.OP_ADDITION => a + b
  | z_interval_domain.OP_SUBTRACTION => a - b
  | z_interval_domain.OP_MULTIPLICATION => a * b
  | z_interval_domain.OP_DIVISION => a ÷ b
  end.

(** The numbers [v] a division operation of [div_operation_t] may compute
    from [a] and [b]; the unsigned operations read their operands as
    unsigned integers of a width the domain does not know, so that they
    are determined for operands that are not negative only. *)
Definition div_operation_value
  (op : z_interval_domain.div_operation_t) (a b v : Z) : Prop :=
  match op with
  | z_interval_domain.OP_SDIV => b <> 0 /\ v = a ÷ b
  | z_interval_domain.OP_UDIV => True
  | z_interval_domain.OP_SREM => b <> 0 /\ v = Z.rem a b
  | z_interval_domain.OP_UREM =>
      0 < b /\ 0 <= v < b /\ (0 <= a -> v = a mod b)
  end.

(** * Join and widening of states return; meet and narrowing collapse *)

Section SeparateDomainReturns.
Context {K : Type} `{Countable K} {V : Type} `{AbstractValue V}.

Lemma sd_join_returns (a b : separate_domain.t K V) :
  is_Some (separate_domain.join a b).
Proof.
  unfold separate_domain.join.
  destruct (separate_domain.is_bottom a); [eauto|].
  destruct (separate_domain.is_bottom b); [eauto|].
  unfold separate_domain.apply_operation.
  destruct (patricia_tree.merge_with_Some separate_domain.join_op
              (separate_domain._tree a) (separate_domain._tree b))
    as [t Ht].
  - intros x y. cbn. destruct (v_is_top (v_join x y)); discriminate.
  - rewrite Ht. cbn. eauto.
Qed.

Lemma sd_widening_returns (a b : separate_domain.t K V) :
  is_Some (separate_domain.widening a b).
Proof.
  unfold separate_domain.widening.
  destruct (separate_domain.is_bottom a); [eauto|].
  destruct (separate_domain.is_bottom b); [eauto|].
  unfold separate_domain.apply_operation.
  destruct (patricia_tree.merge_with_Some separate_domain.widening_op
              (separate_domain._tree a) (separate_domain._tree b))
    as [t Ht].
  - intros x y. cbn. destruct (v_is_top (v_widening x y)); discriminate.
  - rewrite Ht. cbn. eauto.
Qed.

Lemma sd_join_not_bottom (a b r : separate_domain.t K V) :
  separate_domain.is_bottom a = false ->
  separate_domain.is_bottom b = false ->
  separate_domain.join a b = Some r ->
  separate_domain.is_bottom r = false.
Proof.
  intros Hba Hbb Hj. unfold separate_domain.join in Hj.
  rewrite Hba, Hbb in Hj.
  destruct (separate_domain.apply_operation _ _ _); [|discriminate].
  cbn in Hj. injection Hj as <-. reflexivity.
Qed.

Lemma sd_widening_not_bottom (a b r : separate_domain.t K V) :
  separate_domain.is_bottom a = false ->
  separate_domain.is_bottom b = false ->
  separate_domain.widening a b = Some r ->
  separate_domain.is_bottom r = false.
Proof.
  intros Hba Hbb Hw. unfold separate_domain.widening in Hw.
  rewrite Hba, Hbb in Hw.
  destruct (separate_domain.apply_operation _ _ _); [|discriminate].
  cbn in Hw. injection Hw as <-. reflexivity.
Qed.

End SeparateDomainReturns.

Section Collapse.
Context {N : Type} `{Number N} {K : Type} `{Countable K}.

Lemma sd_meet_collapses (a b : separate_domain.t K (interval N)) :
  well_formed a -> well_formed b ->
  separate_domain.is_bottom a = false ->
  separate_domain.is_bottom b = false ->
  (separate_domain.is_bottom (separate_domain.meet a b) = true <->
   exists k, is_bottom (meet (separate_domain.lookup k a)
                             (separate_domain.lookup k b)) = true).
Proof.
  intros Ha Hb Hba Hbb.
  rewrite <- (sd_meet_bottom_iff meet separate_domain.meet_op a b);
    try assumption.
  - unfold separate_domain.meet, separate_domain.apply_operation.
    rewrite Hba, Hbb. cbn [orb].
    destruct (patricia_tree.merge_with _ _ _); cbn; split;
      congruence.
  - reflexivity.
  - intros x Hx Hbx. rewrite meet_top_r, meet_top_l by assumption. auto.
Qed.

Lemma narrowing_top_l_not_bottom (x : interval N) :
  wf_interval x -> is_bottom x = false ->
  is_bottom (narrowing top x) = false.
Proof.
  intros Hx. z_interval_cases x Hx; shape_eval; intros Hb;
    revert Hb; lit_simpl; intros Hb; if_cases; shape_close.
  all: cbn [_lb _ub] in *; lit_simpl; shape_close.
Qed.

Lemma sd_narrowing_collapses (a b : separate_domain.t K (interval N)) :
  well_formed a -> well_formed b ->
  separate_domain.is_bottom a = false ->
  separate_domain.is_bottom b = false ->
  (separate_domain.is_bottom (separate_domain.narrowing a b) = true <->
   exists k, is_bottom (narrowing (separate_domain.lookup k a)
                                  (separate_domain.lookup k b)) = true).
Proof.
  intros Ha Hb Hba Hbb.
  rewrite <- (sd_meet_bottom_iff narrowing separate_domain.narrowing_op a b);
    try assumption.
  - unfold separate_domain.narrowing, separate_domain.apply_operation.
    rewrite Hba, Hbb. cbn [orb].
    destruct (patricia_tree.merge_with _ _ _); cbn; split;
      congruence.
  - reflexivity.
  - intros x Hx Hbx.
    rewrite narrowing_top_r by assumption.
    split; [exact Hbx | apply narrowing_top_l_not_bottom; assumption].
Qed.

End Collapse.

(** * Division of rational intervals *)

Abbreviation q_bound := (bound Q).
Abbreviation q_interval := (interval Q).

(* interval<q_number>::operator/ *)
Definition q_div (i x : q_interval) : result q_interval :=
  if is_bottom i || is_bottom x then Ok bottom
  else if match singleton x with
          | Some d => n_eqb d (of_int 0)
          | None => false
          end
  then Ok bottom   (* [_, _] / 0 = _|_ *)
  else if contains x (of_int 0) then
    if match singleton i with
       | Some n => n_eqb n (of_int 0)
       | None => false
       end
    then Ok (interval_of (of_int 0))   (* 0 / [_, _] = 0 *)
    else Ok top
  else
    ll ← bound_div (_lb i) (_lb x);
    lu ← bound_div (_lb i) (_ub x);
    ul ← bound_div (_ub i) (_lb x);
    uu ← bound_div (_ub i) (_ub x);
    Ok (interval_ctor (bound_min4 ll lu ul uu) (bound_max4 ll lu ul uu)).

Section NonzeroBounds.
Context {N : Type} `{Number N}.

(** The bounds of an interval that does not contain 0 are not 0. *)
Lemma nonzero_bounds (x : interval N) :
  wf_interval x -> is_bottom x = false -> contains x (of_int 0) = false ->
  n_eqb (_n (_lb x)) (of_int 0) = false /\
  n_eqb (_n (_ub x)) (of_int 0) = false.
Proof.
  intros Hx Hb Hc. unfold contains in Hc. rewrite Hb in Hc.
  revert Hb Hc.
  z_interval_cases x Hx;
    unfold is_bottom, bound_gt, bound_le, bound_of, n_gtb;
    cbn [_lb _ub _n _is_infinite xorb negb];
    rewrite ?n_ltb_spec, ?n_eqb_spec; lit_simpl; intros Hb Hc.
  all: try (split; reflexivity).
  all: repeat match goal with
         | |- context [n_leb ?a ?b] =>
             lazymatch goal with
             | _ : n_leb a b = _ |- _ => fail
             | _ => destruct (n_leb a b) eqn:?
             end
         end; cbn in *; try discriminate; auto.
  all: exfalso; apply negb_false_iff in Hb;
    match goal with
    | H1 : n_leb ?a ?b = true, H2 : n_leb ?b ?c = true,
      H3 : n_leb ?a ?c = false |- _ =>
        rewrite (n_leb_trans _ _ _ H1 H2) in H3; discriminate H3
    end.
Qed.

End NonzeroBounds.

Lemma bound_div_ok {N} `{Number N} (b x : bound N) :
  wf_bound b -> wf_bound x -> n_eqb (_n x) (of_int 0) = false ->
  exists r, bound_div b x = Ok r /\ wf_bound r.
Proof.
  intros Hb Hx Hz.
  destruct (bound_div b x) as [r | e] eqn:Hd.
  - exists r. split; [reflexivity|]. exact (wf_bound_div b x r Hb Hx Hd).
  - exfalso. revert Hd. unfold bound_div. rewrite Hz.
    repeat match goal with |- context [if ?c then _ else _] => destruct c end;
      discriminate.
Qed.

(** The division of rational intervals returns, with well-formed
    bounds. *)
Lemma q_div_ok (i x : q_interval) :
  wf_interval i -> wf_interval x ->
  exists r, q_div i x = Ok r /\ wf_interval r.
Proof.
  intros Hi Hx. unfold q_div.
  destruct (is_bottom i || is_bottom x) eqn:Hb; [eauto with wf|].
  apply orb_false_iff in Hb as [Hbi Hbx].
  destruct (match singleton x with Some d => _ | None => _ end);
    [eauto with wf|].
  destruct (contains x (of_int 0)) eqn:Hc.
  { destruct (match singleton i with Some n => _ | None => _ end);
      eauto with wf. }
  destruct (nonzero_bounds x Hx Hbx Hc) as [Hl Hu].
  destruct Hi as [Hil Hiu], Hx as [Hxl Hxu].
  destruct (bound_div_ok (_lb i) (_lb x) Hil Hxl Hl) as (ll & -> & Hll).
  destruct (bound_div_ok (_lb i) (_ub x) Hil Hxu Hu) as (lu & -> & Hlu).
  destruct (bound_div_ok (_ub i) (_lb x) Hiu Hxl Hl) as (ul & -> & Hul).
  destruct (bound_div_ok (_ub i) (_ub x) Hiu Hxu Hu) as (uu & -> & Huu).
  cbn. eexists. split; [reflexivity|].
  apply wf_interval_ctor; [apply wf_bound_min4 | apply wf_bound_max4];
    assumption.
Qed.

(** * States that constrain one variable *)

Section OneVariable.
Context {K : Type} `{Countable K}.

Lemma well_formed_singleton (k : K) (l u : Z) :
  l <= u ->
  well_formed (separate_domain.Make false
    {[ k := interval_ctor (@bound_of Z l) (bound_of u) ]}).
Proof.
  intros Hlu. apply stored_well_formed, map_Forall_singleton.
  assert (Hle : bound_le (@bound_of Z l) (bound_of u) = true)
    by (apply Z.leb_le; exact Hlu).
  rewrite (interval_ctor_le _ _ Hle).
  split; [split; apply wf_bound_of|].
  split; [reflexivity | apply bound_le_gt_false; exact Hle].
Qed.

Lemma in_gamma_singleton (k : K) (l u : Z) (env : K -> Z) :
  l <= env k <= u ->
  in_gamma env (separate_domain.Make false
    {[ k := interval_ctor (@bound_of Z l) (bound_of u) ]}).
Proof.
  intros Hk. split; [reflexivity|]. intros k'.
  unfold separate_domain.lookup.
  cbn [separate_domain.is_bottom separate_domain._is_bottom
       separate_domain._tree].
  destruct (decide (k' = k)) as [-> | Hne].
  - rewrite lookup_singleton_eq. apply z_contains_fin. exact Hk.
  - rewrite lookup_singleton_ne by congruence. apply contains_top.
Qed.

End OneVariable.

(** * Properties of the specification *)

Section BoundClaims.
Context {N : Type} `{Number N}.

(** C7. The comparison of extended bounds is a total order: any two bounds
    are comparable, [<=] is reflexive, transitive and antisymmetric up to
    [operator==]; [operator<=] and [operator>=] agree with the order
    "-oo < any finite < +oo" on every combination of finite and infinite
    operands, and -oo is strictly below, +oo strictly above every finite
    bound. *)
Theorem bound_order_total (a b c : bound N) :
  wf_bound a -> wf_bound b -> wf_bound c ->
  (bound_le a b = true \/ bound_le b a = true) /\
  bound_le a a = true /\
  (bound_le a b = true -> bound_le b c = true -> bound_le a c = true) /\
  (bound_le a b = true -> bound_le b a = true -> bound_eq a b = true) /\
  bound_le a b = spec_le (view a) (view b) /\
  bound_ge a b = spec_le (view b) (view a) /\
  (forall n, bound_lt minus_infinity (bound_of n) = true /\
             bound_lt (bound_of n) plus_infinity = true).
Proof.
  intros Ha Hb Hc. repeat split.
  - apply orb_true_iff, bound_le_total; assumption.
  - apply bound_le_refl.
  - apply bound_le_trans; assumption.
  - apply bound_le_antisym; assumption.
  - apply bound_le_spec; assumption.
  - rewrite bound_ge_le. apply bound_le_spec; assumption.
  - rewrite bound_lt_le, minus_infinity_eq. unfold bound_le. lit_simpl.
    reflexivity.
  - rewrite bound_lt_le, plus_infinity_eq. unfold bound_le. lit_simpl.
    reflexivity.
Qed.

(** C5. Bound addition fails exactly on opposite infinities and bound
    division exactly on a zero divisor; in every other case they return
    the bound that the addition and sign rules of the specification
    give. *)
Theorem bound_arith_errors (a b : bound N) :
  wf_bound a -> wf_bound b ->
  (* addition *)
  match bound_add a b with
  | Ok r => wf_bound r /\ spec_add (view a) (view b) = Some (view r)
  | Crab_error e =>
      e = Undefined_oo_sum /\
      (is_plus_infinity a && is_minus_infinity b
       || is_minus_infinity a && is_plus_infinity b) = true
  end /\
  ((is_plus_infinity a && is_minus_infinity b
    || is_minus_infinity a && is_plus_infinity b) = true ->
   bound_add a b = Crab_error Undefined_oo_sum) /\
  (* division *)
  match bound_div a b with
  | Ok r => wf_bound r /\ spec_div (view a) (view b) = Some (view r)
  | Crab_error e =>
      e = Division_by_zero /\ bound_eq b (bound_of_int 0) = true
  end /\
  (bound_eq b (bound_of_int 0) = true ->
   bound_div a b = Crab_error Division_by_zero).
Proof.
  intros Ha Hb. repeat split.
  - bound_cases a Ha; bound_cases b Hb;
      unfold bound_add, view, number, spec_add;
      unfold is_plus_infinity, is_minus_infinity; lit_simpl; auto with wf.
  - bound_cases a Ha; bound_cases b Hb;
      unfold bound_add, is_plus_infinity, is_minus_infinity;
      lit_simpl; intros Ho; try discriminate; reflexivity.
  - bound_cases a Ha; bound_cases b Hb;
      unfold bound_div, bound_eq, view, number, spec_div, oo_sign_product,
        bound_neg, bound_ctor, is_positive;
      unfold is_plus_infinity, is_minus_infinity; lit_simpl;
      try sign_cases n; try sign_cases n0; simpl; lit_simpl; simpl;
      auto with wf.
  - bound_cases b Hb; unfold bound_eq; lit_simpl; try discriminate.
    intros Hz. unfold bound_div. cbn [_n bound_of]. rewrite Hz. reflexivity.
Qed.

End BoundClaims.

Section IntervalClaims.
Context {N : Type} `{Number N}.

(** C6. Normalization: an interval built from bounds with [lb > ub] is
    [bottom()], the pair (0, -1); the singleton constructor applied to an
    infinite bound is [bottom()] too; and on constructed intervals
    [is_bottom] holds exactly for this normalized value. *)
Theorem interval_normalization (lb ub b : bound N) :
  bottom = Interval (bound_of_int 0) (bound_of_int (-1)) /\
  (bound_gt lb ub = true -> interval_ctor lb ub = bottom) /\
  (is_infinite b = true -> interval_of_bound b = bottom) /\
  (is_bottom (interval_ctor lb ub) = true <-> interval_ctor lb ub = bottom) /\
  (is_bottom (interval_of_bound b) = true <-> interval_of_bound b = bottom) /\
  (forall n, is_bottom (interval_of n) = false) /\
  is_bottom (interval_ctor lb ub) = bound_gt lb ub /\
  is_bottom (interval_of_bound b) = is_infinite b.
Proof.
  split; [reflexivity|]. split; [apply interval_ctor_gt|].
  split; [intros Hb; unfold interval_of_bound; rewrite Hb; reflexivity|].
  split; [|split; [|split; [|split; [apply is_bottom_ctor|]]]].
  4:{ unfold interval_of_bound. destruct (is_infinite b);
        [apply is_bottom_bottom|].
      unfold is_bottom, bound_gt. cbn [_lb _ub]. rewrite bound_le_refl.
      reflexivity. }
  - rewrite is_bottom_ctor. split.
    + apply interval_ctor_gt.
    + intros Heq. rewrite <- is_bottom_ctor, Heq. apply is_bottom_bottom.
  - split.
    + unfold interval_of_bound. destruct (is_infinite b); [reflexivity|].
      unfold is_bottom, bound_gt. cbn [_lb _ub]. rewrite bound_le_refl.
      discriminate.
    + intros ->. apply is_bottom_bottom.
  - intros n. unfold is_bottom, bound_gt, interval_of. cbn [_lb _ub].
    rewrite bound_le_refl. reflexivity.
Qed.

(** C1. Widening is sound on intervals: both operands are included in
    [a || b]. *)
Theorem widening_sound (a b : interval N) :
  wf_interval a -> wf_interval b ->
  interval_le a (widening a b) = true /\
  interval_le b (widening a b) = true.
Proof.
  intros Ha Hb.
  destruct (is_bottom a) eqn:Hba.
  { unfold widening. rewrite Hba.
    split; [apply interval_le_bottom; exact Hba|].
    unfold interval_le. destruct (is_bottom b); [reflexivity|].
    rewrite !bound_le_refl. reflexivity. }
  destruct (is_bottom b) eqn:Hbb.
  { unfold widening. rewrite Hba, Hbb.
    split; [|apply interval_le_bottom; exact Hbb].
    unfold interval_le. rewrite Hba, !bound_le_refl. reflexivity. }
  destruct (widening_bounds a b Ha Hb Hba Hbb)
    as (l & u & -> & _ & _ & Hlu & [Hl_a Hu_a] & [Hl_b Hu_b]).
  unfold interval_le, is_bottom at 2 4. cbn [_lb _ub].
  rewrite Hba, Hbb, (bound_le_gt_false _ _ Hlu), Hl_a, Hu_a, Hl_b, Hu_b.
  split; reflexivity.
Qed.

(** C3. Narrowing is sandwiched between the meet and the left operand:
    for every pair of intervals, the left one being bottom or holding a
    number (the values of the domain: bottom is the one representation of
    the empty set), the meet is included in the narrowing and the
    narrowing in the left operand. *)
Theorem narrowing_sandwich (a b : interval N) :
  wf_interval a -> wf_interval b ->
  (is_bottom a = true \/ exists n, contains a n = true) ->
  interval_le (meet a b) (narrowing a b) = true /\
  interval_le (narrowing a b) a = true.
Proof.
  intros [Hla Hua] [Hlb Hub] Hvalue. unfold meet, narrowing.
  destruct (is_bottom a || is_bottom b) eqn:Hbot.
  { split; apply interval_le_bottom, is_bottom_bottom. }
  apply orb_false_iff in Hbot as [Hba Hbb].
  (* the left operand holds a number: its bounds are proper *)
  assert (Hproper : is_plus_infinity (_lb a) = false /\
                    is_minus_infinity (_ub a) = false).
  { destruct Hvalue as [Hb | [n Hn]]; [congruence|].
    apply contains_inv in Hn as (_ & Hln & Hnu).
    split; [exact (below_number_not_plus _ n Hla Hln)
           | exact (above_number_not_minus _ n Hua Hnu)]. }
  assert (Hl : exists l,
    (if is_infinite (_lb a) && is_finite (_lb b) then _lb b else _lb a) = l /\
    wf_bound l /\ bound_le l (bound_max (_lb a) (_lb b)) = true /\
    (is_plus_infinity (_lb a) = false -> bound_le (_lb a) l = true)).
  { eexists. split; [reflexivity|].
    destruct (is_infinite (_lb a) && is_finite (_lb b)) eqn:Hc.
    - apply andb_true_iff in Hc as [Hi _].
      repeat split; auto using bound_max_ge_r.
      intros Hnp. rewrite (infinite_not_plus _ Hla Hi Hnp).
      apply minus_infinity_le; assumption.
    - auto using bound_max_ge_l, bound_le_refl. }
  assert (Hu : exists u,
    (if is_infinite (_ub a) && is_finite (_ub b) then _ub b else _ub a) = u /\
    wf_bound u /\ bound_le (bound_min (_ub a) (_ub b)) u = true /\
    (is_minus_infinity (_ub a) = false -> bound_le u (_ub a) = true)).
  { eexists. split; [reflexivity|].
    destruct (is_infinite (_ub a) && is_finite (_ub b)) eqn:Hc.
    - apply andb_true_iff in Hc as [Hi _].
      repeat split; auto using bound_min_le_r.
      intros Hnm. rewrite (infinite_not_minus _ Hua Hi Hnm).
      apply plus_infinity_ge; assumption.
    - auto using bound_min_le_l, bound_le_refl. }
  destruct Hl as (l & -> & Hl & Hl_m & Hl_a).
  destruct Hu as (u & -> & Hu & Hu_m & Hu_a).
  split.
  - destruct (is_bottom (interval_ctor (bound_max (_lb a) (_lb b))
                           (bound_min (_ub a) (_ub b)))) eqn:Hm.
    { apply interval_le_bottom. exact Hm. }
    pose proof Hm as Hgt. rewrite is_bottom_ctor in Hgt.
    rewrite (interval_ctor_le (bound_max _ _) (bound_min _ _))
      by (apply bound_gt_false_le; exact Hgt).
    apply interval_le_ctor; auto.
    split; cbn [_lb _ub]; auto with wf.
  - destruct Hproper as [Hnp Hnm].
    destruct (is_bottom (interval_ctor l u)) eqn:Hn.
    { apply interval_le_bottom. exact Hn. }
    pose proof Hn as Hgt. rewrite is_bottom_ctor in Hgt.
    rewrite interval_ctor_le in * by (apply bound_gt_false_le; exact Hgt).
    unfold interval_le. rewrite Hn, Hba. cbn [_lb _ub].
    rewrite Hl_a, Hu_a by assumption. reflexivity.
Qed.

End IntervalClaims.

(** The condition on the left operand is needed.  The two-bound
    constructor accepts the pair [+oo, +oo], which holds no number and is
    not bottom (the one-bound constructor turns it into bottom); narrowing
    it with [3, 4] gives [3, 4], which is not included in it. *)
Remark narrowing_of_empty_pair :
  let a : z_interval := interval_ctor plus_infinity plus_infinity in
  let b : z_interval := interval_ctor (bound_of 3) (bound_of 4) in
  wf_interval a /\ wf_interval b /\
  is_bottom a = false /\ (forall n, contains a n = false) /\
  interval_of_bound (@plus_infinity Z _) = bottom /\
  narrowing a b = Interval (bound_of 3) (bound_of 4) /\
  interval_le (narrowing a b) a = false.
Proof.
  cbv zeta. split; [auto with wf|]. split; [auto with wf|].
  split; [reflexivity|]. split; [|repeat split].
  intros n. unfold contains, bound_le.
  cbn. destruct (Z.leb_spec n 1); reflexivity.
Qed.

(** C10. Over the rationals the division, remainder, bitwise and shift
    operations are the generic ones of the class template: bottom when an
    operand is bottom, top otherwise. *)
Theorem q_generic_operations (a b : interval Q) :
  Forall (fun op : interval Q -> interval Q -> interval Q =>
            op a b = if is_bottom a || is_bottom b then bottom else top)
         [UDiv; SRem; URem; And; Or; Xor; Shl; LShr; AShr] /\
  is_bottom (@bottom Q _) = true /\ is_bottom (@top Q _) = false /\
  is_top (@top Q _) = true.
Proof.
  split; [repeat constructor|].
  split; [|split]; reflexivity.
Qed.

(** C4. Case split of the integer division on non-bottom operands.  For a
    singleton divisor [c]: the dividend itself when [c = 1],
    [[lb/c, ub/c]] when [c > 0], [[ub/c, lb/c]] when [c < 0] (bound
    division, truncating toward zero on finite bounds), bottom when
    [c = 0].  For a divisor that is not a singleton and contains 0: the
    join of the quotients by the negative part [[lb, -1]] and by the
    positive part [[1, ub]] of the divisor. *)
Theorem z_div_case_split (i x : z_interval) :
  is_bottom i = false -> is_bottom x = false ->
  (forall c, singleton x = Some c ->
     (c = 1 -> z_div i x = Ok i) /\
     (0 < c ->
      exists l u, bound_div (_lb i) (bound_of c) = Ok l /\
                  bound_div (_ub i) (bound_of c) = Ok u /\
                  z_div i x = Ok (interval_ctor l u)) /\
     (c < 0 ->
      exists l u, bound_div (_ub i) (bound_of c) = Ok l /\
                  bound_div (_lb i) (bound_of c) = Ok u /\
                  z_div i x = Ok (interval_ctor l u)) /\
     (c = 0 -> z_div i x = Ok bottom) /\
     (c <> 0 -> forall m,
        bound_div (bound_of m) (bound_of c) = Ok (bound_of (Z.quot m c)))) /\
  (singleton x = None -> contains x 0 = true ->
   z_div i x =
     (r1 ← z_div i (interval_ctor (_lb x) (bound_of (-1)));
      r2 ← z_div i (interval_ctor (bound_of 1) (_ub x));
      Ok (join r1 r2))).
Proof.
  intros Hi Hx. split.
  - intros c Hc. unfold z_div. rewrite z_div_fuel_S, Hi, Hx, Hc.
    cbn [orb from_option]. unfold z_div_singleton.
    split; [|split; [|split; [|split]]].
    + intros ->. reflexivity.
    + intros Hgt.
      destruct (Z.eqb_spec c 1) as [->|_].
      { exists (_lb i), (_ub i). rewrite !z_bound_div_one.
        repeat split. f_equal. destruct i as [l u]. cbn [_lb _ub].
        symmetry. apply interval_ctor_le, bound_gt_false_le. exact Hi. }
      destruct (Z.gtb_spec c 0) as [_|]; [|lia].
      destruct (z_bound_div_nonzero (_lb i) c) as [l Hl]; [lia|].
      destruct (z_bound_div_nonzero (_ub i) c) as [u Hu]; [lia|].
      exists l, u. rewrite Hl, Hu. auto.
    + intros Hlt.
      destruct (Z.eqb_spec c 1) as [|_]; [lia|].
      destruct (Z.gtb_spec c 0) as [|_]; [lia|].
      destruct (Z.ltb_spec c 0) as [_|]; [|lia].
      destruct (z_bound_div_nonzero (_ub i) c) as [l Hl]; [lia|].
      destruct (z_bound_div_nonzero (_lb i) c) as [u Hu]; [lia|].
      exists l, u. rewrite Hl, Hu. auto.
    + intros ->. cbn [Z.eqb Z.gtb Z.ltb Z.compare].
      unfold singleton in Hc. rewrite Hx in Hc. cbn [negb andb] in Hc.
      destruct x as [[[|] lx] [[|] ux]]; unfold bound_eq, number in Hc;
        cbn in Hc; try discriminate.
      all: destruct (Z.eqb_spec lx ux) as [<-|]; try discriminate.
      injection Hc as ->.
      cbn [_lb _ub].
      change (contains (Interval (Bound false 0) (Bound false 0)) 0)
        with true.
      cbn match. rewrite !z_div_fuel_S.
      change (is_bottom (interval_ctor (Bound false 0) (@bound_of Z (-1))))
        with true.
      change (is_bottom (interval_ctor (@bound_of Z 1) (Bound false 0)))
        with true.
      rewrite !orb_true_r. reflexivity.
    + intros Hne m. apply z_bound_div_finite. exact Hne.
  - intros Hs Hc. unfold z_div at 1.
    rewrite z_div_fuel_S, Hi, Hx, Hs, Hc. cbn [orb from_option].
    unfold z_div.
    rewrite <- !(z_div_fuel_divisor_nonzero 1)
      by auto using contains_negative_part, contains_positive_part.
    reflexivity.
Qed.

Section DomainClaims.
Context {N : Type} `{Number N} {K : Type} `{Countable K}.

(** C2. Every operation of the separate domain keeps the invariant of the
    tree form, for intervals as values: after [set], [forget], join,
    widening, meet and narrowing no key is bound to top or to bottom.
    [set] with a bottom value gives the bottom map and with a top value
    removes the key; a key whose pointwise join or widening is top is
    dropped, and a pointwise meet or narrowing that is bottom makes the
    whole map bottom. *)
Theorem separate_domain_invariant
  (a b : separate_domain.t K (interval N)) (k : K) (v : interval N) :
  well_formed a -> well_formed b -> wf_interval v ->
  well_formed (separate_domain.set k v a) /\
  well_formed (separate_domain.forget k a) /\
  (exists r, separate_domain.join a b = Some r /\ well_formed r) /\
  (exists r, separate_domain.widening a b = Some r /\ well_formed r) /\
  well_formed (separate_domain.meet a b) /\
  well_formed (separate_domain.narrowing a b) /\
  (separate_domain.is_bottom a = false ->
   (is_bottom v = true ->
    separate_domain.set k v a = separate_domain.bottom) /\
   (is_bottom v = false -> is_top v = true ->
    separate_domain.set k v a =
      separate_domain.Make false (delete k (separate_domain._tree a)))) /\
  (separate_domain.is_bottom a = false ->
   separate_domain.is_bottom b = false ->
   forall x y,
     separate_domain._tree a !! k = Some x ->
     separate_domain._tree b !! k = Some y ->
     (is_top (join x y) = true ->
      forall r, separate_domain.join a b = Some r ->
                separate_domain._tree r !! k = None) /\
     (is_top (widening x y) = true ->
      forall r, separate_domain.widening a b = Some r ->
                separate_domain._tree r !! k = None) /\
     (is_bottom (meet x y) = true ->
      separate_domain.meet a b = separate_domain.bottom) /\
     (is_bottom (narrowing x y) = true ->
      separate_domain.narrowing a b = separate_domain.bottom)).
Proof.
  intros Ha Hb Hv.
  split; [|split; [|split; [|split; [|split; [|split; [|split]]]]]].
  - (* set *)
    unfold separate_domain.set.
    destruct (separate_domain.is_bottom a) eqn:Hba; cbn [negb]; [exact Ha|].
    pose proof (well_formed_stored a Ha Hba) as Hs.
    destruct (is_bottom v) eqn:Hbv; cbn [v_is_bottom interval_value];
      rewrite Hbv; [apply well_formed_bottom|].
    cbn [v_is_top interval_value]. unfold separate_domain.is_bottom in Hba.
    rewrite Hba. destruct (is_top v) eqn:Htv; apply stored_well_formed.
    + apply map_Forall_delete. exact Hs.
    + apply map_Forall_insert_2; [repeat split; auto; apply Hv | exact Hs].
  - (* forget *)
    unfold separate_domain.forget.
    destruct (separate_domain.is_bottom a) eqn:Hba; cbn [negb]; [exact Ha|].
    unfold separate_domain.is_bottom in Hba. rewrite Hba.
    apply stored_well_formed, map_Forall_delete, well_formed_stored; auto.
  - (* join *)
    unfold separate_domain.join.
    destruct (separate_domain.is_bottom a) eqn:Hba; [eauto|].
    destruct (separate_domain.is_bottom b) eqn:Hbb; [eauto|].
    unfold separate_domain.apply_operation.
    destruct (patricia_tree.merge_with_Some separate_domain.join_op
                (separate_domain._tree a) (separate_domain._tree b))
      as [r Hr].
    { intros x y. cbn. destruct (is_top (join x y)); discriminate. }
    rewrite Hr. eexists. split; [reflexivity|].
    apply stored_well_formed.
    eapply patricia_tree.merge_with_Forall;
      [| apply (well_formed_stored a) | apply (well_formed_stored b) | exact Hr];
      auto.
    intros x y z (Hwx & _ & Hbx) (Hwy & _ & Hby). cbn.
    destruct (is_top (join x y)) eqn:Ht; intros [= <-].
    repeat split; auto using join_not_bottom; apply wf_join; assumption.
  - (* widening *)
    unfold separate_domain.widening.
    destruct (separate_domain.is_bottom a) eqn:Hba; [eauto|].
    destruct (separate_domain.is_bottom b) eqn:Hbb; [eauto|].
    unfold separate_domain.apply_operation.
    destruct (patricia_tree.merge_with_Some separate_domain.widening_op
                (separate_domain._tree a) (separate_domain._tree b))
      as [r Hr].
    { intros x y. cbn. destruct (is_top (widening x y)); discriminate. }
    rewrite Hr. eexists. split; [reflexivity|].
    apply stored_well_formed.
    eapply patricia_tree.merge_with_Forall;
      [| apply (well_formed_stored a) | apply (well_formed_stored b) | exact Hr];
      auto.
    intros x y z (Hwx & _ & Hbx) (Hwy & _ & Hby). cbn.
    destruct (is_top (widening x y)) eqn:Ht; intros [= <-].
    repeat split; auto using widening_not_bottom; apply wf_widening; assumption.
  - (* meet *)
    unfold separate_domain.meet.
    destruct (separate_domain.is_bottom a) eqn:Hba;
      [apply well_formed_bottom|].
    destruct (separate_domain.is_bottom b) eqn:Hbb;
      [apply well_formed_bottom|].
    cbn [orb]. unfold separate_domain.apply_operation.
    destruct (patricia_tree.merge_with separate_domain.meet_op _ _)
      as [r|] eqn:Hr; [|apply well_formed_bottom].
    apply stored_well_formed.
    eapply patricia_tree.merge_with_Forall;
      [| apply (well_formed_stored a) | apply (well_formed_stored b) | exact Hr];
      auto.
    intros x y z (Hwx & Htx & Hbx) (Hwy & Hty & Hby). cbn.
    destruct (is_bottom (meet x y)) eqn:Hbm; intros [= <-].
    repeat split; auto using meet_not_top; apply wf_meet; assumption.
  - (* narrowing *)
    unfold separate_domain.narrowing.
    destruct (separate_domain.is_bottom a) eqn:Hba;
      [apply well_formed_bottom|].
    destruct (separate_domain.is_bottom b) eqn:Hbb;
      [apply well_formed_bottom|].
    cbn [orb]. unfold separate_domain.apply_operation.
    destruct (patricia_tree.merge_with separate_domain.narrowing_op _ _)
      as [r|] eqn:Hr; [|apply well_formed_bottom].
    apply stored_well_formed.
    eapply patricia_tree.merge_with_Forall;
      [| apply (well_formed_stored a) | apply (well_formed_stored b) | exact Hr];
      auto.
    intros x y z (Hwx & Htx & Hbx) (Hwy & Hty & Hby). cbn.
    destruct (is_bottom (narrowing x y)) eqn:Hbm; intros [= <-].
    repeat split; auto using narrowing_not_top; apply wf_narrowing; assumption.
  - (* what set does with bottom and top *)
    intros Hba. unfold separate_domain.set. rewrite Hba. cbn.
    split; [intros ->; reflexivity|].
    intros -> ->. unfold separate_domain.is_bottom in Hba. rewrite Hba.
    reflexivity.
  - (* dropped keys and collapse *)
    intros Hba Hbb x y Hx Hy.
    unfold separate_domain.join, separate_domain.widening,
      separate_domain.meet, separate_domain.narrowing,
      separate_domain.apply_operation.
    rewrite Hba, Hbb. cbn [orb].
    split; [|split; [|split]].
    + intros Ht r Hr.
      destruct (patricia_tree.merge_with separate_domain.join_op _ _)
        as [r'|] eqn:Hm; [|discriminate]. injection Hr as <-.
      cbn. rewrite (patricia_tree.lookup_merge_with _ _ _ _ k Hm), Hx, Hy.
      cbn. rewrite Ht. reflexivity.
    + intros Ht r Hr.
      destruct (patricia_tree.merge_with separate_domain.widening_op _ _)
        as [r'|] eqn:Hm; [|discriminate]. injection Hr as <-.
      cbn. rewrite (patricia_tree.lookup_merge_with _ _ _ _ k Hm), Hx, Hy.
      cbn. rewrite Ht. reflexivity.
    + intros Hbm.
      rewrite (patricia_tree.merge_with_None separate_domain.meet_op
                 _ _ k x y Hx Hy); [reflexivity|].
      cbn. rewrite Hbm. reflexivity.
    + intros Hbm.
      rewrite (patricia_tree.merge_with_None separate_domain.narrowing_op
                 _ _ k x y Hx Hy); [reflexivity|].
      cbn. rewrite Hbm. reflexivity.
Qed.

(** C8. Export to linear constraints: a bottom state gives the system
    that holds the false constraint only; a non-bottom state gives, for
    every variable [v] bound to an interval [[l, u]], [v >= l] when [l] is
    finite and [v <= u] when [u] is finite, and no other constraint. *)
Theorem export_linear_constraints (s : interval_domain.t N K) :
  (interval_domain.is_bottom s = true ->
   interval_domain.to_linear_constraint_system s =
     [interval_domain.get_false]) /\
  (interval_domain.is_bottom s = false ->
   forall c : interval_domain.linear_constraint_t N K,
     In c (interval_domain.to_linear_constraint_system s) <->
     exists v i,
       separate_domain._tree (interval_domain._env s) !! v = Some i /\
       ((is_finite (_lb i) = true /\
         c = interval_domain.geq v (_n (_lb i))) \/
        (is_finite (_ub i) = true /\
         c = interval_domain.leq v (_n (_ub i))))).
Proof.
  unfold interval_domain.to_linear_constraint_system. split.
  - intros ->. reflexivity.
  - intros -> c. rewrite in_flat_map. split.
    + intros [[v i] [Hin Hc]].
      apply list_elem_of_In, elem_of_map_to_list in Hin.
      exists v, i. split; [exact Hin|].
      unfold interval_domain.constraints_of, number, is_finite, is_infinite
        in *.
      cbn [fst snd] in Hc. apply in_app_or in Hc as [Hc | Hc].
      * left. destruct (_is_infinite (_lb i)); [destruct Hc|].
        destruct Hc as [<- | []]. auto.
      * right. destruct (_is_infinite (_ub i)); [destruct Hc|].
        destruct Hc as [<- | []]. auto.
    + intros (v & i & Hin & Hc). exists (v, i). split.
      * apply list_elem_of_In, elem_of_map_to_list. exact Hin.
      * unfold interval_domain.constraints_of, number, is_finite, is_infinite
          in *.
        cbn [fst snd]. apply in_or_app.
        destruct Hc as [[Hf ->] | [Hf ->]]; [left | right];
          apply negb_true_iff in Hf; rewrite Hf; left; reflexivity.
Qed.

(** C9. The transfer function of an integer conversion is the assignment
    of the source variable: whatever the conversion operation, the state
    it produces is that of [assign(dst, src)], the state in which [dst]
    is bound to the interval of [src]. *)
Theorem int_conv_is_assign
  (Op : Type) (op op' : Op) (s : interval_domain.t N K) (dst src : K) :
  interval_domain.apply_int_conv Op op dst src s =
    interval_domain.assign dst (interval_domain.expr_of_variable src) s /\
  interval_domain.apply_int_conv Op op dst src s =
    interval_domain.apply_int_conv Op op' dst src s /\
  interval_domain.assign dst (interval_domain.expr_of_variable src) s =
    Ok (interval_domain.set dst (interval_domain.lookup src s) s).
Proof.
  split; [reflexivity|]. split; [reflexivity|].
  unfold interval_domain.assign, interval_domain.get_variable.
  cbn [interval_domain.terms interval_domain.constant
       interval_domain.expr_of_variable].
  rewrite !n_eqb_refl. reflexivity.
Qed.

End DomainClaims.

(** * Further properties of the code *)

Section IntervalLattice.
Context {N : Type} `{Number N}.

(** X1. Inclusion of intervals ([operator<=]) is reflexive and transitive,
    antisymmetric up to [operator==], with bottom below and top above
    every interval. *)
Theorem interval_inclusion_order (a b c : interval N) :
  wf_interval a -> wf_interval b -> wf_interval c ->
  interval_le a a = true /\
  (interval_le a b = true -> interval_le b c = true ->
   interval_le a c = true) /\
  (interval_le a b = true -> interval_le b a = true ->
   interval_eq a b = true) /\
  interval_le bottom a = true /\
  interval_le a top = true.
Proof.
  intros Ha Hb Hc.
  split; [apply interval_le_refl|].
  split; [apply interval_le_trans; assumption|].
  split; [apply interval_le_antisym; assumption|].
  split; [apply interval_le_bottom, is_bottom_bottom|].
  destruct Ha as [Hl Hu]. rewrite top_eq.
  apply interval_le_intro; cbn [_lb _ub].
  - rewrite <- top_eq. apply is_bottom_top.
  - apply minus_infinity_le. exact Hl.
  - apply plus_infinity_ge. exact Hu.
Qed.

(** X2. The join of two intervals ([operator|]) is their least upper
    bound for inclusion. *)
Theorem join_least_upper_bound (a b c : interval N) :
  wf_interval a -> wf_interval b -> wf_interval c ->
  interval_le a (join a b) = true /\
  interval_le b (join a b) = true /\
  (interval_le a c = true -> interval_le b c = true ->
   interval_le (join a b) c = true).
Proof.
  intros Ha Hb Hc.
  split; [apply join_upper_l; assumption|].
  split; [apply join_upper_r; assumption|].
  apply join_least; assumption.
Qed.

(** X3. The meet of two intervals ([operator&]) is their greatest lower
    bound for inclusion, and it contains exactly the numbers that both
    contain. *)
Theorem meet_greatest_lower_bound (a b c : interval N) :
  wf_interval a -> wf_interval b -> wf_interval c ->
  interval_le (meet a b) a = true /\
  interval_le (meet a b) b = true /\
  (interval_le c a = true -> interval_le c b = true ->
   interval_le c (meet a b) = true) /\
  (forall n, contains (meet a b) n = contains a n && contains b n).
Proof.
  intros Ha Hb Hc.
  split; [apply meet_lower_l; assumption|].
  split; [apply meet_lower_r; assumption|].
  split; [apply meet_greatest; assumption|].
  intros n. apply contains_meet; assumption.
Qed.

(** X4. Membership ([operator[]]) follows inclusion: a number belongs to
    an interval exactly when its singleton interval is included in it, an
    interval included in another has its numbers in the other, the join
    has the numbers of both operands, top has every number and bottom
    none. *)
Theorem membership_follows_inclusion (a b : interval N) (n : N) :
  wf_interval a -> wf_interval b ->
  contains a n = interval_le (interval_of n) a /\
  (interval_le a b = true -> contains a n = true -> contains b n = true) /\
  (contains a n || contains b n = true -> contains (join a b) n = true) /\
  contains top n = true /\
  contains bottom n = false.
Proof.
  intros Ha Hb.
  split; [apply contains_interval_le|].
  split; [apply contains_mono; assumption|].
  split; [apply contains_join; assumption|].
  split; [apply contains_top | apply contains_bottom].
Qed.

(** X5. Widening ([operator||]) is stationary: an operand that is
    included in a non-bottom interval leaves it unchanged, and widening a
    second time with the same operand changes nothing. *)
Theorem widening_stationary (a b : interval N) :
  wf_interval a -> wf_interval b ->
  (is_bottom a = false -> interval_le b a = true -> widening a b = a) /\
  widening (widening a b) b = widening a b.
Proof.
  intros Ha Hb. split; [apply widening_included|].
  destruct (is_bottom (widening a b)) eqn:Hw.
  - (* a bottom widening comes from two bottom operands *)
    destruct (is_bottom a) eqn:Hba.
    + assert (Hab : widening a b = b)
        by (unfold widening; rewrite Hba; reflexivity).
      rewrite Hab in *. unfold widening. rewrite Hw. reflexivity.
    + rewrite (widening_not_bottom a b Ha Hb Hba) in Hw. discriminate.
  - apply widening_included; [exact Hw|].
    apply widening_upper; assumption.
Qed.

(** X6. Narrowing ([operator&&]) keeps every number that both operands
    contain, and narrowing a second time with the same operand changes
    nothing. *)
Theorem narrowing_stationary (a b : interval N) (n : N) :
  wf_interval a -> wf_interval b ->
  (contains a n = true -> contains b n = true ->
   contains (narrowing a b) n = true) /\
  narrowing (narrowing a b) b = narrowing a b.
Proof.
  intros Ha Hb. split; [apply contains_narrowing; assumption|].
  apply narrowing_again.
Qed.

(** X18. The half lines of an interval: [lower_half_line] contains every
    number below a number of the interval, [upper_half_line] every number
    above one. *)
Theorem half_lines_contain (a : interval N) (x y z : N) :
  wf_interval a -> contains a x = true ->
  (n_leb y x = true -> contains (lower_half_line a) y = true) /\
  (n_leb x z = true -> contains (upper_half_line a) z = true).
Proof.
  intros Ha Hx. split.
  - apply lower_half_line_contains; assumption.
  - apply upper_half_line_contains; assumption.
Qed.

(** X19. Widening with thresholds is sound for thresholds that answer
    [get_prev] with a bound below, and [get_next] with a bound above,
    the bound they are asked about: both operands are included in the
    result. *)
Theorem widening_thresholds_sound
  (get_prev get_next : bound N -> bound N) (a b : interval N) :
  (forall x, wf_bound x ->
     wf_bound (get_prev x) /\ bound_le (get_prev x) x = true) ->
  (forall x, wf_bound x ->
     wf_bound (get_next x) /\ bound_le x (get_next x) = true) ->
  wf_interval a -> wf_interval b ->
  interval_le a (widening_thresholds get_prev get_next a b) = true /\
  interval_le b (widening_thresholds get_prev get_next a b) = true.
Proof.
  intros Hprev Hnext Ha Hb.
  destruct (is_bottom a) eqn:Hba.
  { unfold widening_thresholds. rewrite Hba.
    split; [apply interval_le_bottom; exact Hba | apply interval_le_refl]. }
  destruct (is_bottom b) eqn:Hbb.
  { unfold widening_thresholds. rewrite Hba, Hbb.
    split; [apply interval_le_refl | apply interval_le_bottom; exact Hbb]. }
  destruct (widening_thresholds_bounds get_prev get_next a b
              Hprev Hnext Ha Hb Hba Hbb)
    as (l & u & -> & _ & _ & Hlu & [Hl_a Hu_a] & [Hl_b Hu_b]).
  split; apply interval_le_intro; cbn [_lb _ub]; auto;
    apply bound_le_gt_false; exact Hlu.
Qed.

End IntervalLattice.

(** X7. Addition and subtraction of integer intervals are sound and raise
    no error on operands that contain a number: the results contain
    [x + y] and [x - y] for every [x] of the first and [y] of the second
    operand. *)
Theorem z_add_sub_sound (a b : z_interval) (x y : Z) :
  wf_interval a -> wf_interval b ->
  contains a x = true -> contains b y = true ->
  (exists r, interval_add a b = Ok r /\ wf_interval r /\
             contains r (x + y) = true) /\
  (exists r, interval_sub a b = Ok r /\ wf_interval r /\
             contains r (x - y) = true).
Proof.
  intros Ha Hb Hx Hy. split.
  - destruct (z_interval_add_sound a b x y Ha Hb Hx Hy) as (r & Hr & Hw & Hc).
    exists r. auto.
  - destruct (z_interval_sub_sound a b x y Ha Hb Hx Hy) as (r & Hr & Hw & Hc).
    exists r. auto.
Qed.

(** X8. Multiplication and negation of integer intervals are sound: the
    results contain [x * y] and [- x] for every [x] of the first and [y]
    of the second operand, and their bounds are well formed. *)
Theorem z_mul_neg_sound (a b : z_interval) (x y : Z) :
  wf_interval a -> wf_interval b ->
  contains a x = true -> contains b y = true ->
  wf_interval (interval_mul a b) /\
  contains (interval_mul a b) (x * y) = true /\
  contains (interval_neg a) (- x) = true.
Proof.
  intros Ha Hb Hx Hy.
  destruct (z_interval_mul_sound a b x y Ha Hb Hx Hy) as [Hw Hc].
  split; [exact Hw|]. split; [exact Hc|].
  apply z_interval_neg_sound; assumption.
Qed.

(** X9. The division of an integer interval by a constant: by a constant
    other than zero it raises no error and contains the quotient
    [x / c], truncated toward zero, for every [x] of the dividend; by
    the constant zero it is bottom. *)
Theorem z_div_by_constant (a : z_interval) (x c : Z) :
  wf_interval a -> contains a x = true ->
  (c <> 0 ->
   exists r, z_div a (interval_of c) = Ok r /\ wf_interval r /\
             contains r (x ÷ c) = true) /\
  z_div a (interval_of 0) = Ok bottom.
Proof.
  intros Ha Hx. split.
  - intros Hc. apply z_div_constant_sound; assumption.
  - pose proof (contains_not_bottom a x Hx) as Hba.
    unfold z_div. cbn. rewrite Hba. cbn. reflexivity.
Qed.

(** X10. The division of integer intervals raises no error: on operands
    of well-formed bounds it returns an interval of well-formed bounds,
    whatever the divisor, and more fuel for its recursion does not change
    the result. *)
Theorem z_div_total (i x : z_interval) :
  wf_interval i -> wf_interval x ->
  exists r, z_div i x = Ok r /\ wf_interval r /\
            forall n, z_div_fuel (3 + n) i x = Ok r.
Proof.
  intros Hi Hx.
  destruct (z_div_fuel_ok 0 i x Hi Hx) as (r & Hr & Hw).
  exists r. split; [exact Hr|]. split; [exact Hw|].
  intros n. change (3 + n)%nat with (S (S (S n))).
  rewrite z_div_fuel_enough. exact Hr.
Qed.

(** X11. The signed remainder of integer intervals ([SRem]) is sound: the
    result contains the remainder of [x] by [y], of the sign of [x], for
    every [x] of the dividend and every [y] other than zero of the
    divisor. *)
Theorem z_srem_sound (a b : z_interval) (x y : Z) :
  wf_interval a -> wf_interval b ->
  contains a x = true -> contains b y = true -> y <> 0 ->
  wf_interval (z_SRem a b) /\
  contains (z_SRem a b) (Z.rem x y) = true.
Proof.
  intros Ha Hb Hx Hy Hy0. split.
  - apply wf_z_SRem.
  - apply z_SRem_sound; assumption.
Qed.

(** X12. The unsigned remainder of integer intervals ([URem]) is sound:
    for a positive [y] of the divisor the result contains every number
    of [0 .. y-1] that is [x mod y] whenever the number [x] of the
    dividend is not negative. *)
Theorem z_urem_sound (a b : z_interval) (x y r : Z) :
  wf_interval a -> wf_interval b ->
  contains a x = true -> contains b y = true ->
  0 < y -> 0 <= r < y -> (0 <= x -> r = x mod y) ->
  wf_interval (z_URem a b) /\
  contains (z_URem a b) r = true.
Proof.
  intros Ha Hb Hx Hy Hy0 Hr Hmod. split.
  - apply wf_z_URem.
  - apply (z_URem_sound a b x y r); assumption.
Qed.

(** X13. The bitwise conjunction of integer intervals ([And]) is sound:
    the result contains [x & y] for every [x] of the first and [y] of
    the second operand. *)
Theorem z_and_sound (a b : z_interval) (x y : Z) :
  wf_interval a -> wf_interval b ->
  contains a x = true -> contains b y = true ->
  contains (z_And a b) (Z.land x y) = true.
Proof.
  intros Ha Hb Hx Hy.
  pose proof (contains_inv a x Hx) as (Hba & Hlx & Hxu).
  pose proof (contains_inv b y Hy) as (Hbb & Hly & Hyu).
  unfold z_And. rewrite Hba, Hbb. cbn [orb].
  assert (Hgen :
    contains
      (if bound_ge (_lb a) (bound_of_int 0)
          && bound_ge (_lb b) (bound_of_int 0)
       then interval_ctor (bound_of_int 0) (bound_min (_ub a) (_ub b))
       else top) (Z.land x y) = true).
  { destruct (bound_ge (_lb a) (bound_of_int 0)
              && bound_ge (_lb b) (bound_of_int 0)) eqn:Hge;
      [|apply contains_top].
    apply andb_true_iff in Hge as [Hga Hgb].
    pose proof (z_below_zero_nonneg a x Ha Hx Hga) as Hx0.
    pose proof (z_below_zero_nonneg b y Hb Hy Hgb) as Hy0.
    destruct Ha as [_ Hua], Hb as [_ Hub].
    apply contains_ctor; auto with wf.
    - apply z_bound_le_fin. apply Z.land_nonneg. auto.
    - apply bound_min_glb.
      + apply (bound_le_trans _ (bound_of x)); auto with wf.
        apply z_bound_le_fin, Z_land_le_l; assumption.
      + apply (bound_le_trans _ (bound_of y)); auto with wf.
        apply z_bound_le_fin. rewrite Z.land_comm.
        apply Z_land_le_l; assumption. }
  destruct (singleton a) as [d|] eqn:Hsa; [|exact Hgen].
  destruct (singleton b) as [c|] eqn:Hsb; [|exact Hgen].
  apply z_singleton_inv in Hsa, Hsb. subst a b.
  apply z_contains_interval_of in Hx, Hy. subst x y.
  apply z_contains_interval_of. reflexivity.
Qed.

(** X14. The left shift of an integer interval by a constant [k]
    ([Shl]): for [0 <= k <= 128] it is the multiplication by [2^k] and
    contains [x << k] for every [x] of the operand; for any other
    constant it is top. *)
Theorem z_shl_sound (a : z_interval) (x k : Z) :
  wf_interval a -> contains a x = true ->
  (0 <= k <= 128 ->
   z_Shl a (interval_of k) = interval_mul a (interval_of (2 ^ k)) /\
   contains (z_Shl a (interval_of k)) (Z.shiftl x k) = true) /\
  (k < 0 \/ 128 < k -> z_Shl a (interval_of k) = top).
Proof.
  intros Ha Hx. pose proof (contains_inv a x Hx) as (Hba & _).
  unfold z_Shl. rewrite Hba, is_bottom_interval_of, singleton_interval_of.
  cbn [orb]. split.
  - intros Hk. destruct (Z.ltb_spec k 0); [lia|].
    destruct (Z.leb_spec k 128); [|lia].
    rewrite shift_factor_pow by lia. split; [reflexivity|].
    rewrite Z.shiftl_mul_pow2 by lia.
    apply z_interval_mul_sound; auto with wf.
    apply z_contains_interval_of. reflexivity.
  - intros Hk. destruct (Z.ltb_spec k 0); [reflexivity|].
    destruct (Z.leb_spec k 128); [lia | reflexivity].
Qed.

(** X15. The logical right shift of an integer interval by a constant
    ([LShr]) is sound: the result contains every number that is [x >> k]
    whenever the number [x] of the operand is not negative. *)
Theorem z_lshr_sound (a : z_interval) (x k r : Z) :
  wf_interval a -> contains a x = true ->
  (0 <= x -> r = Z.shiftr x k) ->
  contains (z_LShr a (interval_of k)) r = true.
Proof.
  intros Ha Hx Hr. pose proof (contains_inv a x Hx) as (Hba & Hlx & Hxu).
  unfold z_LShr. rewrite Hba, is_bottom_interval_of, singleton_interval_of.
  cbn [orb].
  destruct (k <? 0); [apply contains_top|].
  destruct ((k <=? 128)
            && (bound_ge (_lb a) (bound_of_int 0) && is_finite (_ub a)))
    eqn:Hc; [|apply contains_top].
  apply andb_true_iff in Hc as [_ Hc].
  apply andb_true_iff in Hc as [Hge Hfin].
  pose proof (z_below_zero_nonneg a x Ha Hx Hge) as Hx0.
  rewrite (Hr Hx0).
  destruct a as [[[|] l] [[|] u]]; try discriminate;
    cbn [_lb _ub _n] in *.
  - (* an infinite lower bound that is not negative is +oo *)
    destruct Ha as [Hl _]. exfalso.
    apply (below_number_not_plus _ x Hl) in Hlx.
    rewrite bound_ge_le in Hge. unfold bound_le in Hge. cbn in Hge.
    unfold is_plus_infinity, n_gtb in Hlx. cbn in Hlx. congruence.
  - apply z_bound_le_fin in Hlx, Hxu.
    apply z_contains_fin. split; apply z_shiftr_mono; assumption.
Qed.

(** X16. The arithmetic right shift of an integer interval by a constant
    [0 <= k <= 128] ([AShr]) is the division by [2^k]: it raises no error
    and contains the quotient [x / 2^k] that truncates toward zero, for
    every [x] of the operand. *)
Theorem z_ashr_is_division (a : z_interval) (x k : Z) :
  wf_interval a -> contains a x = true -> 0 <= k <= 128 ->
  z_AShr a (interval_of k) = z_div a (interval_of (2 ^ k)) /\
  exists r, z_AShr a (interval_of k) = Ok r /\ wf_interval r /\
            contains r (x ÷ 2 ^ k) = true.
Proof.
  intros Ha Hx Hk. pose proof (contains_inv a x Hx) as (Hba & _).
  assert (Heq : z_AShr a (interval_of k) = z_div a (interval_of (2 ^ k))).
  { unfold z_AShr.
    rewrite Hba, is_bottom_interval_of, singleton_interval_of. cbn [orb].
    destruct (Z.ltb_spec k 0); [lia|].
    destruct (Z.leb_spec k 128); [|lia].
    rewrite shift_factor_pow by lia. reflexivity. }
  split; [exact Heq|]. rewrite Heq.
  apply z_div_constant_sound; auto.
  apply Z.pow_nonzero; lia.
Qed.

(** X17. [trim_interval] removes at most the number of the singleton
    interval [j]: every number of [i] that differs from it stays in the
    result. *)
Theorem z_trim_interval_keeps (i j : z_interval) (x : Z) :
  wf_interval i -> contains i x = true ->
  (forall c, singleton j = Some c -> x <> c) ->
  contains (z_trim_interval i j) x = true.
Proof.
  intros Hi Hx Hne. unfold z_trim_interval.
  destruct (singleton j) as [c|]; [|exact Hx].
  specialize (Hne c eq_refl).
  pose proof (contains_inv i x Hx) as (Hbi & Hlx & Hxu).
  destruct Hi as [Hl Hu].
  destruct (bound_eq (_lb i) (bound_of c)) eqn:El.
  - apply contains_ctor; auto with wf.
    destruct (_lb i) as [[|] l]; unfold bound_eq in El; cbn in El;
      [discriminate|].
    apply Z.eqb_eq in El. subst l.
    apply z_bound_le_fin in Hlx. apply z_bound_le_fin. lia.
  - destruct (bound_eq (_ub i) (bound_of c)) eqn:Eu; [|exact Hx].
    apply contains_ctor; auto with wf.
    destruct (_ub i) as [[|] u]; unfold bound_eq in Eu; cbn in Eu;
      [discriminate|].
    apply Z.eqb_eq in Eu. subst u.
    apply z_bound_le_fin in Hxu. apply z_bound_le_fin. lia.
Qed.

Section SeparateDomainExtras.
Context {K : Type} `{Countable K} {V : Type} `{AbstractValue V}.

(** X20. Writing then reading the separate domain: on a state that is not
    bottom, [set k v] with a value that is not bottom makes [operator[]]
    answer [v] at [k] (the top value when [v] is top) and leaves the
    answer at every other key; [set] with a bottom value makes the whole
    state bottom. *)
Theorem sd_set_then_lookup (s : separate_domain.t K V) (k k' : K) (v : V) :
  separate_domain.is_bottom s = false ->
  (v_is_bottom v = false ->
   separate_domain.is_bottom (separate_domain.set k v s) = false /\
   separate_domain.lookup k (separate_domain.set k v s) =
     (if v_is_top v then v_top else v) /\
   (k <> k' ->
    separate_domain.lookup k' (separate_domain.set k v s) =
      separate_domain.lookup k' s)) /\
  (v_is_bottom v = true ->
   separate_domain.is_bottom (separate_domain.set k v s) = true /\
   separate_domain.lookup k' (separate_domain.set k v s) = v_bottom).
Proof.
  intros Hs. split.
  - intros Hv. split; [apply sd_set_not_bottom; assumption|].
    split; [apply sd_lookup_set_eq; assumption|].
    intros Hne. apply sd_lookup_set_ne; assumption.
  - intros Hv. unfold separate_domain.set, separate_domain.lookup.
    rewrite Hs, Hv. cbn. split; reflexivity.
Qed.

(** X21. Forgetting a key ([operator-=]) of a state that is not bottom
    makes [operator[]] answer top at that key and leaves the answer at
    every other key; the bottom state absorbs [set] and [operator-=] and
    answers bottom at every key. *)
Theorem sd_forget_then_lookup (s : separate_domain.t K V) (k k' : K) (v : V) :
  (separate_domain.is_bottom s = false ->
   separate_domain.is_bottom (separate_domain.forget k s) = false /\
   separate_domain.lookup k' (separate_domain.forget k s) =
     if decide (k = k') then v_top else separate_domain.lookup k' s) /\
  (separate_domain.is_bottom s = true ->
   separate_domain.set k v s = s /\
   separate_domain.forget k s = s /\
   separate_domain.lookup k' s = v_bottom).
Proof.
  split.
  - intros Hs. apply sd_lookup_forget. exact Hs.
  - intros Hs.
    unfold separate_domain.set, separate_domain.forget,
      separate_domain.lookup.
    rewrite Hs. cbn. auto.
Qed.

End SeparateDomainExtras.

Section StateLattice.
Context {N : Type} `{Number N} {K : Type} `{Countable K}.

(** X22. Join and widening of two states that are not bottom raise no
    exception, are not bottom, and are pointwise: at every key
    [operator[]] answers the join, or the widening, of the two answers of
    the operands. *)
Theorem sd_join_widening_pointwise (a b : separate_domain.t K (interval N)) :
  well_formed a -> well_formed b ->
  separate_domain.is_bottom a = false ->
  separate_domain.is_bottom b = false ->
  exists rj rw,
    separate_domain.join a b = Some rj /\
    separate_domain.widening a b = Some rw /\
    separate_domain.is_bottom rj = false /\
    separate_domain.is_bottom rw = false /\
    forall k,
      separate_domain.lookup k rj =
        join (separate_domain.lookup k a) (separate_domain.lookup k b) /\
      separate_domain.lookup k rw =
        widening (separate_domain.lookup k a) (separate_domain.lookup k b).
Proof.
  intros Ha Hb Hba Hbb.
  destruct (sd_join_returns a b) as [rj Hj].
  destruct (sd_widening_returns a b) as [rw Hw].
  exists rj, rw. split; [exact Hj|]. split; [exact Hw|].
  split; [|split].
  - exact (sd_join_not_bottom a b rj Hba Hbb Hj).
  - exact (sd_widening_not_bottom a b rw Hba Hbb Hw).
  - intros k. split.
    + apply (sd_join_pointwise a b rj k Ha Hb Hba Hbb Hj).
    + apply (sd_widening_pointwise a b rw k Ha Hb Hba Hbb Hw).
Qed.

(** X23. Meet and narrowing of two states that are not bottom: the result
    is bottom exactly when the meet, or the narrowing, of the two answers
    of the operands is bottom at some key, and otherwise it is pointwise:
    at every key [operator[]] answers the meet, or the narrowing, of the
    two answers. *)
Theorem sd_meet_narrowing_pointwise (a b : separate_domain.t K (interval N)) :
  well_formed a -> well_formed b ->
  separate_domain.is_bottom a = false ->
  separate_domain.is_bottom b = false ->
  (separate_domain.is_bottom (separate_domain.meet a b) = true <->
   exists k, is_bottom (meet (separate_domain.lookup k a)
                             (separate_domain.lookup k b)) = true) /\
  (separate_domain.is_bottom (separate_domain.meet a b) = false ->
   forall k, separate_domain.lookup k (separate_domain.meet a b) =
     meet (separate_domain.lookup k a) (separate_domain.lookup k b)) /\
  (separate_domain.is_bottom (separate_domain.narrowing a b) = true <->
   exists k, is_bottom (narrowing (separate_domain.lookup k a)
                                  (separate_domain.lookup k b)) = true) /\
  (separate_domain.is_bottom (separate_domain.narrowing a b) = false ->
   forall k, separate_domain.lookup k (separate_domain.narrowing a b) =
     narrowing (separate_domain.lookup k a) (separate_domain.lookup k b)).
Proof.
  intros Ha Hb Hba Hbb.
  split; [apply sd_meet_collapses; assumption|].
  split; [intros Hm k; apply sd_meet_pointwise; assumption|].
  split; [apply sd_narrowing_collapses; assumption|].
  intros Hn k. apply sd_narrowing_pointwise; assumption.
Qed.

(** X24. The meet of two states stands for exactly the environments both
    stand for, and the narrowing for at least them. *)
Theorem gamma_meet_narrowing
  (env : K -> N) (a b : separate_domain.t K (interval N)) :
  well_formed a -> well_formed b ->
  (in_gamma env (separate_domain.meet a b) <->
   in_gamma env a /\ in_gamma env b) /\
  (in_gamma env a /\ in_gamma env b ->
   in_gamma env (separate_domain.narrowing a b)).
Proof.
  intros Ha Hb. split; [split|].
  - (* an environment of the meet is one of both operands *)
    intros [Hm Hk].
    assert (Hba : separate_domain.is_bottom a = false).
    { destruct (separate_domain.is_bottom a) eqn:E; [|reflexivity].
      unfold separate_domain.meet in Hm. rewrite E in Hm. discriminate. }
    assert (Hbb : separate_domain.is_bottom b = false).
    { destruct (separate_domain.is_bottom b) eqn:E; [|reflexivity].
      unfold separate_domain.meet in Hm. rewrite E, orb_true_r in Hm.
      discriminate. }
    assert (Hboth : forall k,
      contains (separate_domain.lookup k a) (env k) = true /\
      contains (separate_domain.lookup k b) (env k) = true).
    { intros k. specialize (Hk k).
      rewrite (sd_meet_pointwise a b k Ha Hb Hm) in Hk.
      rewrite contains_meet in Hk
        by (apply stored_lookup; assumption).
      apply andb_true_iff in Hk. exact Hk. }
    split; (split; [assumption | intros k; apply Hboth]).
  - (* an environment of both operands is one of the meet *)
    intros [[Hba Hka] [Hbb Hkb]].
    assert (Hpoint : forall k,
      contains (meet (separate_domain.lookup k a)
                     (separate_domain.lookup k b)) (env k) = true).
    { intros k. rewrite contains_meet by (apply stored_lookup; assumption).
      rewrite Hka, Hkb. reflexivity. }
    assert (Hm : separate_domain.is_bottom (separate_domain.meet a b) = false).
    { destruct (separate_domain.is_bottom (separate_domain.meet a b)) eqn:E;
        [|reflexivity].
      apply sd_meet_collapses in E as [k Hk]; try assumption.
      rewrite (contains_not_bottom _ _ (Hpoint k)) in Hk. discriminate. }
    split; [exact Hm|]. intros k.
    rewrite (sd_meet_pointwise a b k Ha Hb Hm). apply Hpoint.
  - (* narrowing keeps the environments of both operands *)
    intros [[Hba Hka] [Hbb Hkb]].
    assert (Hpoint : forall k,
      contains (narrowing (separate_domain.lookup k a)
                          (separate_domain.lookup k b)) (env k) = true).
    { intros k. apply contains_narrowing; auto;
        apply stored_lookup; assumption. }
    assert (Hn : separate_domain.is_bottom
                   (separate_domain.narrowing a b) = false).
    { destruct (separate_domain.is_bottom (separate_domain.narrowing a b))
        eqn:E; [|reflexivity].
      apply sd_narrowing_collapses in E as [k Hk]; try assumption.
      rewrite (contains_not_bottom _ _ (Hpoint k)) in Hk. discriminate. }
    split; [exact Hn|]. intros k.
    rewrite (sd_narrowing_pointwise a b k Ha Hb Hn). apply Hpoint.
Qed.

(** X25. Join and widening of two states are sound: they raise no
    exception, and the result stands for every environment that one of
    the operands stands for. *)
Theorem gamma_join_widening
  (env : K -> N) (a b : separate_domain.t K (interval N)) :
  well_formed a -> well_formed b ->
  in_gamma env a \/ in_gamma env b ->
  (exists r, separate_domain.join a b = Some r /\ in_gamma env r) /\
  (exists r, separate_domain.widening a b = Some r /\ in_gamma env r).
Proof.
  intros Ha Hb Henv.
  destruct (separate_domain.is_bottom a) eqn:Hba.
  { (* the first operand is bottom: the result is the second *)
    destruct Henv as [[Hna _] | Hgb]; [congruence|].
    unfold separate_domain.join, separate_domain.widening. rewrite Hba.
    split; exists b; auto. }
  destruct (separate_domain.is_bottom b) eqn:Hbb.
  { (* the second operand is bottom: the result is the first *)
    destruct Henv as [Hga | [Hnb _]]; [|congruence].
    unfold separate_domain.join, separate_domain.widening.
    rewrite Hba, Hbb. split; exists a; auto. }
  assert (Hin : forall k,
    contains (separate_domain.lookup k a) (env k)
    || contains (separate_domain.lookup k b) (env k) = true).
  { intros k. apply orb_true_iff.
    destruct Henv as [[_ Hk] | [_ Hk]]; [left | right]; apply Hk. }
  destruct (sd_join_returns a b) as [rj Hj].
  destruct (sd_widening_returns a b) as [rw Hw].
  split; [exists rj | exists rw]; (split; [assumption|]).
  - split; [exact (sd_join_not_bottom a b rj Hba Hbb Hj)|].
    intros k.
    destruct (sd_join_pointwise a b rj k Ha Hb Hba Hbb Hj) as [_ ->].
    apply contains_join; auto; apply stored_lookup; assumption.
  - split; [exact (sd_widening_not_bottom a b rw Hba Hbb Hw)|].
    intros k.
    destruct (sd_widening_pointwise a b rw k Ha Hb Hba Hbb Hw) as [_ ->].
    apply contains_widening; auto; apply stored_lookup; assumption.
Qed.

End StateLattice.

Section TransferFunctions.
Context {K : Type} `{Countable K}.

(** X26. The arithmetic transfer functions of the interval domain over
    the integers are sound.  From a state that stands for [env], the
    assignment [x := y op z] for addition, subtraction and multiplication,
    and [x := y op k] for these and for the division by a constant other
    than zero, raise no error and give a state that stands for [env] with
    [x] set to the number computed; the invariant of the state is kept. *)
Theorem apply_arith_sound
  (op : z_interval_domain.operation_t) (x y z : K) (k : Z)
  (s : interval_domain.t Z K) (env : K -> Z) :
  in_gamma env (interval_domain._env s) ->
  well_formed (interval_domain._env s) ->
  (op <> z_interval_domain.OP_DIVISION ->
   exists s', z_interval_domain.apply op x y z s = Ok s' /\
     in_gamma (env_set x (operation_value op (env y) (env z)) env)
       (interval_domain._env s') /\
     well_formed (interval_domain._env s')) /\
  (op <> z_interval_domain.OP_DIVISION \/ k <> 0 ->
   exists s', z_interval_domain.apply_k op x y k s = Ok s' /\
     in_gamma (env_set x (operation_value op (env y) k) env)
       (interval_domain._env s') /\
     well_formed (interval_domain._env s')).
Proof.
  intros Hg Hw.
  destruct (z_lookup_sound env s y Hg Hw) as [Hwy Hcy].
  destruct (z_lookup_sound env s z Hg Hw) as [Hwz Hcz].
  assert (Hck : contains (interval_of k) k = true)
    by (apply z_contains_interval_of; reflexivity).
  assert (Hstep : forall zi c,
    wf_interval zi -> contains zi c = true ->
    (op <> z_interval_domain.OP_DIVISION \/
     (zi = interval_of c /\ c <> 0)) ->
    exists r, z_interval_domain.arith op (interval_domain.lookup y s) zi
                = Ok r /\
              wf_interval r /\
              contains r (operation_value op (env y) c) = true).
  { intros zi c Hwzi Hczi Hop. destruct op; cbn.
    - apply z_interval_add_sound; assumption.
    - apply z_interval_sub_sound; assumption.
    - exists (interval_mul (interval_domain.lookup y s) zi).
      split; [reflexivity|]. apply z_interval_mul_sound; assumption.
    - destruct Hop as [Hop | [-> Hc]]; [congruence|].
      apply z_div_constant_sound; assumption. }
  split.
  - intros Hop.
    destruct (Hstep (interval_domain.lookup z s) (env z) Hwz Hcz
                (or_introl Hop)) as (r & Hr & Hwr & Hcr).
    unfold z_interval_domain.apply. rewrite Hr. cbn.
    eexists. split; [reflexivity|]. apply z_set_sound; assumption.
  - intros Hop.
    assert (Hop' : op <> z_interval_domain.OP_DIVISION \/
                   (interval_of k = interval_of k /\ k <> 0)).
    { destruct Hop; [left | right]; auto. }
    destruct (Hstep (interval_of k) k (wf_interval_of k) Hck Hop')
      as (r & Hr & Hwr & Hcr).
    unfold z_interval_domain.apply_k. rewrite Hr. cbn.
    eexists. split; [reflexivity|]. apply z_set_sound; assumption.
Qed.

(** X27. The division and remainder transfer functions of the interval
    domain over the integers are sound.  From a state that stands for
    [env], [x := y op z] for the remainders and the unsigned division,
    and [x := y op k] for every operation, raise no error and give a
    state that stands for [env] with [x] set to a number the operation
    may compute; the invariant of the state is kept. *)
Theorem apply_div_sound
  (op : z_interval_domain.div_operation_t) (x y z : K) (k v : Z)
  (s : interval_domain.t Z K) (env : K -> Z) :
  in_gamma env (interval_domain._env s) ->
  well_formed (interval_domain._env s) ->
  (op <> z_interval_domain.OP_SDIV ->
   div_operation_value op (env y) (env z) v ->
   exists s', z_interval_domain.apply_div op x y z s = Ok s' /\
     in_gamma (env_set x v env) (interval_domain._env s') /\
     well_formed (interval_domain._env s')) /\
  (div_operation_value op (env y) k v ->
   exists s', z_interval_domain.apply_div_k op x y k s = Ok s' /\
     in_gamma (env_set x v env) (interval_domain._env s') /\
     well_formed (interval_domain._env s')).
Proof.
  intros Hg Hw.
  destruct (z_lookup_sound env s y Hg Hw) as [Hwy Hcy].
  destruct (z_lookup_sound env s z Hg Hw) as [Hwz Hcz].
  assert (Hck : contains (interval_of k) k = true)
    by (apply z_contains_interval_of; reflexivity).
  assert (Hstep : forall zi c,
    wf_interval zi -> contains zi c = true ->
    (op <> z_interval_domain.OP_SDIV \/ zi = interval_of c) ->
    div_operation_value op (env y) c v ->
    exists r, z_interval_domain.div_arith op (interval_domain.lookup y s) zi
                = Ok r /\
              wf_interval r /\ contains r v = true).
  { intros zi c Hwzi Hczi Hop Hv. destruct op; cbn in Hv |- *.
    - destruct Hop as [Hop | ->]; [congruence|].
      destruct Hv as [Hc ->]. apply z_div_constant_sound; assumption.
    - exists (UDiv (interval_domain.lookup y s) zi).
      split; [reflexivity|]. unfold UDiv.
      rewrite (contains_not_bottom _ _ Hcy), (contains_not_bottom _ _ Hczi).
      cbn [orb]. split; [apply wf_top | apply contains_top].
    - destruct Hv as [Hc ->]. eexists. split; [reflexivity|].
      split; [apply wf_z_SRem | apply z_SRem_sound; assumption].
    - destruct Hv as (Hc & Hv & Hmod). eexists. split; [reflexivity|].
      split; [apply wf_z_URem|].
      apply (z_URem_sound _ _ (env y) c v); assumption. }
  split.
  - intros Hop Hv.
    destruct (Hstep (interval_domain.lookup z s) (env z) Hwz Hcz
                (or_introl Hop) Hv) as (r & Hr & Hwr & Hcr).
    unfold z_interval_domain.apply_div. rewrite Hr. cbn.
    eexists. split; [reflexivity|]. apply z_set_sound; assumption.
  - intros Hv.
    destruct (Hstep (interval_of k) k (wf_interval_of k) Hck
                (or_intror eq_refl) Hv) as (r & Hr & Hwr & Hcr).
    unfold z_interval_domain.apply_div_k. rewrite Hr. cbn.
    eexists. split; [reflexivity|]. apply z_set_sound; assumption.
Qed.

(** X28. Assignment of a linear expression is sound over the integers:
    from a state that stands for [env], [assign x e] raises no error and
    gives a state that stands for [env] with [x] set to the value of [e]
    in [env], and the interval [operator[]] computes for [e] contains
    that value; the invariant of the state is kept. *)
Theorem assign_sound
  (x : K) (e : interval_domain.linear_expression_t Z K)
  (s : interval_domain.t Z K) (env : K -> Z) :
  in_gamma env (interval_domain._env s) ->
  well_formed (interval_domain._env s) ->
  (exists r, z_interval_domain.eval e s = Ok r /\ wf_interval r /\
             contains r (linear_value e env) = true) /\
  (exists s', interval_domain.assign x e s = Ok s' /\
     in_gamma (env_set x (linear_value e env) env)
       (interval_domain._env s') /\
     well_formed (interval_domain._env s')).
Proof.
  intros Hg Hw.
  assert (Heval : exists r,
    interval_domain.eval_terms s
      (interval_of (interval_domain.constant e))
      (interval_domain.terms e) = Ok r /\
    wf_interval r /\ contains r (linear_value e env) = true).
  { apply z_eval_terms_sound; auto with wf.
    apply z_contains_interval_of. reflexivity. }
  split; [exact Heval|].
  unfold interval_domain.assign.
  destruct (interval_domain.get_variable e) as [v|] eqn:Hv.
  - (* the expression is the variable v *)
    assert (Hval : linear_value e env = env v).
    { unfold interval_domain.get_variable in Hv. unfold linear_value.
      destruct (interval_domain.terms e) as [|[c w] [|]];
        try discriminate.
      cbn in Hv |- *.
      destruct (Z.eqb_spec (interval_domain.constant e) 0) as [->|];
        [|discriminate].
      destruct (Z.eqb_spec c 1) as [->|]; [|discriminate].
      cbn in Hv. injection Hv as <-. lia. }
    rewrite Hval. eexists. split; [reflexivity|].
    destruct (z_lookup_sound env s v Hg Hw) as [Hwv Hcv].
    apply z_set_sound; assumption.
  - destruct Heval as (r & Hr & Hwr & Hcr). rewrite Hr. cbn.
    eexists. split; [reflexivity|]. apply z_set_sound; assumption.
Qed.

End TransferFunctions.

Section ExportExact.
Context {N : Type} `{Number N} {K : Type} `{Countable K}.

(** X29. The export to linear constraints is exact: an environment
    satisfies every constraint of [to_linear_constraint_system] exactly
    when the state stands for it. *)
Theorem export_exact
  (env : K -> N) (s : interval_domain.t N K) :
  well_formed (interval_domain._env s) ->
  (Forall (satisfies env) (interval_domain.to_linear_constraint_system s) <->
   in_gamma env (interval_domain._env s)).
Proof.
  intros Hw. unfold interval_domain.to_linear_constraint_system,
    interval_domain.is_bottom, in_gamma.
  destruct s as [[b t]]. cbn [interval_domain._env] in *.
  destruct b; cbn [separate_domain.is_bottom separate_domain._is_bottom
                   separate_domain._tree].
  - (* bottom: the false constraint, and no environment *)
    split.
    + intros Hf. apply Forall_cons in Hf as [[] _].
    + intros [Hf _]. discriminate.
  - rewrite tree_export_exact
      by (apply (well_formed_stored _ Hw); reflexivity).
    split; [intros Hk; split; [reflexivity | exact Hk] | intros [_ Hk]; exact Hk].
Qed.

End ExportExact.

(** X30. The division of rational intervals raises no error: on operands
    of well-formed bounds it returns an interval of well-formed bounds,
    whatever the divisor; the division of an interval that is not bottom
    by the constant zero is bottom. *)
Theorem q_div_total (i x : q_interval) :
  wf_interval i -> wf_interval x ->
  (exists r, q_div i x = Ok r /\ wf_interval r) /\
  (is_bottom i = false -> q_div i (interval_of (of_int 0)) = Ok bottom).
Proof.
  intros Hi Hx. split.
  - apply q_div_ok; assumption.
  - intros Hbi. unfold q_div. rewrite Hbi.
    replace (is_bottom (interval_of (of_int 0) : q_interval)) with false
      by reflexivity.
    replace (singleton (interval_of (of_int 0) : q_interval))
      with (Some (of_int 0 : Q)) by reflexivity.
    reflexivity.
Qed.

(** * The properties at concrete operands *)

(** The order at -oo, 3 and +oo. *)
Lemma bound_order_total_witness :
  let a : z_bound := minus_infinity in
  let b : z_bound := bound_of 3 in
  let c : z_bound := plus_infinity in
  (wf_bound a /\ wf_bound b /\ wf_bound c) /\
  (bound_le a b = true \/ bound_le b a = true) /\
  bound_le a a = true /\
  (bound_le a b = true -> bound_le b c = true -> bound_le a c = true) /\
  (bound_le a b = true -> bound_le b a = true -> bound_eq a b = true) /\
  bound_le a b = spec_le (view a) (view b) /\
  bound_ge a b = spec_le (view b) (view a) /\
  (forall n : Z, bound_lt minus_infinity (bound_of n) = true /\
                 bound_lt (bound_of n) plus_infinity = true).
Proof.
  cbv zeta. split; [auto with wf|].
  apply (bound_order_total (N := Z)); auto with wf.
Defined.

(** Sum and quotient of +oo and -2. *)
Lemma bound_arith_errors_witness :
  let a : z_bound := plus_infinity in
  let b : z_bound := bound_of (-2) in
  (wf_bound a /\ wf_bound b) /\
  match bound_add a b with
  | Ok r => wf_bound r /\ spec_add (view a) (view b) = Some (view r)
  | Crab_error e =>
      e = Undefined_oo_sum /\
      (is_plus_infinity a && is_minus_infinity b
       || is_minus_infinity a && is_plus_infinity b) = true
  end /\
  ((is_plus_infinity a && is_minus_infinity b
    || is_minus_infinity a && is_plus_infinity b) = true ->
   bound_add a b = Crab_error Undefined_oo_sum) /\
  match bound_div a b with
  | Ok r => wf_bound r /\ spec_div (view a) (view b) = Some (view r)
  | Crab_error e =>
      e = Division_by_zero /\ bound_eq b (bound_of_int 0) = true
  end /\
  (bound_eq b (bound_of_int 0) = true ->
   bound_div a b = Crab_error Division_by_zero).
Proof.
  cbv zeta. split; [auto with wf|].
  apply (bound_arith_errors (N := Z)); auto with wf.
Defined.

(** Widening [0, 10] with [0, 20] gives [0, +oo], above both. *)
Lemma widening_sound_witness :
  let a : z_interval := interval_ctor (bound_of 0) (bound_of 10) in
  let b : z_interval := interval_ctor (bound_of 0) (bound_of 20) in
  (wf_interval a /\ wf_interval b) /\
  widening a b = Interval (bound_of 0) plus_infinity /\
  interval_le a (widening a b) = true /\
  interval_le b (widening a b) = true.
Proof.
  cbv zeta. split; [auto with wf|]. split; [reflexivity|].
  apply (widening_sound (N := Z)); auto with wf.
Defined.

(** Narrowing [-oo, 5] with [3, 4] gives [3, 5], between the meet and
    the left operand. *)
Lemma narrowing_sandwich_witness :
  let a : z_interval := interval_ctor minus_infinity (bound_of 5) in
  let b : z_interval := interval_ctor (bound_of 3) (bound_of 4) in
  (wf_interval a /\ wf_interval b /\
   (is_bottom a = true \/ exists n, contains a n = true)) /\
  narrowing a b = Interval (bound_of 3) (bound_of 5) /\
  interval_le (meet a b) (narrowing a b) = true /\
  interval_le (narrowing a b) a = true.
Proof.
  cbv zeta.
  assert (Hvalue :
    is_bottom (interval_ctor (@minus_infinity Z _) (bound_of 5)) = true \/
    exists n, contains (interval_ctor (@minus_infinity Z _) (bound_of 5)) n
              = true)
    by (right; exists 5; reflexivity).
  split; [split; [|split]; auto with wf|]. split; [reflexivity|].
  apply (narrowing_sandwich (N := Z)
           (interval_ctor minus_infinity (bound_of 5))
           (interval_ctor (bound_of 3) (bound_of 4)));
    auto with wf.
Defined.

(** [1, 10] / [-3, 2]: the divisor is split into [-3, -1] and [1, 2]. *)
Lemma z_div_case_split_witness :
  let i : z_interval := interval_ctor (bound_of 1) (bound_of 10) in
  let x : z_interval := interval_ctor (bound_of (-3)) (bound_of 2) in
  (is_bottom i = false /\ is_bottom x = false) /\
  (singleton x = None /\ contains x 0 = true) /\
  z_div i x =
    (r1 ← z_div i (interval_ctor (bound_of (-3)) (bound_of (-1)));
     r2 ← z_div i (interval_ctor (bound_of 1) (bound_of 2));
     Ok (join r1 r2)) /\
  z_div i x = Ok (Interval (bound_of (-10)) (bound_of 10)).
Proof.
  cbv zeta. split; [split; reflexivity|]. split; [split; reflexivity|].
  split; [|reflexivity].
  assert (Hi : is_bottom (interval_ctor (@bound_of Z 1) (bound_of 10)) = false)
    by reflexivity.
  assert (Hx : is_bottom (interval_ctor (@bound_of Z (-3)) (bound_of 2)) = false)
    by reflexivity.
  destruct (z_div_case_split _ _ Hi Hx) as [_ Hsplit].
  apply Hsplit; reflexivity.
Defined.

(** Two one-variable states whose meet collapses to bottom. *)
Lemma separate_domain_invariant_witness :
  let x : z_interval := interval_ctor (bound_of 0) (bound_of 5) in
  let y : z_interval := interval_ctor (bound_of 10) (bound_of 20) in
  let a : separate_domain.t positive z_interval :=
    separate_domain.Make false {[ 1%positive := x ]} in
  let b : separate_domain.t positive z_interval :=
    separate_domain.Make false {[ 1%positive := y ]} in
  (well_formed a /\ well_formed b /\ wf_interval x) /\
  well_formed (separate_domain.set 2%positive x a) /\
  well_formed (separate_domain.meet a b) /\
  separate_domain.meet a b = separate_domain.bottom.
Proof.
  cbv zeta.
  assert (Hwf : forall l u : Z, l <= u ->
    well_formed (K := positive)
      (separate_domain.Make false
         {[ 1%positive := interval_ctor (bound_of l) (bound_of u) ]})).
  { intros l u Hlu. apply stored_well_formed, map_Forall_singleton.
    assert (Hle : bound_le (@bound_of Z l) (bound_of u) = true)
      by (apply Z.leb_le; exact Hlu).
    rewrite (interval_ctor_le _ _ Hle).
    split; [split; apply wf_bound_of|].
    split; [reflexivity | apply bound_le_gt_false; exact Hle]. }
  assert (Hx : wf_interval
                 (interval_ctor (@bound_of Z 0) (bound_of 5)))
    by auto with wf.
  split; [split; [apply Hwf; lia | split; [apply Hwf; lia | exact Hx]]|].
  destruct (separate_domain_invariant
              (separate_domain.Make false
                 {[ 1%positive :=
                      interval_ctor (@bound_of Z 0) (bound_of 5) ]})
              (separate_domain.Make false
                 {[ 1%positive :=
                      interval_ctor (@bound_of Z 10) (bound_of 20) ]})
              2%positive
              (interval_ctor (bound_of 0) (bound_of 5))
              (Hwf 0 5 ltac:(lia)) (Hwf 10 20 ltac:(lia)) Hx)
    as (Hset & _ & _ & _ & Hmeet & _).
  split; [exact Hset|]. split; [exact Hmeet|].
  reflexivity.
Defined.

(** ** Scenarios of the specification *)

(** [1, 5] + [-2, 3] = [-1, 8]. *)
Example scenario_addition :
  interval_add (iv 1 5) (iv (-2) 3) = Ok (iv (-1) 8).
Proof. reflexivity. Qed.

(** [1, 10] / [-3, 2] = [-10, 10]. *)
Example scenario_division :
  z_div (iv 1 10) (iv (-3) 2) = Ok (iv (-10) 10).
Proof. reflexivity. Qed.

(** Widening of states: x in [0, 10] with x in [0, 20] gives x in
    [0, +oo]. *)
Example scenario_widening :
  separate_domain.widening
    (separate_domain.Make false {[ 1%positive := iv 0 10 ]})
    (separate_domain.Make false {[ 1%positive := iv 0 20 ]}) =
  Some (separate_domain.Make false
          {[ 1%positive := interval_ctor (bound_of 0) plus_infinity ]}).
Proof. reflexivity. Qed.

(** Forgetting x in the state x in [0, 5], y = 1 leaves y = 1, and x reads
    as top. *)
Example scenario_forget :
  let a : separate_domain.t positive z_interval :=
    separate_domain.set 2%positive (iv 1 1)
      (separate_domain.set 1%positive (iv 0 5) separate_domain.top) in
  separate_domain.forget 1%positive a =
    separate_domain.Make false {[ 2%positive := iv 1 1 ]} /\
  separate_domain.lookup 1%positive (separate_domain.forget 1%positive a) =
    top.
Proof. split; reflexivity. Qed.

(** The export of the state x in [0, +oo], and of the bottom state. *)
Example scenario_export :
  interval_domain.to_linear_constraint_system
    (interval_domain.Make
       (separate_domain.Make false
          {[ 1%positive := interval_ctor (@bound_of Z 0) plus_infinity ]})) =
    [interval_domain.geq 1%positive 0] /\
  interval_domain.to_linear_constraint_system
    (interval_domain.bottom : interval_domain.t Z positive) =
    [interval_domain.get_false].
Proof. split; reflexivity. Qed.

(** * The further properties at concrete operands *)

Ltac conjuncts := repeat match goal with |- _ /\ _ => split end.

(** [1, 2] in [0, 5] in top. *)
Lemma interval_inclusion_order_witness :
  let a : z_interval := interval_ctor (bound_of 1) (bound_of 2) in
  let b : z_interval := interval_ctor (bound_of 0) (bound_of 5) in
  let c : z_interval := top in
  (wf_interval a /\ wf_interval b /\ wf_interval c) /\
  interval_le a a = true /\
  (interval_le a b = true -> interval_le b c = true ->
   interval_le a c = true) /\
  (interval_le a b = true -> interval_le b a = true ->
   interval_eq a b = true) /\
  interval_le bottom a = true /\
  interval_le a top = true.
Proof.
  cbv zeta. split; [auto with wf|].
  apply (interval_inclusion_order (N := Z)); auto with wf.
Defined.

(** The join of [0, 2] and [5, 9] is [0, 9]. *)
Lemma join_least_upper_bound_witness :
  let a : z_interval := interval_ctor (bound_of 0) (bound_of 2) in
  let b : z_interval := interval_ctor (bound_of 5) (bound_of 9) in
  let c : z_interval := interval_ctor (bound_of (-1)) (bound_of 10) in
  (wf_interval a /\ wf_interval b /\ wf_interval c) /\
  join a b = Interval (bound_of 0) (bound_of 9) /\
  interval_le a (join a b) = true /\
  interval_le b (join a b) = true /\
  (interval_le a c = true -> interval_le b c = true ->
   interval_le (join a b) c = true).
Proof.
  cbv zeta. split; [auto with wf|]. split; [reflexivity|].
  apply (join_least_upper_bound (N := Z)); auto with wf.
Defined.

(** The meet of [0, 6] and [4, 9] is [4, 6]. *)
Lemma meet_greatest_lower_bound_witness :
  let a : z_interval := interval_ctor (bound_of 0) (bound_of 6) in
  let b : z_interval := interval_ctor (bound_of 4) (bound_of 9) in
  let c : z_interval := interval_ctor (bound_of 5) (bound_of 5) in
  (wf_interval a /\ wf_interval b /\ wf_interval c) /\
  meet a b = Interval (bound_of 4) (bound_of 6) /\
  interval_le (meet a b) a = true /\
  interval_le (meet a b) b = true /\
  (interval_le c a = true -> interval_le c b = true ->
   interval_le c (meet a b) = true) /\
  (forall n, contains (meet a b) n = contains a n && contains b n).
Proof.
  cbv zeta. split; [auto with wf|]. split; [reflexivity|].
  apply (meet_greatest_lower_bound (N := Z)); auto with wf.
Defined.

(** 3 belongs to [0, 5], which is included in [-oo, 7]. *)
Lemma membership_follows_inclusion_witness :
  let a : z_interval := interval_ctor (bound_of 0) (bound_of 5) in
  let b : z_interval := interval_ctor minus_infinity (bound_of 7) in
  (wf_interval a /\ wf_interval b) /\
  contains a 3 = interval_le (interval_of 3) a /\
  (interval_le a b = true -> contains a 3 = true -> contains b 3 = true) /\
  (contains a 3 || contains b 3 = true -> contains (join a b) 3 = true) /\
  contains (@top Z _) 3 = true /\
  contains (@bottom Z _) 3 = false.
Proof.
  cbv zeta. split; [auto with wf|].
  apply (membership_follows_inclusion (N := Z)); auto with wf.
Defined.

(** Widening [0, 10] with [0, 20], twice. *)
Lemma widening_stationary_witness :
  let a : z_interval := interval_ctor (bound_of 0) (bound_of 10) in
  let b : z_interval := interval_ctor (bound_of 0) (bound_of 20) in
  (wf_interval a /\ wf_interval b) /\
  (is_bottom a = false -> interval_le b a = true -> widening a b = a) /\
  widening (widening a b) b = widening a b.
Proof.
  cbv zeta. split; [auto with wf|].
  apply (widening_stationary (N := Z)); auto with wf.
Defined.

(** Narrowing [-oo, 5] with [3, 4], twice. *)
Lemma narrowing_stationary_witness :
  let a : z_interval := interval_ctor minus_infinity (bound_of 5) in
  let b : z_interval := interval_ctor (bound_of 3) (bound_of 4) in
  (wf_interval a /\ wf_interval b) /\
  (contains a 4 = true -> contains b 4 = true ->
   contains (narrowing a b) 4 = true) /\
  narrowing (narrowing a b) b = narrowing a b.
Proof.
  cbv zeta. split; [auto with wf|].
  apply (narrowing_stationary (N := Z)); auto with wf.
Defined.

(** [1, 2] + [3, 4] and [1, 2] - [3, 4]. *)
Lemma z_add_sub_sound_witness :
  let a : z_interval := interval_ctor (bound_of 1) (bound_of 2) in
  let b : z_interval := interval_ctor (bound_of 3) (bound_of 4) in
  (wf_interval a /\ wf_interval b /\
   contains a 2 = true /\ contains b 3 = true) /\
  (exists r, interval_add a b = Ok r /\ wf_interval r /\
             contains r (2 + 3) = true) /\
  (exists r, interval_sub a b = Ok r /\ wf_interval r /\
             contains r (2 - 3) = true).
Proof.
  cbv zeta. split; [conjuncts; auto with wf|].
  apply z_add_sub_sound; auto with wf.
Defined.

(** [-1, 2] * [3, 4] and - [-1, 2]. *)
Lemma z_mul_neg_sound_witness :
  let a : z_interval := interval_ctor (bound_of (-1)) (bound_of 2) in
  let b : z_interval := interval_ctor (bound_of 3) (bound_of 4) in
  (wf_interval a /\ wf_interval b /\
   contains a 2 = true /\ contains b 3 = true) /\
  wf_interval (interval_mul a b) /\
  contains (interval_mul a b) (2 * 3) = true /\
  contains (interval_neg a) (- 2) = true.
Proof.
  cbv zeta. split; [conjuncts; auto with wf|].
  apply z_mul_neg_sound; auto with wf.
Defined.

(** [-7, 9] / -2 and [-7, 9] / 0. *)
Lemma z_div_by_constant_witness :
  let a : z_interval := interval_ctor (bound_of (-7)) (bound_of 9) in
  (wf_interval a /\ contains a (-7) = true) /\
  (-2 <> 0 ->
   exists r, z_div a (interval_of (-2)) = Ok r /\ wf_interval r /\
             contains r (-7 ÷ -2) = true) /\
  z_div a (interval_of 0) = Ok bottom.
Proof.
  cbv zeta. split; [split; auto with wf|].
  apply z_div_by_constant; auto with wf.
Defined.

(** [1, 10] / [-3, 2]. *)
Lemma z_div_total_witness :
  let i : z_interval := interval_ctor (bound_of 1) (bound_of 10) in
  let x : z_interval := interval_ctor (bound_of (-3)) (bound_of 2) in
  (wf_interval i /\ wf_interval x) /\
  exists r, z_div i x = Ok r /\ wf_interval r /\
            forall n, z_div_fuel (3 + n) i x = Ok r.
Proof.
  cbv zeta. split; [auto with wf|].
  apply z_div_total; auto with wf.
Defined.

(** [-7, 9] rem [2, 3]. *)
Lemma z_srem_sound_witness :
  let a : z_interval := interval_ctor (bound_of (-7)) (bound_of 9) in
  let b : z_interval := interval_ctor (bound_of 2) (bound_of 3) in
  (wf_interval a /\ wf_interval b /\
   contains a (-7) = true /\ contains b 3 = true /\ 3 <> 0) /\
  wf_interval (z_SRem a b) /\
  contains (z_SRem a b) (Z.rem (-7) 3) = true.
Proof.
  cbv zeta. split; [conjuncts; auto with wf; lia|].
  apply z_srem_sound; auto with wf; lia.
Defined.

(** [0, 10] urem [3, 3]. *)
Lemma z_urem_sound_witness :
  let a : z_interval := interval_ctor (bound_of 0) (bound_of 10) in
  let b : z_interval := interval_ctor (bound_of 3) (bound_of 3) in
  (wf_interval a /\ wf_interval b /\
   contains a 7 = true /\ contains b 3 = true /\
   0 < 3 /\ 0 <= 1 < 3 /\ (0 <= 7 -> 1 = 7 mod 3)) /\
  wf_interval (z_URem a b) /\
  contains (z_URem a b) 1 = true.
Proof.
  cbv zeta.
  assert (Hmod : 0 <= 7 -> 1 = 7 mod 3) by (intros _; reflexivity).
  split; [conjuncts; auto with wf; lia|].
  apply (z_urem_sound _ _ 7 3 1); auto with wf; lia.
Defined.

(** [0, 12] & [0, 10]. *)
Lemma z_and_sound_witness :
  let a : z_interval := interval_ctor (bound_of 0) (bound_of 12) in
  let b : z_interval := interval_ctor (bound_of 0) (bound_of 10) in
  (wf_interval a /\ wf_interval b /\
   contains a 12 = true /\ contains b 10 = true) /\
  contains (z_And a b) (Z.land 12 10) = true.
Proof.
  cbv zeta. split; [conjuncts; auto with wf|].
  apply z_and_sound; auto with wf.
Defined.

(** [1, 3] << 2. *)
Lemma z_shl_sound_witness :
  let a : z_interval := interval_ctor (bound_of 1) (bound_of 3) in
  (wf_interval a /\ contains a 3 = true) /\
  (0 <= 2 <= 128 ->
   z_Shl a (interval_of 2) = interval_mul a (interval_of (2 ^ 2)) /\
   contains (z_Shl a (interval_of 2)) (Z.shiftl 3 2) = true) /\
  (2 < 0 \/ 128 < 2 -> z_Shl a (interval_of 2) = top).
Proof.
  cbv zeta. split; [split; auto with wf|].
  apply z_shl_sound; auto with wf.
Defined.

(** [4, 9] >> 1, logical. *)
Lemma z_lshr_sound_witness :
  let a : z_interval := interval_ctor (bound_of 4) (bound_of 9) in
  (wf_interval a /\ contains a 8 = true /\ (0 <= 8 -> 4 = Z.shiftr 8 1)) /\
  contains (z_LShr a (interval_of 1)) 4 = true.
Proof.
  cbv zeta.
  assert (Hr : 0 <= 8 -> 4 = Z.shiftr 8 1) by (intros _; reflexivity).
  split; [conjuncts; auto with wf|].
  apply (z_lshr_sound _ 8 1 4); auto with wf.
Defined.

(** [-5, 9] >> 1, arithmetic. *)
Lemma z_ashr_is_division_witness :
  let a : z_interval := interval_ctor (bound_of (-5)) (bound_of 9) in
  (wf_interval a /\ contains a (-5) = true /\ 0 <= 1 <= 128) /\
  z_AShr a (interval_of 1) = z_div a (interval_of (2 ^ 1)) /\
  exists r, z_AShr a (interval_of 1) = Ok r /\ wf_interval r /\
            contains r (-5 ÷ 2 ^ 1) = true.
Proof.
  cbv zeta. split; [conjuncts; auto with wf; lia|].
  apply z_ashr_is_division; auto with wf; lia.
Defined.

(** Trimming 0 off [0, 5]. *)
Lemma z_trim_interval_keeps_witness :
  let i : z_interval := interval_ctor (bound_of 0) (bound_of 5) in
  let j : z_interval := interval_of 0 in
  (wf_interval i /\ contains i 3 = true /\
   (forall c, singleton j = Some c -> 3 <> c)) /\
  z_trim_interval i j = Interval (bound_of 1) (bound_of 5) /\
  contains (z_trim_interval i j) 3 = true.
Proof.
  cbv zeta.
  assert (Hc : forall c : Z, singleton (interval_of 0) = Some c -> 3 <> c).
  { intros c Hs. rewrite singleton_interval_of in Hs.
    injection Hs as <-. discriminate. }
  split; [conjuncts; auto with wf|]. split; [reflexivity|].
  apply z_trim_interval_keeps; auto with wf.
Defined.

(** The half lines of [0, 5]. *)
Lemma half_lines_contain_witness :
  let a : z_interval := interval_ctor (bound_of 0) (bound_of 5) in
  (wf_interval a /\ contains a 3 = true) /\
  (n_leb (-4) 3 = true -> contains (lower_half_line a) (-4) = true) /\
  (n_leb 3 8 = true -> contains (upper_half_line a) 8 = true).
Proof.
  cbv zeta. split; [split; auto with wf|].
  apply (half_lines_contain (N := Z)); auto with wf.
Defined.

(** Thresholds that answer -oo and +oo. *)
Lemma widening_thresholds_sound_witness :
  let get_prev : z_bound -> z_bound := fun _ => minus_infinity in
  let get_next : z_bound -> z_bound := fun _ => plus_infinity in
  let a : z_interval := interval_ctor (bound_of 0) (bound_of 10) in
  let b : z_interval := interval_ctor (bound_of 0) (bound_of 20) in
  ((forall x, wf_bound x ->
      wf_bound (get_prev x) /\ bound_le (get_prev x) x = true) /\
   (forall x, wf_bound x ->
      wf_bound (get_next x) /\ bound_le x (get_next x) = true) /\
   wf_interval a /\ wf_interval b) /\
  interval_le a (widening_thresholds get_prev get_next a b) = true /\
  interval_le b (widening_thresholds get_prev get_next a b) = true.
Proof.
  cbv zeta.
  assert (Hprev : forall x : z_bound, wf_bound x ->
    wf_bound (@minus_infinity Z _) /\ bound_le minus_infinity x = true).
  { intros x Hx. split; [auto with wf | apply minus_infinity_le; exact Hx]. }
  assert (Hnext : forall x : z_bound, wf_bound x ->
    wf_bound (@plus_infinity Z _) /\ bound_le x plus_infinity = true).
  { intros x Hx. split; [auto with wf | apply plus_infinity_ge; exact Hx]. }
  split; [conjuncts; auto with wf; try apply Hprev; try apply Hnext; auto|].
  apply (widening_thresholds_sound (N := Z)); auto with wf.
Defined.

(** Binding variable 1 to [0, 5] in the top state. *)
Lemma sd_set_then_lookup_witness :
  let s : separate_domain.t positive z_interval := separate_domain.top in
  let v : z_interval := interval_ctor (bound_of 0) (bound_of 5) in
  separate_domain.is_bottom s = false /\
  (v_is_bottom v = false ->
   separate_domain.is_bottom (separate_domain.set 1%positive v s) = false /\
   separate_domain.lookup 1%positive (separate_domain.set 1%positive v s) =
     (if v_is_top v then v_top else v) /\
   (1%positive <> 2%positive ->
    separate_domain.lookup 2%positive (separate_domain.set 1%positive v s) =
      separate_domain.lookup 2%positive s)) /\
  (v_is_bottom v = true ->
   separate_domain.is_bottom (separate_domain.set 1%positive v s) = true /\
   separate_domain.lookup 2%positive (separate_domain.set 1%positive v s)
     = v_bottom).
Proof.
  cbv zeta. split; [reflexivity|].
  apply (sd_set_then_lookup (K := positive) (V := z_interval)).
  reflexivity.
Defined.

(** Forgetting variable 1 of a state that binds it to [0, 5]. *)
Lemma sd_forget_then_lookup_witness :
  let v : z_interval := interval_ctor (bound_of 0) (bound_of 5) in
  let s : separate_domain.t positive z_interval :=
    separate_domain.Make false {[ 1%positive := v ]} in
  (separate_domain.is_bottom s = false ->
   separate_domain.is_bottom (separate_domain.forget 1%positive s) = false /\
   separate_domain.lookup 2%positive (separate_domain.forget 1%positive s) =
     if decide (1%positive = 2%positive) then v_top
     else separate_domain.lookup 2%positive s) /\
  (separate_domain.is_bottom s = true ->
   separate_domain.set 1%positive v s = s /\
   separate_domain.forget 1%positive s = s /\
   separate_domain.lookup 2%positive s = v_bottom).
Proof.
  cbv zeta.
  apply (sd_forget_then_lookup (K := positive) (V := z_interval)).
Defined.

(** Two states that bind variable 1, to [0, 5] and to [3, 9]. *)
Lemma sd_join_widening_pointwise_witness :
  let a : separate_domain.t positive z_interval :=
    separate_domain.Make false
      {[ 1%positive := interval_ctor (bound_of 0) (bound_of 5) ]} in
  let b : separate_domain.t positive z_interval :=
    separate_domain.Make false
      {[ 1%positive := interval_ctor (bound_of 3) (bound_of 9) ]} in
  (well_formed a /\ well_formed b /\
   separate_domain.is_bottom a = false /\
   separate_domain.is_bottom b = false) /\
  exists rj rw,
    separate_domain.join a b = Some rj /\
    separate_domain.widening a b = Some rw /\
    separate_domain.is_bottom rj = false /\
    separate_domain.is_bottom rw = false /\
    forall k,
      separate_domain.lookup k rj =
        join (separate_domain.lookup k a) (separate_domain.lookup k b) /\
      separate_domain.lookup k rw =
        widening (separate_domain.lookup k a) (separate_domain.lookup k b).
Proof.
  cbv zeta.
  pose proof (well_formed_singleton 1%positive 0 5 ltac:(lia)) as Ha.
  pose proof (well_formed_singleton 1%positive 3 9 ltac:(lia)) as Hb.
  split; [conjuncts; auto|].
  apply (sd_join_widening_pointwise (N := Z) (K := positive)); auto.
Defined.

(** The meet of [0, 5] and [3, 9] at variable 1. *)
Lemma sd_meet_narrowing_pointwise_witness :
  let a : separate_domain.t positive z_interval :=
    separate_domain.Make false
      {[ 1%positive := interval_ctor (bound_of 0) (bound_of 5) ]} in
  let b : separate_domain.t positive z_interval :=
    separate_domain.Make false
      {[ 1%positive := interval_ctor (bound_of 3) (bound_of 9) ]} in
  (well_formed a /\ well_formed b /\
   separate_domain.is_bottom a = false /\
   separate_domain.is_bottom b = false) /\
  (separate_domain.is_bottom (separate_domain.meet a b) = true <->
   exists k, is_bottom (meet (separate_domain.lookup k a)
                             (separate_domain.lookup k b)) = true) /\
  (separate_domain.is_bottom (separate_domain.meet a b) = false ->
   forall k, separate_domain.lookup k (separate_domain.meet a b) =
     meet (separate_domain.lookup k a) (separate_domain.lookup k b)) /\
  (separate_domain.is_bottom (separate_domain.narrowing a b) = true <->
   exists k, is_bottom (narrowing (separate_domain.lookup k a)
                                  (separate_domain.lookup k b)) = true) /\
  (separate_domain.is_bottom (separate_domain.narrowing a b) = false ->
   forall k, separate_domain.lookup k (separate_domain.narrowing a b) =
     narrowing (separate_domain.lookup k a) (separate_domain.lookup k b)).
Proof.
  cbv zeta.
  pose proof (well_formed_singleton 1%positive 0 5 ltac:(lia)) as Ha.
  pose proof (well_formed_singleton 1%positive 3 9 ltac:(lia)) as Hb.
  split; [conjuncts; auto|].
  apply (sd_meet_narrowing_pointwise (N := Z) (K := positive)); auto.
Defined.

(** The environment that gives 4 to every variable, in the meet of
    [0, 5] and [3, 9] at variable 1. *)
Lemma gamma_meet_narrowing_witness :
  let env : positive -> Z := fun _ => 4 in
  let a : separate_domain.t positive z_interval :=
    separate_domain.Make false
      {[ 1%positive := interval_ctor (bound_of 0) (bound_of 5) ]} in
  let b : separate_domain.t positive z_interval :=
    separate_domain.Make false
      {[ 1%positive := interval_ctor (bound_of 3) (bound_of 9) ]} in
  (well_formed a /\ well_formed b) /\
  (in_gamma env a /\ in_gamma env b) /\
  in_gamma env (separate_domain.meet a b) /\
  in_gamma env (separate_domain.narrowing a b).
Proof.
  cbv zeta.
  pose proof (well_formed_singleton 1%positive 0 5 ltac:(lia)) as Ha.
  pose proof (well_formed_singleton 1%positive 3 9 ltac:(lia)) as Hb.
  pose proof (in_gamma_singleton 1%positive 0 5 (fun _ => 4) ltac:(lia))
    as Hga.
  pose proof (in_gamma_singleton 1%positive 3 9 (fun _ => 4) ltac:(lia))
    as Hgb.
  split; [auto|]. split; [auto|].
  destruct (gamma_meet_narrowing (N := Z) (K := positive)
              (fun _ => 4) _ _ Ha Hb) as [Hmeet Hnarrow].
  split; [apply Hmeet | apply Hnarrow]; auto.
Defined.

(** The environment that gives 1 to every variable, in the join of
    [0, 5] and [3, 9] at variable 1. *)
Lemma gamma_join_widening_witness :
  let env : positive -> Z := fun _ => 1 in
  let a : separate_domain.t positive z_interval :=
    separate_domain.Make false
      {[ 1%positive := interval_ctor (bound_of 0) (bound_of 5) ]} in
  let b : separate_domain.t positive z_interval :=
    separate_domain.Make false
      {[ 1%positive := interval_ctor (bound_of 3) (bound_of 9) ]} in
  (well_formed a /\ well_formed b /\
   (in_gamma env a \/ in_gamma env b)) /\
  (exists r, separate_domain.join a b = Some r /\ in_gamma env r) /\
  (exists r, separate_domain.widening a b = Some r /\ in_gamma env r).
Proof.
  cbv zeta.
  pose proof (well_formed_singleton 1%positive 0 5 ltac:(lia)) as Ha.
  pose proof (well_formed_singleton 1%positive 3 9 ltac:(lia)) as Hb.
  pose proof (in_gamma_singleton 1%positive 0 5 (fun _ => 1) ltac:(lia))
    as Hga.
  split; [conjuncts; auto|].
  apply (gamma_join_widening (N := Z) (K := positive)); auto.
Defined.

(** x2 := x1 + x1 and x2 := x1 / 3, from x1 in [0, 5] with x1 = 2. *)
Lemma apply_arith_sound_witness :
  let env : positive -> Z := fun _ => 2 in
  let s : interval_domain.t Z positive :=
    interval_domain.Make (separate_domain.Make false
      {[ 1%positive := interval_ctor (bound_of 0) (bound_of 5) ]}) in
  (in_gamma env (interval_domain._env s) /\
   well_formed (interval_domain._env s)) /\
  (exists s',
     z_interval_domain.apply z_interval_domain.OP_ADDITION
       2%positive 1%positive 1%positive s = Ok s' /\
     in_gamma (env_set 2%positive 4 env) (interval_domain._env s') /\
     well_formed (interval_domain._env s')) /\
  (exists s',
     z_interval_domain.apply_k z_interval_domain.OP_DIVISION
       2%positive 1%positive 3 s = Ok s' /\
     in_gamma (env_set 2%positive 0 env) (interval_domain._env s') /\
     well_formed (interval_domain._env s')).
Proof.
  cbv zeta.
  pose proof (well_formed_singleton 1%positive 0 5 ltac:(lia)) as Hw.
  pose proof (in_gamma_singleton 1%positive 0 5 (fun _ => 2) ltac:(lia))
    as Hg.
  split; [auto|]. split.
  - apply (apply_arith_sound z_interval_domain.OP_ADDITION
             2%positive 1%positive 1%positive 0
             (interval_domain.Make _) (fun _ => 2) Hg Hw).
    discriminate.
  - apply (apply_arith_sound z_interval_domain.OP_DIVISION
             2%positive 1%positive 1%positive 3
             (interval_domain.Make _) (fun _ => 2) Hg Hw).
    right. discriminate.
Defined.

(** x2 := x1 srem x1 and x2 := x1 urem 3, from x1 in [0, 5] with
    x1 = 5. *)
Lemma apply_div_sound_witness :
  let env : positive -> Z := fun _ => 5 in
  let s : interval_domain.t Z positive :=
    interval_domain.Make (separate_domain.Make false
      {[ 1%positive := interval_ctor (bound_of 0) (bound_of 5) ]}) in
  (in_gamma env (interval_domain._env s) /\
   well_formed (interval_domain._env s)) /\
  (exists s',
     z_interval_domain.apply_div z_interval_domain.OP_SREM
       2%positive 1%positive 1%positive s = Ok s' /\
     in_gamma (env_set 2%positive 0 env) (interval_domain._env s') /\
     well_formed (interval_domain._env s')) /\
  (exists s',
     z_interval_domain.apply_div_k z_interval_domain.OP_UREM
       2%positive 1%positive 3 s = Ok s' /\
     in_gamma (env_set 2%positive 2 env) (interval_domain._env s') /\
     well_formed (interval_domain._env s')).
Proof.
  cbv zeta.
  pose proof (well_formed_singleton 1%positive 0 5 ltac:(lia)) as Hw.
  pose proof (in_gamma_singleton 1%positive 0 5 (fun _ => 5) ltac:(lia))
    as Hg.
  split; [auto|]. split.
  - apply (apply_div_sound z_interval_domain.OP_SREM
             2%positive 1%positive 1%positive 0 0
             (interval_domain.Make _) (fun _ => 5) Hg Hw).
    + discriminate.
    + split; [discriminate | reflexivity].
  - apply (apply_div_sound z_interval_domain.OP_UREM
             2%positive 1%positive 1%positive 3 2
             (interval_domain.Make _) (fun _ => 5) Hg Hw).
    split; [reflexivity|]. split; [split; discriminate + reflexivity|].
    intros _. reflexivity.
Defined.

(** x2 := 2 * x1 + 1, from x1 in [0, 5] with x1 = 3. *)
Lemma assign_sound_witness :
  let env : positive -> Z := fun _ => 3 in
  let e : interval_domain.linear_expression_t Z positive :=
    {| interval_domain.constant := 1;
       interval_domain.terms := [(2, 1%positive)] |} in
  let s : interval_domain.t Z positive :=
    interval_domain.Make (separate_domain.Make false
      {[ 1%positive := interval_ctor (bound_of 0) (bound_of 5) ]}) in
  (in_gamma env (interval_domain._env s) /\
   well_formed (interval_domain._env s)) /\
  linear_value e env = 7 /\
  (exists r, z_interval_domain.eval e s = Ok r /\ wf_interval r /\
             contains r (linear_value e env) = true) /\
  (exists s', interval_domain.assign 2%positive e s = Ok s' /\
     in_gamma (env_set 2%positive (linear_value e env) env)
       (interval_domain._env s') /\
     well_formed (interval_domain._env s')).
Proof.
  cbv zeta.
  pose proof (well_formed_singleton 1%positive 0 5 ltac:(lia)) as Hw.
  pose proof (in_gamma_singleton 1%positive 0 5 (fun _ => 3) ltac:(lia))
    as Hg.
  split; [auto|]. split; [reflexivity|].
  apply (assign_sound 2%positive _ (interval_domain.Make _) (fun _ => 3)
           Hg Hw).
Defined.

(** The constraints of x1 in [0, 5]. *)
Lemma export_exact_witness :
  let env : positive -> Z := fun _ => 3 in
  let s : interval_domain.t Z positive :=
    interval_domain.Make (separate_domain.Make false
      {[ 1%positive := interval_ctor (bound_of 0) (bound_of 5) ]}) in
  well_formed (interval_domain._env s) /\
  (Forall (satisfies env) (interval_domain.to_linear_constraint_system s) <->
   in_gamma env (interval_domain._env s)).
Proof.
  cbv zeta.
  pose proof (well_formed_singleton 1%positive 0 5 ltac:(lia)) as Hw.
  split; [auto|].
  apply (export_exact (N := Z) (K := positive) (fun _ => 3)
           (interval_domain.Make _) Hw).
Defined.

(** [1, 2] / [-1, 1] over the rationals. *)
Lemma q_div_total_witness :
  let i : q_interval := interval_ctor (bound_of_int 1) (bound_of_int 2) in
  let x : q_interval := interval_ctor (bound_of_int (-1)) (bound_of_int 1) in
  (wf_interval i /\ wf_interval x) /\
  (exists r, q_div i x = Ok r /\ wf_interval r) /\
  (is_bottom i = false -> q_div i (interval_of (of_int 0)) = Ok bottom).
Proof.
  cbv zeta. split; [auto with wf|].
  apply q_div_total; auto with wf.
Defined.
